(** * AgenticDataScience: the OHLCV ingestion path

    A shallow embedding of [src/data/data_model.py],
    [src/data/database_handler.py], [src/data/crypto_data_providers.py]
    and the backfill loop and summary of [src/data/main.py], and the
    properties of the continuous backfill, of the page calls and of the
    market synchronisation.

    Conventions of the embedding.
    - Timestamps are integers in milliseconds ([Z]).  The source turns a
      candle's timestamp into a [datetime] with
      [datetime.fromtimestamp(timestamp / 1000, timezone.utc)]; the call
      raises outside the years a [datetime] can hold ([fromtimestamp_ok]),
      and inside them it is injective and monotone, so the model keeps
      the millisecond value in the place of the [datetime].
    - Primary keys ([uuid.uuid4] defaults) are natural numbers drawn fresh.
    - Prices and volumes travel as text: the source builds every
      [Decimal] from [str(value)].
    - The exchange gateway (ccxt) and the failures of the store are the
      environment: a [World] lists the answers to the successive
      [fetch_ohlcv] calls and tells which [session.commit()] calls raise.
    - Logging has no effect on the data and is left out, except for the
      [logger.error] of the recovery branch, which the trace records. *)

From Stdlib Require Import ZArith List Ascii String Bool Arith Lia Sorted
  FunInd.
Import ListNotations.
Local Open Scope string_scope.
Local Open Scope list_scope.
Local Open Scope Z_scope.


(* ------------------------------------------------------------------ *)
(** ** data_model.py *)

Definition uuid := nat.

(** A [Numeric(20, 8)] value, kept as the decimal literal it was built from. *)
Definition Decimal := string.

(** A Python [str] is held as its UTF-8 encoding, so that equality of
    strings is equality of the encodings.  [len] counts code points: the
    bytes that are not continuation bytes ([10xxxxxx]). *)
Definition continuation_byte (c : ascii) : bool :=
  match c with
  | Ascii _ _ _ _ _ _ b6 b7 => b7 && negb b6
  end.

Fixpoint len (s : string) : nat :=
  match s with
  | EmptyString => 0%nat
  | String c rest =>
      if continuation_byte c then len rest else S (len rest)
  end.

(** [datetime.fromtimestamp(timestamp / 1000, timezone.utc)] on a
    timestamp in milliseconds: it raises when the instant lies outside
    the years 1 to 9999 a [datetime] can hold. *)
Definition datetime_min : Z := -62135596800000.
Definition datetime_max : Z := 253402300799999.

Definition fromtimestamp_ok (timestamp : Z) : bool :=
  (datetime_min <=? timestamp) && (timestamp <=? datetime_max).

Inductive ExchangeType :=
| BINANCE | COINBASE | KRAKEN | KUCOIN | BYBIT | OTHER.

Inductive TimeFrame :=
| MINUTE_1 | MINUTE_3 | MINUTE_5 | MINUTE_15 | MINUTE_30
| HOUR_1 | HOUR_2 | HOUR_4 | HOUR_6 | HOUR_8 | HOUR_12
| DAY_1 | DAY_3 | WEEK_1 | MONTH_1.

Definition TimeFrame_value (t : TimeFrame) : string :=
  match t with
  | MINUTE_1 => "1m" | MINUTE_3 => "3m" | MINUTE_5 => "5m"
  | MINUTE_15 => "15m" | MINUTE_30 => "30m"
  | HOUR_1 => "1h" | HOUR_2 => "2h" | HOUR_4 => "4h" | HOUR_6 => "6h"
  | HOUR_8 => "8h" | HOUR_12 => "12h"
  | DAY_1 => "1d" | DAY_3 => "3d" | WEEK_1 => "1w" | MONTH_1 => "1M"
  end.

Definition TimeFrame_members : list TimeFrame :=
  [MINUTE_1; MINUTE_3; MINUTE_5; MINUTE_15; MINUTE_30;
   HOUR_1; HOUR_2; HOUR_4; HOUR_6; HOUR_8; HOUR_12;
   DAY_1; DAY_3; WEEK_1; MONTH_1].

(** [TimeFrame(value)]: lookup by value; [None] stands for the [ValueError]
    Python raises on a string that is no member's value. *)
Definition TimeFrame_of_value (s : string) : option TimeFrame :=
  find (fun t => String.eqb (TimeFrame_value t) s) TimeFrame_members.

Definition TimeFrame_eq_dec (a b : TimeFrame) : {a = b} + {a <> b}.
Proof. decide equality. Defined.

Definition TimeFrame_eqb (a b : TimeFrame) : bool :=
  if TimeFrame_eq_dec a b then true else false.

Module Exchange.
Record t := mk {
  id : uuid;
  name : string;
  exchange_type : ExchangeType;
  timezone_name : string
}.
End Exchange.

Module Symbol.
Record t := mk {
  id : uuid;
  exchange_id : uuid;
  symbol : string;
  base_currency : string;
  quote_currency : string;
  is_active : bool;
  min_order_size : option Decimal;
  max_order_size : option Decimal;
  min_price : option Decimal;
  max_price : option Decimal;
  price_precision : option Z;
  quantity_precision : option Z
}.
End Symbol.

(** The surrogate key and the nullable metric columns of [OHLCV] are never
    set or read by the ingestion code; the row is its natural key and its
    five values. *)
Module OHLCV.
Record t := mk {
  exchange_id : uuid;
  symbol_id : uuid;
  timeframe : TimeFrame;
  timestamp : Z;
  open_price : Decimal;
  high_price : Decimal;
  low_price : Decimal;
  close_price : Decimal;
  volume : Decimal
}.
End OHLCV.

(* ------------------------------------------------------------------ *)
(** ** database_handler.py: the store and its sessions *)

Record Database := mkDatabase {
  exchanges : list Exchange.t;
  symbols : list Symbol.t;
  ohlcv : list OHLCV.t
}.

Definition empty_database : Database := mkDatabase [] [] [].

(** A session is the committed content of the database together with the
    rows added in the open transaction.  The session maker keeps
    SQLAlchemy's default autoflush, so a query sees both.  [inactive]
    tells that a [session.commit()] has raised and [session.rollback()]
    has not been called since: SQLAlchemy has then discarded the rows of
    the transaction, and it answers every further query and commit with
    an exception ([PendingRollbackError]) until the rollback.  Only
    the continuous backfill goes on after a commit that raised; the other
    functions commit once, when they leave the session. *)
Record Session := mkSession {
  committed : Database;
  pending : Database;
  inactive : bool
}.

Definition session_maker (db : Database) : Session :=
  mkSession db empty_database false.

Definition visible_exchanges (s : Session) : list Exchange.t :=
  exchanges (committed s) ++ exchanges (pending s).

Definition visible_symbols (s : Session) : list Symbol.t :=
  symbols (committed s) ++ symbols (pending s).

Definition visible_ohlcv (s : Session) : list OHLCV.t :=
  ohlcv (committed s) ++ ohlcv (pending s).

(** [session.commit()] on an active session, when it goes through. *)
Definition commit (s : Session) : Session :=
  mkSession
    (mkDatabase (visible_exchanges s) (visible_symbols s) (visible_ohlcv s))
    empty_database false.

(** [session.commit()] when it raises: the rows of the transaction are
    gone and the session waits for a rollback. *)
Definition fail_commit (s : Session) : Session :=
  mkSession (committed s) empty_database true.

Definition rollback (s : Session) : Session :=
  mkSession (committed s) empty_database false.

Definition add_exchange (s : Session) (e : Exchange.t) : Session :=
  mkSession (committed s)
    (mkDatabase (exchanges (pending s) ++ [e]) (symbols (pending s))
                (ohlcv (pending s)))
    (inactive s).

Definition add_symbol (s : Session) (y : Symbol.t) : Session :=
  mkSession (committed s)
    (mkDatabase (exchanges (pending s)) (symbols (pending s) ++ [y])
                (ohlcv (pending s)))
    (inactive s).

Definition add_ohlcv (s : Session) (r : OHLCV.t) : Session :=
  mkSession (committed s)
    (mkDatabase (exchanges (pending s)) (symbols (pending s))
                (ohlcv (pending s) ++ [r]))
    (inactive s).

(** A fresh primary key: larger than every key a query can see. *)
Definition new_uuid (s : Session) : uuid :=
  S (list_max (map Exchange.id (visible_exchanges s)
               ++ map Symbol.id (visible_symbols s))).

(** [session.query(Exchange).filter_by(name=name).first()] *)
Definition query_exchange (s : Session) (name : string) : option Exchange.t :=
  find (fun e => String.eqb (Exchange.name e) name) (visible_exchanges s).

(** [session.query(Symbol).filter_by(exchange_id=.., symbol=..).first()] *)
Definition symbol_matches (exchange_id : uuid) (symbol : string)
    (y : Symbol.t) : bool :=
  Nat.eqb (Symbol.exchange_id y) exchange_id
  && String.eqb (Symbol.symbol y) symbol.

Definition query_symbol (s : Session) (exchange_id : uuid) (symbol : string)
    : option Symbol.t :=
  find (symbol_matches exchange_id symbol) (visible_symbols s).

(** [session.query(OHLCV).filter_by(symbol_id=.., timeframe=..,
    timestamp=..).first()] *)
Definition ohlcv_matches (symbol_id : uuid) (tf : TimeFrame) (ts : Z)
    (r : OHLCV.t) : bool :=
  Nat.eqb (OHLCV.symbol_id r) symbol_id
  && TimeFrame_eqb (OHLCV.timeframe r) tf
  && (OHLCV.timestamp r =? ts).

Definition query_ohlcv (s : Session) (symbol_id : uuid) (tf : TimeFrame)
    (ts : Z) : option OHLCV.t :=
  find (ohlcv_matches symbol_id tf ts) (visible_ohlcv s).

(* ------------------------------------------------------------------ *)
(** ** crypto_data_providers.py: markets and symbols *)

(** A market as [fetch_markets] returns it: the keys the code reads. *)
Module Market.
Record t := mk {
  active : bool;
  symbol : string;
  base : string;
  quote : string;
  limits_amount_min : option Decimal;
  limits_amount_max : option Decimal;
  limits_price_min : option Decimal;
  limits_price_max : option Decimal;
  precision_price : option Z;
  precision_amount : option Z
}.
End Market.

Definition get_or_create_exchange (session : Session) (name : string)
    (exchange_type : ExchangeType) : Exchange.t * Session :=
  match query_exchange session name with
  | Some exchange => (exchange, session)
  | None =>
      let exchange := Exchange.mk (new_uuid session) name exchange_type "UTC" in
      (exchange, add_exchange session exchange)
  end.

(** [len(base) > 10 or len(quote) > 10] *)
Definition currency_names_too_long (base quote : string) : bool :=
  (10 <? len base)%nat || (10 <? len quote)%nat.

Definition get_or_create_symbol (session : Session) (exchange_id : uuid)
    (symbol base quote : string) (symbol_info : option Market.t)
    : option Symbol.t * Session :=
  if currency_names_too_long base quote then (None, session)
  else
    match query_symbol session exchange_id symbol with
    | Some db_symbol => (Some db_symbol, session)
    | None =>
        let db_symbol :=
          match symbol_info with
          | Some m =>
              Symbol.mk (new_uuid session) exchange_id symbol base quote true
                (Market.limits_amount_min m) (Market.limits_amount_max m)
                (Market.limits_price_min m) (Market.limits_price_max m)
                (Market.precision_price m) (Market.precision_amount m)
          | None =>
              Symbol.mk (new_uuid session) exchange_id symbol base quote true
                None None None None None None
          end in
        (Some db_symbol, add_symbol session db_symbol)
    end.

Definition _get_exchange_type (name : string) : ExchangeType :=
  if String.eqb name "binance" then BINANCE
  else if String.eqb name "coinbase" then COINBASE
  else if String.eqb name "kraken" then KRAKEN
  else if String.eqb name "kucoin" then KUCOIN
  else if String.eqb name "bybit" then BYBIT
  else OTHER.

(** The [for market in markets] loop of [fetch_and_store_markets]. *)
Fixpoint store_markets (exchange_id : uuid) (markets : list Market.t)
    (session : Session) (symbols_created : nat) : nat * Session :=
  match markets with
  | [] => (symbols_created, session)
  | market :: rest =>
      if Market.active market then
        match get_or_create_symbol session exchange_id
                (Market.symbol market) (Market.base market)
                (Market.quote market) (Some market) with
        | (Some _, session') =>
            store_markets exchange_id rest session' (S symbols_created)
        | (None, session') =>
            store_markets exchange_id rest session' symbols_created
        end
      else store_markets exchange_id rest session symbols_created
  end.

(** [fetch_and_store_markets], for a gateway whose [fetch_markets] answers
    [markets]: the count returned and the database once the session
    context has committed. *)
Definition fetch_and_store_markets (exchange_name : string)
    (markets : list Market.t) (db : Database) : nat * Database :=
  let session := session_maker db in
  let '(exchange, session) :=
    get_or_create_exchange session exchange_name
      (_get_exchange_type exchange_name) in
  let '(symbols_created, session) :=
    store_markets (Exchange.id exchange) markets session 0 in
  (symbols_created, committed (commit session)).

Definition _get_exchange_id (session : Session) (exchange_name : string)
    : option uuid :=
  option_map Exchange.id (query_exchange session exchange_name).

(** [filter_by(exchange_id=None, ...)] matches no row: the column is not
    nullable. *)
Definition _get_db_symbol (session : Session) (exchange_name symbol : string)
    : option Symbol.t :=
  match _get_exchange_id session exchange_name with
  | Some exchange_id => query_symbol session exchange_id symbol
  | None => None
  end.

(* ------------------------------------------------------------------ *)
(** ** crypto_data_providers.py: the continuous backfill *)

(** A value inside a candle.  [PyNum text] is a number whose [str()] is
    [text]; [PyNone] is Python's [None], on which [Decimal(str(..))]
    raises. *)
Inductive pyvalue :=
| PyNum (text : string)
| PyNone.

Definition to_Decimal (v : pyvalue) : option Decimal :=
  match v with
  | PyNum text => Some text
  | PyNone => None
  end.

(** An entry of a page.  [Candle] is a list of six values, [Ragged first] a
    list of another length that starts with [first]: unpacking it into six
    names raises. *)
Inductive candle :=
| Candle (timestamp : Z) (open_price high low close volume : pyvalue)
| Ragged (first : Z).

(** [ohlcv[0]] *)
Definition item0 (c : candle) : Z :=
  match c with
  | Candle timestamp _ _ _ _ _ => timestamp
  | Ragged first => first
  end.

Inductive fetch_result :=
| FetchRaises
| FetchReturns (candles : list candle).

(** The three places that call [session.commit()] during a backfill: line
    267 inside the loop (with the batch counter at the call), line 281
    after the loop, and [get_session] when the [with] block is left. *)
Inductive commit_site :=
| Periodic (batch_count : nat)
| Final
| SessionExit.

(** The environment of one run: the gateway's answers to the successive
    [fetch_ohlcv] calls, in call order; for each commit on an active
    session whether the store lets it through; the gateway's [rateLimit]
    in milliseconds; and the clock read when the run finishes. *)
Record World := mkWorld {
  responses : list fetch_result;
  commit_succeeds : commit_site -> bool;
  rateLimit : Z;
  now : Z
}.

(** Whether a [session.commit()] call goes through: never on an inactive
    session, otherwise as the store decides. *)
Definition can_commit (w : World) (site : commit_site) (s : Session) : bool :=
  negb (inactive s) && commit_succeeds w site.


(** The calls a run makes on the gateway and on the session, as the trace
    records them. *)
Inductive effect :=
| EFetch (since : Z) (result : fetch_result)
| ELookup (symbol_id : uuid) (tf : TimeFrame) (timestamp : Z) (found : bool)
| EAdd (row : OHLCV.t)
| ECommit (site : commit_site) (rows : nat) (ok : bool)
| ESleep (ms : Z)
| ELogError (batch_count : nat)
| ERollback.

(** [end_timestamp and timestamp >= end_timestamp], with Python's truth
    value of an optional integer: [None] and [0] are false. *)
Definition reached (end_timestamp : option Z) (timestamp : Z) : bool :=
  match end_timestamp with
  | Some e => negb (e =? 0) && (e <=? timestamp)
  | None => false
  end.

(** The [OHLCV(...)] constructor call of line 239: five [Decimal(str(..))]
    conversions, any of which may raise. *)
Definition new_OHLCV (db_symbol : Symbol.t) (tf : TimeFrame) (timestamp : Z)
    (open_price high low close volume : pyvalue) : option OHLCV.t :=
  match to_Decimal open_price, to_Decimal high, to_Decimal low,
        to_Decimal close, to_Decimal volume with
  | Some o, Some h, Some l, Some c, Some v =>
      Some (OHLCV.mk (Symbol.exchange_id db_symbol) (Symbol.id db_symbol)
                     tf timestamp o h l c v)
  | _, _, _, _, _ => None
  end.

(** The variables of [continuous_backfill_ohlcv] that live across the
    [while] loop, and the trace of the calls made so far. *)
Record Locals := mkLocals {
  since : Z;
  session : Session;
  total_records : nat;
  all_timestamps : list Z;
  batch_count : nat;
  trace : list effect
}.

(** What the [for ohlcv in candles] loop changes. *)
Record Batch := mkBatch {
  b_session : Session;
  batch_records : nat;
  b_timestamps : list Z;
  b_trace : list effect
}.

Inductive for_result :=
| ForDone (b : Batch)
| ForRaised (b : Batch).

Section Backfill.

(** The commit interval: the literal 10 of line 266. *)
Variable commit_every : nat.

Variable w : World.
Variable db_symbol : Symbol.t.
Variable timeframe : string.
Variable end_timestamp : option Z.

(** Lines 223-253. *)
Fixpoint process_candles (candles : list candle) (b : Batch) : for_result :=
  match candles with
  | [] => ForDone b
  | Ragged _ :: _ => ForRaised b
  | Candle timestamp open_price high low close volume :: rest =>
      if reached end_timestamp timestamp then ForDone b
      else if fromtimestamp_ok timestamp then
        match TimeFrame_of_value timeframe with
        | None => ForRaised b
        | Some tf =>
            if inactive (b_session b) then ForRaised b
            else
              match query_ohlcv (b_session b) (Symbol.id db_symbol) tf
                      timestamp with
              | Some _ =>
                  process_candles rest
                    (mkBatch (b_session b) (batch_records b)
                       (b_timestamps b ++ [timestamp])
                       (b_trace b
                        ++ [ELookup (Symbol.id db_symbol) tf timestamp true]))
              | None =>
                  let looked :=
                    b_trace b
                    ++ [ELookup (Symbol.id db_symbol) tf timestamp false] in
                  match new_OHLCV db_symbol tf timestamp
                          open_price high low close volume with
                  | None =>
                      ForRaised
                        (mkBatch (b_session b) (batch_records b)
                           (b_timestamps b) looked)
                  | Some ohlcv_record =>
                      process_candles rest
                        (mkBatch (add_ohlcv (b_session b) ohlcv_record)
                           (S (batch_records b))
                           (b_timestamps b ++ [timestamp])
                           (looked ++ [EAdd ohlcv_record]))
                  end
              end
        end
      else ForRaised b
  end.

Inductive iter_result :=
| Break (l : Locals)
| Continue (l : Locals)
| Recover (l : Locals).

(** Lines 274-278: log, skip one day ahead, go on. *)
Definition except_branch (l : Locals) : iter_result :=
  Recover
    (mkLocals (since l + 86400000) (session l) (total_records l)
       (all_timestamps l) (batch_count l)
       (trace l ++ [ELogError (batch_count l)])).

Definition log (e : effect) (l : Locals) : Locals :=
  mkLocals (since l) (session l) (total_records l) (all_timestamps l)
    (batch_count l) (trace l ++ [e]).

(** Lines 270-272; [time.sleep] raises on a negative length. *)
Definition respect_rate_limit (l : Locals) : iter_result :=
  if rateLimit w =? 0 then Continue l
  else if rateLimit w <? 0 then except_branch l
  else Continue (log (ESleep (rateLimit w)) l).

Definition pending_rows (s : Session) : nat := List.length (ohlcv (pending s)).

(** Lines 265-268.  A commit that raises lands in the recovery branch,
    which does not call [session.rollback()]: the rows staged so far are
    gone and the session stays inactive for the rest of the loop. *)
Definition commit_batch (l : Locals) : iter_result :=
  if (batch_count l mod commit_every =? 0)%nat then
    if can_commit w (Periodic (batch_count l)) (session l) then
      respect_rate_limit
        (mkLocals (since l) (commit (session l)) (total_records l)
           (all_timestamps l) (batch_count l)
           (trace l
            ++ [ECommit (Periodic (batch_count l))
                  (pending_rows (session l)) true]))
    else
      except_branch
        (mkLocals (since l) (fail_commit (session l)) (total_records l)
           (all_timestamps l) (batch_count l)
           (trace l
            ++ [ECommit (Periodic (batch_count l))
                  (pending_rows (session l)) false]))
  else respect_rate_limit l.

(** One turn of the [while True] loop (lines 206-278) on the gateway's
    answer to this turn's [fetch_ohlcv] call. *)
Definition iteration (r : fetch_result) (l : Locals) : iter_result :=
  let l := log (EFetch (since l) r) l in
  match r with
  | FetchRaises => except_branch l
  | FetchReturns [] => Break l
  | FetchReturns (c0 :: cs) =>
      if reached end_timestamp (item0 c0) then Break l
      else
        let counted := S (batch_count l) in
        match process_candles (c0 :: cs)
                (mkBatch (session l) 0 (all_timestamps l) (trace l)) with
        | ForRaised b =>
            except_branch
              (mkLocals (since l) (b_session b) (total_records l)
                 (b_timestamps b) counted (b_trace b))
        | ForDone b =>
            let last_timestamp := item0 (last cs c0) in
            commit_batch
              (mkLocals (last_timestamp + 1) (b_session b)
                 (total_records l + batch_records b)
                 (b_timestamps b) counted (b_trace b))
        end
  end.

Inductive loop_result :=
| LoopExit (l : Locals)
| GatewaySilent (l : Locals).

(** The [while True] loop, fed the gateway's successive answers.
    [GatewaySilent] tells that the answers ran out while the loop was
    still asking. *)
Fixpoint while_true (answers : list fetch_result) (l : Locals)
    : loop_result :=
  match answers with
  | [] => GatewaySilent l
  | r :: rest =>
      match iteration r l with
      | Break l' => LoopExit l'
      | Continue l' => while_true rest l'
      | Recover l' => while_true rest l'
      end
  end.

End Backfill.

(** [min(all_timestamps)] and [max(all_timestamps)] on a non-empty list. *)
Definition py_min (x : Z) (xs : list Z) : Z := fold_left Z.min xs x.
Definition py_max (x : Z) (xs : list Z) : Z := fold_left Z.max xs x.

(** How a call of [continuous_backfill_ohlcv] ends: with the tuple it
    returns, or with an exception; either way with the database the
    session leaves and the trace of the run.  [Unfinished] tells that
    the [World] ran out of answers. *)
Inductive outcome :=
| Returned (total_records : nat) (actual_start actual_end : Z)
           (db : Database) (tr : list effect)
| Raises (db : Database) (tr : list effect)
| Unfinished (tr : list effect).

Definition initial_locals (start : Z) (opened : Session) : Locals :=
  mkLocals start opened 0 [] 0 [].

(** Lines 283-288.  Every timestamp of the list has been through
    [datetime.fromtimestamp] at line 230, so the two conversions made
    here do not raise. *)
Definition actual_range (w : World) (all_timestamps : list Z) : Z * Z :=
  match all_timestamps with
  | [] => (now w, now w)
  | t :: ts => (py_min t ts, py_max t ts)
  end.

(** [continuous_backfill_ohlcv] with the commit interval as a parameter,
    run against database [db] in a world [w].  [since] and [end_timestamp]
    are the parsed [start_date] and [end_date]. *)
Definition backfill (commit_every : nat) (w : World) (db : Database)
    (exchange_name symbol timeframe : string) (since : Z)
    (end_timestamp : option Z) : outcome :=
  let opened := session_maker db in
  match _get_db_symbol opened exchange_name symbol with
  | None => Raises (committed (rollback opened)) [ERollback]
  | Some db_symbol =>
      match while_true commit_every w db_symbol timeframe end_timestamp
              (responses w) (initial_locals since opened) with
      | GatewaySilent l => Unfinished (trace l)
      | LoopExit l =>
          let rows := pending_rows (session l) in
          if can_commit w Final (session l) then
            let flushed := commit (session l) in
            let tr := trace l ++ [ECommit Final rows true] in
            let '(actual_start, actual_end) :=
              actual_range w (all_timestamps l) in
            if can_commit w SessionExit flushed then
              Returned (total_records l) actual_start actual_end
                (committed (commit flushed))
                (tr ++ [ECommit SessionExit 0 true])
            else
              Raises (committed (rollback (fail_commit flushed)))
                (tr ++ [ECommit SessionExit 0 false; ERollback])
          else
            Raises (committed (rollback (fail_commit (session l))))
              (trace l ++ [ECommit Final rows false; ERollback])
      end
  end.

Definition continuous_backfill_ohlcv := backfill 10.

(* ------------------------------------------------------------------ *)
(** ** Reading a trace *)

(** The cursor values handed to [fetch_ohlcv], in call order. *)
Definition fetched (tr : list effect) : list Z :=
  flat_map (fun e => match e with EFetch s _ => [s] | _ => [] end) tr.

(** The rows handed to [session.add]. *)
Definition added (tr : list effect) : list OHLCV.t :=
  flat_map (fun e => match e with EAdd r => [r] | _ => [] end) tr.

(** The timestamps of the candles the run has seen through: those found
    in the store already and those it wrote. *)
Definition observed (tr : list effect) : list Z :=
  flat_map (fun e => match e with
                     | ELookup _ _ ts true => [ts]
                     | EAdd r => [OHLCV.timestamp r]
                     | _ => []
                     end) tr.

(** The [session.commit()] calls, with the number of rows each one found
    staged and whether it went through. *)
Definition commits (tr : list effect) : list (commit_site * nat * bool) :=
  flat_map (fun e => match e with
                     | ECommit site rows ok => [(site, rows, ok)]
                     | _ => []
                     end) tr.

(** The store as the trace tells it: rows committed and rows staged, from
    the rows [c] committed and [p] staged before the trace. *)
Definition replay_effect (cp : list OHLCV.t * list OHLCV.t) (e : effect)
    : list OHLCV.t * list OHLCV.t :=
  match e with
  | EAdd r => (fst cp, snd cp ++ [r])
  | ECommit _ _ true => (fst cp ++ snd cp, [])
  | ECommit _ _ false => (fst cp, [])
  | ERollback => (fst cp, [])
  | _ => cp
  end.

Definition replay (tr : list effect) (cp : list OHLCV.t * list OHLCV.t)
    : list OHLCV.t * list OHLCV.t :=
  fold_left replay_effect tr cp.

(* ------------------------------------------------------------------ *)
(** ** Vocabulary of the properties *)

(** The batch a [for] loop ended with, however it ended. *)
Definition batch_of (r : for_result) : Batch :=
  match r with ForDone b => b | ForRaised b => b end.

(** The timestamp of the candle an effect is about. *)
Definition effect_timestamp (e : effect) : option Z :=
  match e with
  | ELookup _ _ ts _ => Some ts
  | EAdd r => Some (OHLCV.timestamp r)
  | _ => None
  end.

(** The effects of the [for] loop: lookups and adds of candles the end
    bound lets through. *)
Definition candle_effect (end_timestamp : option Z) (e : effect) : Prop :=
  exists ts, effect_timestamp e = Some ts /\ reached end_timestamp ts = false.

Ltac simpl_batch :=
  cbn [batch_of b_trace b_session b_timestamps batch_records] in *.

Definition locals_of (r : iter_result) : Locals :=
  match r with Break l => l | Continue l => l | Recover l => l end.

Definition loop_locals (r : loop_result) : Locals :=
  match r with LoopExit l => l | GatewaySilent l => l end.

(** The candle rows of a session: committed, and staged. *)
Definition session_rows (s : Session) : list OHLCV.t * list OHLCV.t :=
  (ohlcv (committed s), ohlcv (pending s)).

(** No exchange and no symbol is staged. *)
Definition clean (s : Session) : Prop :=
  exchanges (pending s) = [] /\ symbols (pending s) = [].

(** The effects of the [while] loop: no rollback, candles within the
    bound, commits at the periodic site only. *)
Definition loop_effect (end_timestamp : option Z) (e : effect) : Prop :=
  e <> ERollback
  /\ (forall ts, effect_timestamp e = Some ts ->
                 reached end_timestamp ts = false)
  /\ (forall site rows ok, e = ECommit site rows ok ->
                           exists k, site = Periodic k).

(** A commit that went through, or another call. *)
Definition went_through (e : effect) : Prop :=
  match e with
  | ECommit _ _ false => False
  | _ => True
  end.

(** Every commit call of the trace found staged exactly the rows added
    since the commit before it, starting from the rows [cp]. *)
Fixpoint audited (cp : list OHLCV.t * list OHLCV.t) (tr : list effect)
    : Prop :=
  match tr with
  | [] => True
  | x :: rest =>
      match x with
      | ECommit _ rows _ => rows = List.length (snd cp)
      | _ => True
      end
      /\ audited (replay_effect cp x) rest
  end.

(** [evolves e l l' ext]: the locals [l'] come from [l] by the effects
    [ext]; the list of timestamps and the rows of the session are the
    ones the effects tell, the tables of exchanges and symbols are
    untouched, every commit found staged what was added since the last
    one, and a session that is active at the end was active before and
    saw no commit raise. *)
Record evolves (end_timestamp : option Z) (l l' : Locals) (ext : list effect)
    : Prop := mkEvolves {
  ev_trace : trace l' = trace l ++ ext;
  ev_effects : Forall (loop_effect end_timestamp) ext;
  ev_timestamps : all_timestamps l' = all_timestamps l ++ observed ext;
  ev_rows : session_rows (session l') = replay ext (session_rows (session l));
  ev_active : inactive (session l') = false ->
              inactive (session l) = false /\ Forall went_through ext;
  ev_audit : audited (session_rows (session l)) ext;
  ev_clean : clean (session l) ->
             clean (session l')
             /\ exchanges (committed (session l'))
                = exchanges (committed (session l))
             /\ symbols (committed (session l'))
                = symbols (committed (session l))
}.

(** Effects that change neither the store nor the list of timestamps. *)
Definition quiet (e : effect) : Prop :=
  match e with
  | EFetch _ _ | ESleep _ | ELogError _ => True
  | _ => False
  end.

Definition outcome_trace (o : outcome) : list effect :=
  match o with
  | Returned _ _ _ _ tr => tr
  | Raises _ tr => tr
  | Unfinished tr => tr
  end.

(** An effect about a candle is about one the end bound lets through. *)
Definition effect_in_range (end_timestamp : option Z) (e : effect) : Prop :=
  forall ts, effect_timestamp e = Some ts -> reached end_timestamp ts = false.

(** The gateway honours [since]: it returns no candle from before it. *)
Definition answers_from (s : Z) (r : fetch_result) : Prop :=
  match r with
  | FetchReturns candles => Forall (fun c => s <= item0 c) candles
  | FetchRaises => True
  end.

Definition honest_fetch (e : effect) : Prop :=
  match e with
  | EFetch s r => answers_from s r
  | _ => True
  end.

(** [Decimal(str(v))] does not raise. *)
Definition numeric (v : pyvalue) : Prop := to_Decimal v <> None.








Definition convertible (o h l c v : pyvalue) : Prop :=
  numeric o /\ numeric h /\ numeric l /\ numeric c /\ numeric v.

Definition storable (c : candle) : Prop :=
  match c with
  | Candle _ o h l c v => convertible o h l c v
  | Ragged _ => False
  end.

(** A row that some convertible candle of [G] has the timestamp of. *)
Definition came_from (G : list candle) (r : OHLCV.t) : Prop :=
  exists c, In c G /\ storable c /\ item0 c = OHLCV.timestamp r.

(** No timestamp is served once as a candle that converts and once as a
    candle that does not. *)
Definition consistent (G : list candle) : Prop :=
  forall ts o h l c v o' h' l' c' v',
    In (Candle ts o h l c v) G -> In (Candle ts o' h' l' c' v') G ->
    convertible o h l c v -> convertible o' h' l' c' v'.

Definition candles_of (r : fetch_result) : list candle :=
  match r with FetchReturns cs => cs | FetchRaises => [] end.

Definition all_candles (answers : list fetch_result) : list candle :=
  flat_map candles_of answers.

(** Two [for] loops ended the same way. *)
Definition same_kind (r1 r2 : for_result) : Prop :=
  match r1, r2 with
  | ForDone _, ForDone _ => True
  | ForRaised _, ForRaised _ => True
  | _, _ => False
  end.

(** Two runs are at the same point: same cursor, same batch counter,
    same timestamps observed. *)
Definition agree (l1 l2 : Locals) : Prop :=
  since l1 = since l2 /\ batch_count l1 = batch_count l2
  /\ all_timestamps l1 = all_timestamps l2.

Definition same_step (r1 r2 : iter_result) : Prop :=
  match r1, r2 with
  | Break _, Break _ => True
  | Continue _, Continue _ => True
  | Recover _, Recover _ => True
  | _, _ => False
  end.

(** The identity of row [r] is absent from what session [s] can see. *)
Definition absent (s : Session) (r : OHLCV.t) : Prop :=
  query_ohlcv s (OHLCV.symbol_id r) (OHLCV.timeframe r) (OHLCV.timestamp r)
  = None.

(** Nothing is staged, and the session is active. *)
Definition idle (s : Session) : Prop :=
  pending s = empty_database /\ inactive s = false.

(** The second run takes the step the first run took and leaves its
    session, its count and its list of written rows as they were. *)
Definition follows (l2 : Locals) (r1 r2 : iter_result) : Prop :=
  same_step r1 r2
  /\ agree (locals_of r1) (locals_of r2)
  /\ session (locals_of r2) = session l2
  /\ total_records (locals_of r2) = total_records l2
  /\ added (trace (locals_of r2)) = added (trace l2).

(** The markets [fetch_and_store_markets] counts. *)
Definition countable (m : Market.t) : bool :=
  Market.active m
  && negb (currency_names_too_long (Market.base m) (Market.quote m)).

(* ------------------------------------------------------------------ *)
(** ** Worked runs: a database with one symbol and a few gateways *)

Definition binance : Exchange.t := Exchange.mk 1%nat "binance" BINANCE "UTC".
Definition btc_usdt : Symbol.t :=
  Symbol.mk 2%nat 1%nat "BTC/USDT" "BTC" "USDT" true None None None None None None.
Definition db_btc : Database := mkDatabase [binance] [btc_usdt] [].

Definition flat (ts : Z) : candle :=
  Candle ts (PyNum "1.0") (PyNum "2.0") (PyNum "0.5") (PyNum "1.5")
    (PyNum "10.0").

Definition always (_ : commit_site) : bool := true.

Definition scenario : World :=
  mkWorld [FetchReturns [flat 0; flat 1]; FetchRaises;
           FetchReturns [flat 2; flat 3]; FetchReturns []] always 0 1000.

Definition honest : World :=
  mkWorld [FetchReturns [flat 0; flat 1]; FetchReturns [flat 2; flat 3];
           FetchReturns []] always 50 1000.

(** 2020-01-01T00:00:00Z, in milliseconds. *)
Definition new_year_2020 : Z := 1577836800000.

Definition one_candle : World :=
  mkWorld [FetchReturns [flat new_year_2020]; FetchReturns []] always 0 1000.

Definition ten_pages : list fetch_result :=
  map (fun k => FetchReturns [flat (Z.of_nat k)]) (seq 1 10)
  ++ [FetchReturns []].

Definition tenth_commit_fails (site : commit_site) : bool :=
  match site with
  | Periodic 10 => false
  | _ => true
  end.

Definition flaky_store : World :=
  mkWorld ten_pages tenth_commit_fails 0 1000.

Definition steady_store : World := mkWorld ten_pages always 0 1000.

(** Ten pages, an eleventh a day later, and an empty page, with a store
    that raises at the commit after the tenth page. *)
Definition twelve_answers : list fetch_result :=
  map (fun k => FetchReturns [flat (Z.of_nat k)]) (seq 1 10)
  ++ [FetchReturns [flat 86400011]; FetchReturns []].

Definition failing_store : World :=
  mkWorld twelve_answers tenth_commit_fails 0 1000.

Definition final_commit_fails (site : commit_site) : bool :=
  match site with
  | Final => false
  | _ => true
  end.

Definition broken_store : World :=
  mkWorld [FetchReturns [flat 0; flat 1]; FetchReturns []]
    final_commit_fails 0 1000.




(** The locals after a first page with the candles 0 and 1: two rows
    staged, none committed. *)
Definition staged_locals : Locals :=
  Eval vm_compute in
    locals_of
      (iteration 10 scenario btc_usdt "1h" None
         (FetchReturns [flat 0; flat 1])
         (initial_locals 0 (session_maker db_btc))).

Definition eth_inactive : Market.t :=
  Market.mk false "ETH/USDT" "ETH" "USDT" None None None None None None.

(** A market whose base currency has four characters and twelve bytes. *)
Definition four_characters : Market.t :=
  Market.mk true "币安人生/USDT" "币安人生" "USDT" None None None None None
    None.

Definition three_markets : list Market.t :=
  [Market.mk true "BTC/USDT" "BTC" "USDT" None None None None None None;
   Market.mk true "LONG/USDT" "ABCDEFGHIJK" "USDT" None None None None None
     None;
   eth_inactive].

Definition first_run : outcome :=
  continuous_backfill_ohlcv scenario db_btc "binance" "BTC/USDT" "1h" 0 None.

Definition scenario_db : Database :=
  Eval vm_compute in
    match first_run with
    | Returned _ _ _ db _ => db
    | _ => empty_database
    end.

Ltac concrete_forall :=
  repeat first
    [ apply Forall_nil | apply Forall_cons | split | discriminate
    | reflexivity
    | progress (match goal with
                | |- Forall ?P ?l =>
                    let l' := eval vm_compute in l in change (Forall P l')
                end)
    | progress hnf ].

(* ------------------------------------------------------------------ *)
(** ** The rest of the ingestion path *)

(** [ExchangeType.value] *)
Definition ExchangeType_value (t : ExchangeType) : string :=
  match t with
  | BINANCE => "binance" | COINBASE => "coinbase" | KRAKEN => "kraken"
  | KUCOIN => "kucoin" | BYBIT => "bybit" | OTHER => "other"
  end.

(** [subtract_interval_from_timestamp] (lines 142-157); an argument left
    out in a call is 0. *)
Definition subtract_interval_from_timestamp
    (timestamp seconds minutes hours days : Z) : Z :=
  let total_seconds := seconds + minutes * 60 + hours * 3600 + days * 86400 in
  timestamp - total_seconds.

(** [interval_mapping] (lines 300-309): [dict.get], [None] on a missing
    key. *)
Definition interval_mapping (interval : string) : option string :=
  if String.eqb interval "1s" then Some "seconds"
  else if String.eqb interval "1m" then Some "minutes"
  else if String.eqb interval "1h" then Some "hours"
  else if String.eqb interval "1d" then Some "days"
  else None.

(** The [for ohlcv in ohlcv_data] loop of [fetch_and_store_ohlcv] (lines
    345-368): [None] when a statement of the loop raises. *)
Fixpoint store_candles (db_symbol : Symbol.t) (timeframe : string)
    (ohlcv_data : list candle) (session : Session) (records_processed : nat)
    : option (Session * nat) :=
  match ohlcv_data with
  | [] => Some (session, records_processed)
  | Ragged _ :: _ => None
  | Candle timestamp open_price high low close volume :: rest =>
      match TimeFrame_of_value timeframe with
      | None => None
      | Some tf =>
          if fromtimestamp_ok timestamp then
            match query_ohlcv session (Symbol.id db_symbol) tf timestamp with
            | Some _ =>
                store_candles db_symbol timeframe rest session
                  records_processed
            | None =>
                match new_OHLCV db_symbol tf timestamp
                        open_price high low close volume with
                | None => None
                | Some ohlcv_record =>
                    store_candles db_symbol timeframe rest
                      (add_ohlcv session ohlcv_record) (S records_processed)
                end
            end
          else None
      end
  end.

(** How a call of [fetch_and_store_ohlcv] ends, and the database the
    session context leaves: [(0, None)] on an empty page,
    [(records_processed, new_timestamp)] otherwise, or an exception. *)
Inductive page_outcome :=
| PageEmpty (db : Database)
| PageStored (records_processed : nat) (new_timestamp : Z) (db : Database)
| PageRaises (db : Database).

(** [fetch_and_store_ohlcv] (lines 311-375) against database [db], for a
    gateway that answers the call with [answer] and a store whose commit
    on leaving the session goes through or not.  An exception inside the
    [with] block makes [get_session] roll the transaction back. *)
Definition fetch_and_store_ohlcv (answer : fetch_result) (commit_ok : bool)
    (db : Database) (exchange_name symbol timeframe : string) : page_outcome :=
  let opened := session_maker db in
  match _get_db_symbol opened exchange_name symbol with
  | None => PageRaises (committed (rollback opened))
  | Some db_symbol =>
      match answer with
      | FetchRaises => PageRaises (committed (rollback opened))
      | FetchReturns [] =>
          if commit_ok then PageEmpty (committed (commit opened))
          else PageRaises (committed (rollback opened))
      | FetchReturns (c0 :: cs) =>
          let new_timestamp := item0 (last cs c0) + 1 in
          match store_candles db_symbol timeframe (c0 :: cs) opened 0 with
          | None => PageRaises (committed (rollback opened))
          | Some (stored, records_processed) =>
              if commit_ok then
                PageStored records_processed new_timestamp
                  (committed (commit stored))
              else PageRaises (committed (rollback stored))
          end
      end
  end.

(** How [backfill_ohlcv_data] of main.py ends: the total it prints, the
    database, and the cursors it handed to [fetch_and_store_ohlcv];
    [LoopUnfinished] when the gateway's answers ran out first. *)
Inductive manager_outcome :=
| LoopDone (total_records : nat) (db : Database) (cursors : list Z)
| LoopUnfinished (total_records : nat) (db : Database) (cursors : list Z).

(** The [while True] loop of [CryptoDataManager.backfill_ohlcv_data]
    (main.py, lines 130-149), fed for every turn the gateway's answer and
    whether the commit of that turn's session goes through. *)
Fixpoint backfill_ohlcv_data (turns : list (fetch_result * bool))
    (db : Database) (exchange_name symbol timeframe : string) (since : Z)
    (total_records : nat) (cursors : list Z) : manager_outcome :=
  match turns with
  | [] => LoopUnfinished total_records db cursors
  | (answer, commit_ok) :: rest =>
      match fetch_and_store_ohlcv answer commit_ok db exchange_name symbol
              timeframe with
      | PageRaises db' => LoopDone total_records db' (cursors ++ [since])
      | PageEmpty db' => LoopDone total_records db' (cursors ++ [since])
      | PageStored 0 _ db' => LoopDone total_records db' (cursors ++ [since])
      | PageStored (S n) new_timestamp db' =>
          backfill_ohlcv_data rest db' exchange_name symbol timeframe
            new_timestamp (total_records + S n) (cursors ++ [since])
      end
  end.

(** The dictionary [get_market_summary] of main.py (lines 152-189)
    returns when no query raises. *)
Record MarketSummary := mkSummary {
  summary_exchanges : nat;
  summary_total_symbols : nat;
  summary_active_symbols : nat;
  summary_ohlcv_records : nat;
  summary_latest_data : option Z
}.

(** [order_by(OHLCV.timestamp.desc()).first()], then its [timestamp]. *)
Definition latest_timestamp (rows : list OHLCV.t) : option Z :=
  match rows with
  | [] => None
  | r :: rest => Some (py_max (OHLCV.timestamp r) (map OHLCV.timestamp rest))
  end.

Definition get_market_summary (db : Database) : MarketSummary :=
  mkSummary (List.length (exchanges db)) (List.length (symbols db))
    (List.length (filter Symbol.is_active (symbols db)))
    (List.length (ohlcv db)) (latest_timestamp (ohlcv db)).

(** The natural keys of the tables: the columns of the unique constraints
    of [Symbol], and the columns the existence check of a candle reads. *)
Definition symbol_key (y : Symbol.t) : uuid * string :=
  (Symbol.exchange_id y, Symbol.symbol y).

Definition row_identity (r : OHLCV.t) : uuid * TimeFrame * Z :=
  (OHLCV.symbol_id r, OHLCV.timeframe r, OHLCV.timestamp r).

(** The rows a trace wrote come from the candles the gateway served. *)
Definition served_as (db_symbol : Symbol.t) (timeframe : string)
    (G : list candle) (r : OHLCV.t) : Prop :=
  exists tf ts o h l c v,
    TimeFrame_of_value timeframe = Some tf
    /\ In (Candle ts o h l c v) G
    /\ new_OHLCV db_symbol tf ts o h l c v = Some r.

(** The recovery branch ran. *)
Definition recovered (tr : list effect) : Prop :=
  exists k, In (ELogError k) tr.

(** The database a call of [fetch_and_store_ohlcv] leaves. *)
Definition page_database (o : page_outcome) : Database :=
  match o with
  | PageEmpty db => db
  | PageStored _ _ db => db
  | PageRaises db => db
  end.

Definition loop_total (o : manager_outcome) : nat :=
  match o with LoopDone n _ _ => n | LoopUnfinished n _ _ => n end.

Definition loop_database (o : manager_outcome) : Database :=
  match o with LoopDone _ db _ => db | LoopUnfinished _ db _ => db end.

Definition loop_cursors (o : manager_outcome) : list Z :=
  match o with LoopDone _ _ c => c | LoopUnfinished _ _ c => c end.

(* ------------------------------------------------------------------ *)
(** ** Worked runs of the page calls *)

Definition two_candles : list candle := [flat 0; flat 1].

Definition page_run : page_outcome :=
  fetch_and_store_ohlcv (FetchReturns two_candles) true db_btc "binance"
    "BTC/USDT" "1h".

Definition page_db : Database :=
  Eval vm_compute in page_database page_run.

Definition one_page : World :=
  mkWorld [FetchReturns two_candles; FetchReturns []] always 0 1000.

(** A gateway that would still have a candle after its empty page. *)
Definition chatty : World :=
  mkWorld [FetchReturns two_candles; FetchReturns []; FetchReturns [flat 5]]
    always 0 1000.

Definition btc_market : Market.t :=
  Market.mk true "BTC/USDT" "BTC" "USDT" None None None None None None.

Functional Scheme process_candles_ind :=
  Induction for process_candles Sort Prop.

(* ------------------------------------------------------------------ *)
(** ** Properties *)

(** *** Traces, and the store a trace tells *)

Lemma added_app tr1 tr2 : added (tr1 ++ tr2) = added tr1 ++ added tr2.
Proof. apply flat_map_app. Qed.
Lemma observed_app tr1 tr2 :
  observed (tr1 ++ tr2) = observed tr1 ++ observed tr2.
Proof. apply flat_map_app. Qed.
Lemma fetched_app tr1 tr2 : fetched (tr1 ++ tr2) = fetched tr1 ++ fetched tr2.
Proof. apply flat_map_app. Qed.

Lemma new_OHLCV_timestamp sym tf ts o h l c v r :
  new_OHLCV sym tf ts o h l c v = Some r ->
  OHLCV.timestamp r = ts /\ OHLCV.symbol_id r = Symbol.id sym
  /\ OHLCV.timeframe r = tf /\ OHLCV.exchange_id r = Symbol.exchange_id sym.
Proof.
  unfold new_OHLCV.
  destruct (to_Decimal o), (to_Decimal h), (to_Decimal l), (to_Decimal c),
    (to_Decimal v); intros H; inversion H; subst; cbn; auto.
Qed.

Lemma process_candles_summary sym tf e candles b :
  exists ext,
    b_trace (batch_of (process_candles sym tf e candles b)) = b_trace b ++ ext
    /\ Forall (candle_effect e) ext
    /\ b_session (batch_of (process_candles sym tf e candles b))
       = fold_left add_ohlcv (added ext) (b_session b)
    /\ b_timestamps (batch_of (process_candles sym tf e candles b))
       = b_timestamps b ++ observed ext
    /\ batch_records (batch_of (process_candles sym tf e candles b))
       = (batch_records b + List.length (added ext))%nat.
Proof.
  functional induction (process_candles sym tf e candles b); cbn [batch_of];
    try (exists []; rewrite !app_nil_r; cbn; repeat split; auto; fail).
  - destruct IHf as (ext & Ht & Hf & Hs & Hts & Hn). simpl_batch.
    exists (ELookup (Symbol.id sym) tf0 timestamp true :: ext).
    rewrite Ht, Hs, Hts, Hn. rewrite <- !app_assoc. cbn.
    repeat split; auto.
    constructor; auto. exists timestamp. cbn. auto.
  - destruct IHf as (ext & Ht & Hf & Hs & Hts & Hn). simpl_batch.
    match goal with H : new_OHLCV _ _ _ _ _ _ _ _ = Some _ |- _ =>
      destruct (new_OHLCV_timestamp _ _ _ _ _ _ _ _ _ H) as (Hr & _) end.
    exists (ELookup (Symbol.id sym) tf0 timestamp false :: EAdd ohlcv_record :: ext).
    rewrite Ht, Hs, Hts, Hn. rewrite <- !app_assoc. cbn.
    rewrite Hr.
    repeat split; auto; try lia.
    constructor. { exists timestamp. cbn. auto. }
    constructor; auto. exists timestamp. cbn. rewrite Hr. auto.
  - exists [ELookup (Symbol.id sym) tf0 timestamp false]. cbn.
    rewrite !app_nil_r. repeat split; auto.
    constructor; auto. exists timestamp. cbn. auto.
Qed.

Lemma replay_app a b cp : replay (a ++ b) cp = replay b (replay a cp).
Proof. apply fold_left_app. Qed.

Lemma candle_effect_loop e x : candle_effect e x -> loop_effect e x.
Proof.
  intros (ts & Hts & Hr). destruct x; cbn in Hts; try discriminate;
    (split; [discriminate|split; [|discriminate]]);
    intros ts' H'; cbn in H'; congruence.
Qed.

Lemma replay_candle_effects e ext cp :
  Forall (candle_effect e) ext -> replay ext cp = (fst cp, snd cp ++ added ext).
Proof.
  intros H. revert cp. induction H as [|x ext Hx _ IH]; intros [c p]; cbn.
  - now rewrite app_nil_r.
  - destruct Hx as (ts & Hts & _).
    destruct x; cbn in Hts; try discriminate; cbn; unfold replay in IH;
      rewrite IH; cbn; auto.
    now rewrite <- app_assoc.
Qed.

Lemma fold_add_rows rows s :
  fold_left add_ohlcv rows s
  = mkSession (committed s)
      (mkDatabase (exchanges (pending s)) (symbols (pending s))
                  (ohlcv (pending s) ++ rows))
      (inactive s).
Proof.
  revert s. induction rows as [|r rows IH]; intros s; cbn.
  - rewrite app_nil_r. now destruct s as [c [? ? ?] i].
  - rewrite IH. cbn. now rewrite <- app_assoc.
Qed.

Lemma audited_app cp a b :
  audited cp (a ++ b) <-> audited cp a /\ audited (replay a cp) b.
Proof.
  revert cp. induction a as [|x a IH]; intros cp; cbn [app audited replay
    fold_left].
  - tauto.
  - unfold replay in IH. rewrite IH. tauto.
Qed.

Lemma evolves_refl e l : evolves e l l [].
Proof.
  constructor; cbn; rewrite ?app_nil_r; auto.
Qed.

Lemma evolves_trans [e l1 l2 l3 x y] :
  evolves e l1 l2 x -> evolves e l2 l3 y -> evolves e l1 l3 (x ++ y).
Proof.
  intros [A1 A2 A3 A4 A5 A7 A6] [B1 B2 B3 B4 B5 B7 B6]. constructor.
  - rewrite B1, A1. now rewrite app_assoc.
  - apply Forall_app; auto.
  - rewrite B3, A3, observed_app. now rewrite app_assoc.
  - rewrite B4, A4. now rewrite replay_app.
  - intros H. destruct (B5 H) as [C F]. destruct (A5 C) as [C' F'].
    split; [exact C'|]. apply Forall_app; auto.
  - apply audited_app. split; [exact A7|]. now rewrite <- A4.
  - intros H. destruct (A6 H) as (C & E1 & E2).
    destruct (B6 C) as (C' & F1 & F2). repeat split; try apply C'; congruence.
Qed.

Lemma quiet_evolves e x l s bc tot :
  quiet x ->
  evolves e l
    (mkLocals s (session l) tot (all_timestamps l) bc (trace l ++ [x])) [x].
Proof.
  intros Hq. constructor; cbn [trace all_timestamps session].
  - reflexivity.
  - constructor; [|constructor].
    destruct x; cbn in Hq; try contradiction;
      (split; [discriminate|split]); discriminate.
  - destruct x; cbn in Hq; try contradiction; cbn; now rewrite app_nil_r.
  - destruct x; cbn in Hq; try contradiction; cbn; now destruct (session l).
  - intros H. split; [exact H|]. constructor; [|constructor].
    destruct x; cbn in Hq; try contradiction; exact I.
  - destruct x; cbn in Hq; try contradiction; cbn; auto.
  - auto.
Qed.

Lemma evolves_relabel e l l' ext s bc tot :
  evolves e l l' ext ->
  evolves e l
    (mkLocals s (session l') tot (all_timestamps l') bc (trace l')) ext.
Proof. intros [A B C D E F G]. constructor; auto. Qed.

Lemma except_branch_evolves e l :
  evolves e l (locals_of (except_branch l)) [ELogError (batch_count l)].
Proof. unfold except_branch. cbn [locals_of]. now apply quiet_evolves. Qed.

Lemma respect_rate_limit_evolves e w l :
  exists ext,
    evolves e l (locals_of (respect_rate_limit w l)) ext /\ fetched ext = [].
Proof.
  unfold respect_rate_limit.
  destruct (rateLimit w =? 0).
  - exists []. split; [apply evolves_refl|reflexivity].
  - destruct (rateLimit w <? 0).
    + eexists. split; [apply except_branch_evolves|reflexivity].
    + eexists. cbn [locals_of]. unfold log.
      split; [now apply quiet_evolves|reflexivity].
Qed.

Lemma commit_evolves e l k :
  inactive (session l) = false ->
  evolves e l
    (mkLocals (since l) (commit (session l)) (total_records l)
       (all_timestamps l) (batch_count l)
       (trace l ++ [ECommit (Periodic k) (pending_rows (session l)) true]))
    [ECommit (Periodic k) (pending_rows (session l)) true].
Proof.
  intros Ha. constructor; cbn [trace all_timestamps session].
  - reflexivity.
  - constructor; [|constructor]. split; [discriminate|split].
    + discriminate.
    + intros ? ? ? H; inversion H; eauto.
  - cbn. now rewrite app_nil_r.
  - reflexivity.
  - intros _. split; [exact Ha|]. repeat constructor.
  - cbn. auto.
  - intros [H1 H2]. unfold clean. cbn. unfold visible_exchanges, visible_symbols.
    rewrite H1, H2, !app_nil_r. auto.
Qed.

Lemma fail_commit_evolves e l k :
  evolves e l
    (mkLocals (since l) (fail_commit (session l)) (total_records l)
       (all_timestamps l) (batch_count l)
       (trace l ++ [ECommit (Periodic k) (pending_rows (session l)) false]))
    [ECommit (Periodic k) (pending_rows (session l)) false].
Proof.
  constructor; cbn [trace all_timestamps session].
  - reflexivity.
  - constructor; [|constructor]. split; [discriminate|split].
    + discriminate.
    + intros ? ? ? H; inversion H; eauto.
  - cbn. now rewrite app_nil_r.
  - reflexivity.
  - cbn. discriminate.
  - cbn. auto.
  - intros _. unfold clean. cbn. auto.
Qed.

Lemma can_commit_spec w site s :
  can_commit w site s = true
  <-> inactive s = false /\ commit_succeeds w site = true.
Proof.
  unfold can_commit. rewrite andb_true_iff, negb_true_iff. reflexivity.
Qed.

Lemma commit_batch_evolves e N w l :
  exists ext,
    evolves e l (locals_of (commit_batch N w l)) ext /\ fetched ext = [].
Proof.
  unfold commit_batch.
  destruct (batch_count l mod N =? 0)%nat.
  - destruct (can_commit w (Periodic (batch_count l)) (session l)) eqn:Hc.
    + apply can_commit_spec in Hc. destruct Hc as [Ha _].
      destruct (respect_rate_limit_evolves e w
                  (mkLocals (since l) (commit (session l)) (total_records l)
                     (all_timestamps l) (batch_count l)
                     (trace l ++ [ECommit (Periodic (batch_count l))
                                    (pending_rows (session l)) true])))
        as (ext & H & Hf).
      eexists. split.
      * eapply evolves_trans; [now apply commit_evolves|exact H].
      * cbn. exact Hf.
    + eexists. split.
      * eapply evolves_trans; [apply fail_commit_evolves|].
        apply except_branch_evolves.
      * reflexivity.
  - apply respect_rate_limit_evolves.
Qed.

Lemma candle_effects_not_fetch [e ext] :
  Forall (candle_effect e) ext -> fetched ext = [] /\ commits ext = [].
Proof.
  induction 1 as [|x ext (ts & Hts & _) _ [IH1 IH2]]; [split; reflexivity|].
  destruct x; cbn in Hts; try discriminate; cbn; auto.
Qed.

Lemma candle_effects_audited e ext cp :
  Forall (candle_effect e) ext -> audited cp ext.
Proof.
  intros H. revert cp. induction H as [|x ext (ts & Hx & _) _ IH]; intros cp;
    cbn [audited]; [exact I|].
  split; [|apply IH]. destruct x; try exact I. cbn in Hx. discriminate.
Qed.

Lemma process_candles_evolves sym tf e candles l s bc tot :
  exists ext,
    evolves e l
      (mkLocals s
         (b_session (batch_of (process_candles sym tf e candles
            (mkBatch (session l) 0 (all_timestamps l) (trace l)))))
         tot
         (b_timestamps (batch_of (process_candles sym tf e candles
            (mkBatch (session l) 0 (all_timestamps l) (trace l)))))
         bc
         (b_trace (batch_of (process_candles sym tf e candles
            (mkBatch (session l) 0 (all_timestamps l) (trace l)))))) ext
    /\ Forall (candle_effect e) ext
    /\ batch_records (batch_of (process_candles sym tf e candles
            (mkBatch (session l) 0 (all_timestamps l) (trace l))))
       = List.length (added ext).
Proof.
  destruct (process_candles_summary sym tf e candles
              (mkBatch (session l) 0 (all_timestamps l) (trace l)))
    as (ext & Ht & Hf & Hs & Hts & Hn).
  simpl_batch. exists ext. split; [|split; auto].
  constructor; cbn [trace all_timestamps session]; auto.
  - eapply Forall_impl; [|exact Hf]. intros; now eapply candle_effect_loop.
  - rewrite Hs, fold_add_rows. unfold session_rows. cbn.
    erewrite replay_candle_effects by exact Hf. reflexivity.
  - rewrite Hs, fold_add_rows. cbn. intros H. split; [exact H|].
    eapply Forall_impl; [|exact Hf]. intros x (ts & Hx & _).
    destruct x; try exact I. cbn in Hx. discriminate.
  - apply candle_effects_audited with (e := e). exact Hf.
  - rewrite Hs, fold_add_rows. unfold clean. cbn. auto.
Qed.

Lemma iteration_evolves N w sym tf e r l :
  exists ext,
    evolves e l (locals_of (iteration N w sym tf e r l))
      (EFetch (since l) r :: ext)
    /\ fetched ext = [].
Proof.
  assert (H0 : evolves e l (log (EFetch (since l) r) l) [EFetch (since l) r])
    by (unfold log; now apply quiet_evolves).
  unfold iteration.
  set (l0 := log (EFetch (since l) r) l) in *.
  destruct r as [|[|c0 cs]].
  - exists [ELogError (batch_count l0)]. split; [|reflexivity].
    apply (evolves_trans (y := [ELogError (batch_count l0)]) H0).
    apply except_branch_evolves.
  - exists []. split; [exact H0|reflexivity].
  - destruct (reached e (item0 c0)).
    + exists []. split; [exact H0|reflexivity].
    + destruct (process_candles_evolves sym tf e (c0 :: cs) l0
                  (since l0) (S (batch_count l0)) (total_records l0))
        as (ext & Hev & Hce & _).
      destruct (candle_effects_not_fetch Hce) as [Hnf _].
      destruct (process_candles sym tf e (c0 :: cs)
                  (mkBatch (session l0) 0 (all_timestamps l0) (trace l0)))
        as [b|b]; simpl_batch.
      * match goal with |- context [commit_batch N w ?x] =>
          destruct (commit_batch_evolves e N w x) as (ext2 & Hev2 & Hnf2) end.
        exists (ext ++ ext2). split.
        -- apply (evolves_trans (y := ext ++ ext2) H0).
           eapply evolves_trans; [|exact Hev2].
           eapply evolves_relabel in Hev. exact Hev.
        -- rewrite fetched_app, Hnf, Hnf2. reflexivity.
      * exists (ext ++ [ELogError (S (batch_count l0))]). split.
        -- apply (evolves_trans (y := ext ++ [ELogError (S (batch_count l0))]) H0).
           eapply evolves_trans; [exact Hev|].
           apply (except_branch_evolves e
                    (mkLocals (since l0) (b_session b) (total_records l0)
                       (b_timestamps b) (S (batch_count l0)) (b_trace b))).
        -- rewrite fetched_app, Hnf. reflexivity.
Qed.

Lemma while_true_evolves N w sym tf e answers l :
  exists ext,
    evolves e l (loop_locals (while_true N w sym tf e answers l)) ext.
Proof.
  revert l. induction answers as [|r rest IH]; intros l; cbn [while_true].
  - exists []. apply evolves_refl.
  - destruct (iteration_evolves N w sym tf e r l) as (ext & Hev & _).
    destruct (iteration N w sym tf e r l) as [l'|l'|l']; cbn [locals_of] in Hev.
    + eexists. exact Hev.
    + destruct (IH l') as (ext2 & Hev2). eexists.
      eapply evolves_trans; eassumption.
    + destruct (IH l') as (ext2 & Hev2). eexists.
      eapply evolves_trans; eassumption.
Qed.

(** What every run leaves behind: the tables of exchanges and symbols as
    they were, and the candle table the trace tells. *)
Lemma backfill_store N w db ex sym tf start e :
  let o := backfill N w db ex sym tf start e in
  Forall (effect_in_range e) (outcome_trace o)
  /\ match o with
     | Returned _ _ _ db' tr | Raises db' tr =>
         exchanges db' = exchanges db /\ symbols db' = symbols db
         /\ replay tr (ohlcv db, []) = (ohlcv db', [])
     | Unfinished _ => True
     end.
Proof.
  unfold backfill.
  destruct (_get_db_symbol (session_maker db) ex sym) as [y|].
  2:{ cbn. split; [|now destruct db].
      constructor; [|constructor]. intros ts H; discriminate. }
  destruct (while_true_evolves N w y tf e (responses w)
              (initial_locals start (session_maker db))) as (ext & Hev).
  destruct (while_true N w y tf e (responses w)
              (initial_locals start (session_maker db))) as [l|l];
    cbn [loop_locals] in Hev; destruct Hev as [Ht Hf _ Hr _ _ Hc];
    cbn [initial_locals trace session app] in Ht, Hr, Hc.
  2:{ cbn. split; auto. rewrite Ht.
      eapply Forall_impl; [|exact Hf]. intros a (_ & H & _). exact H. }
  assert (Hrange : Forall (effect_in_range e) (trace l)).
  { rewrite Ht. eapply Forall_impl; [|exact Hf]. intros a (_ & H & _). exact H. }
  destruct Hc as ((Hc1 & Hc2) & He & Hs); [split; reflexivity|].
  cbn in He, Hs. unfold session_rows in Hr. cbn [session_maker committed pending
    ohlcv empty_database] in Hr.
  assert (Hq : forall site rows ok, effect_in_range e (ECommit site rows ok))
    by (intros; intros ts H; discriminate).
  assert (Hb : effect_in_range e ERollback) by (intros ts H; discriminate).
  destruct (can_commit w Final (session l)).
  - destruct (actual_range w (all_timestamps l)) as [a b].
    cbn [can_commit commit inactive negb andb].
    destruct (commit_succeeds w SessionExit); cbn [outcome_trace].
    + split. { rewrite !Forall_app. repeat split; auto. }
      cbn. unfold visible_exchanges, visible_symbols, visible_ohlcv. cbn.
      rewrite Hc1, Hc2, !app_nil_r. repeat split; auto.
      rewrite <- Ht in Hr. rewrite !replay_app, <- Hr. cbn.
      now rewrite app_nil_r.
    + split. { rewrite !Forall_app. repeat split; auto. }
      cbn. unfold visible_exchanges, visible_symbols, visible_ohlcv.
      rewrite Hc1, Hc2, !app_nil_r. repeat split; auto.
      rewrite <- Ht in Hr. rewrite !replay_app, <- Hr. cbn. reflexivity.
  - cbn [outcome_trace]. split. { rewrite !Forall_app. repeat split; auto. }
    cbn. repeat split; auto.
    rewrite <- Ht in Hr. rewrite !replay_app, <- Hr. cbn. reflexivity.
Qed.

(** *** The observed range *)

Lemma py_min_spec xs x :
  In (py_min x xs) (x :: xs) /\ forall t, In t (x :: xs) -> py_min x xs <= t.
Proof.
  unfold py_min. revert x. induction xs as [|y ys IH]; intros x; cbn [fold_left].
  - split; [now left|]. intros t [<-|[]]. lia.
  - destruct (IH (Z.min x y)) as [Hin Hle]. split.
    + destruct Hin as [Heq|Hin]; [|right; right; exact Hin].
      rewrite <- Heq. destruct (Z.min_spec x y) as [[_ ->]|[_ ->]];
        [left|right; left]; reflexivity.
    + intros t Ht. pose proof (Hle (Z.min x y) (or_introl eq_refl)) as H0.
      destruct Ht as [<-|[<-|Ht]]; [lia|lia|].
      apply Hle. now right.
Qed.

Lemma py_max_spec xs x :
  In (py_max x xs) (x :: xs) /\ forall t, In t (x :: xs) -> t <= py_max x xs.
Proof.
  unfold py_max. revert x. induction xs as [|y ys IH]; intros x; cbn [fold_left].
  - split; [now left|]. intros t [<-|[]]. lia.
  - destruct (IH (Z.max x y)) as [Hin Hle]. split.
    + destruct Hin as [Heq|Hin]; [|right; right; exact Hin].
      rewrite <- Heq. destruct (Z.max_spec x y) as [[_ ->]|[_ ->]];
        [right; left|left]; reflexivity.
    + intros t Ht. pose proof (Hle (Z.max x y) (or_introl eq_refl)) as H0.
      destruct Ht as [<-|[<-|Ht]]; [lia|lia|].
      apply Hle. now right.
Qed.

Lemma returned_inv N w db ex sym tf start e n a b db' tr :
  backfill N w db ex sym tf start e = Returned n a b db' tr ->
  exists y l,
    _get_db_symbol (session_maker db) ex sym = Some y
    /\ while_true N w y tf e (responses w)
         (initial_locals start (session_maker db)) = LoopExit l
    /\ commit_succeeds w Final = true
    /\ commit_succeeds w SessionExit = true
    /\ n = total_records l
    /\ (a, b) = actual_range w (all_timestamps l)
    /\ db' = committed (commit (commit (session l)))
    /\ tr = (trace l ++ [ECommit Final (pending_rows (session l)) true])
            ++ [ECommit SessionExit 0 true].
Proof.
  unfold backfill.
  destruct (_get_db_symbol (session_maker db) ex sym) as [y|]; [|discriminate].
  destruct (while_true N w y tf e (responses w)
              (initial_locals start (session_maker db))) as [l|l] eqn:Hl;
    [|discriminate].
  destruct (can_commit w Final (session l)) eqn:Hc; [|discriminate].
  apply can_commit_spec in Hc. destruct Hc as [_ Hc].
  destruct (actual_range w (all_timestamps l)) as [a' b'] eqn:Hab.
  cbn [can_commit commit inactive negb andb].
  destruct (commit_succeeds w SessionExit); [|discriminate].
  intros H; inversion H; subst. exists y, l. repeat split; auto.
Qed.

(** A run that returns has had an active session to the end: no commit
    of its loop raised. *)
Lemma returned_active N w db ex sym tf start e n a b db' tr y l :
  backfill N w db ex sym tf start e = Returned n a b db' tr ->
  _get_db_symbol (session_maker db) ex sym = Some y ->
  while_true N w y tf e (responses w)
    (initial_locals start (session_maker db)) = LoopExit l ->
  inactive (session l) = false.
Proof.
  unfold backfill. intros H Hy Hl. rewrite Hy, Hl in H.
  destruct (can_commit w Final (session l)) eqn:Hc; [|discriminate].
  now apply can_commit_spec in Hc.
Qed.

Lemma loop_observed N w sym tf e answers l :
  all_timestamps l = observed (trace l) ->
  all_timestamps (loop_locals (while_true N w sym tf e answers l))
  = observed (trace (loop_locals (while_true N w sym tf e answers l))).
Proof.
  intros H. destruct (while_true_evolves N w sym tf e answers l) as (ext & Hev).
  destruct Hev as [Ht _ Hts _ _ _ _]. rewrite Hts, Ht, observed_app. congruence.
Qed.

(** C6 (range accuracy).  When [continuous_backfill_ohlcv] returns, the
    [actual_start] and [actual_end] it returns are the least and the
    greatest timestamp among the candles the run observed, those found in
    the store already as well as those it wrote; when it observed none,
    both are the time at which the run finished. *)
Theorem range_accuracy w db ex sym tf start e n a b db' tr :
  continuous_backfill_ohlcv w db ex sym tf start e = Returned n a b db' tr ->
  (observed tr = [] -> a = now w /\ b = now w)
  /\ (observed tr <> [] ->
      In a (observed tr) /\ In b (observed tr)
      /\ forall t, In t (observed tr) -> a <= t <= b).
Proof.
  intros H. apply returned_inv in H.
  destruct H as (y & l & _ & Hl & _ & _ & _ & Hab & _ & ->).
  pose proof (loop_observed 10 w y tf e (responses w)
                (initial_locals start (session_maker db)) eq_refl) as Ho.
  rewrite Hl in Ho. cbn [loop_locals] in Ho.
  rewrite !observed_app. cbn [observed flat_map]. rewrite !app_nil_r.
  rewrite <- Ho. unfold actual_range in Hab.
  destruct (all_timestamps l) as [|t ts].
  - inversion Hab. split; [auto|]. intros Hne. now contradiction Hne.
  - inversion Hab; subst. split; [discriminate|]. intros _.
    destruct (py_min_spec ts t) as [Hi Hm], (py_max_spec ts t) as [Hj Hn].
    repeat split; auto.
Qed.

(** *** The cursor *)

Lemma respect_rate_limit_cursor w l :
  match respect_rate_limit w l with
  | Break _ => False
  | Continue l' => since l' = since l /\ batch_count l' = batch_count l
  | Recover l' => since l' = since l + 86400000
                  /\ batch_count l' = batch_count l
  end.
Proof.
  unfold respect_rate_limit.
  destruct (rateLimit w =? 0); [cbn; auto|].
  destruct (rateLimit w <? 0); cbn; auto.
Qed.

Lemma commit_batch_cursor N w l :
  match commit_batch N w l with
  | Break _ => False
  | Continue l' => since l' = since l /\ batch_count l' = batch_count l
  | Recover l' => since l' = since l + 86400000
                  /\ batch_count l' = batch_count l
  end.
Proof.
  unfold commit_batch.
  destruct (batch_count l mod N =? 0)%nat;
    [destruct (can_commit w (Periodic (batch_count l)) (session l)) eqn:Hcan|].
  - match goal with |- context [respect_rate_limit w ?x] =>
      pose proof (respect_rate_limit_cursor w x) as H;
      destruct (respect_rate_limit w x) end; exact H.
  - cbn. auto.
  - apply respect_rate_limit_cursor.
Qed.

Lemma iteration_cursor N w sym tf e r l :
  match iteration N w sym tf e r l with
  | Break l' =>
      since l' = since l
      /\ (r = FetchReturns []
          \/ exists c0 cs, r = FetchReturns (c0 :: cs)
                           /\ reached e (item0 c0) = true)
  | Continue l' =>
      exists c0 cs, r = FetchReturns (c0 :: cs)
                    /\ since l' = item0 (last cs c0) + 1
  | Recover l' =>
      since l' = since l + 86400000
      \/ exists c0 cs, r = FetchReturns (c0 :: cs)
                       /\ since l' = item0 (last cs c0) + 1 + 86400000
  end.
Proof.
  unfold iteration. destruct r as [|[|c0 cs]].
  - cbn. auto.
  - cbn. auto.
  - destruct (reached e (item0 c0)) eqn:Hr.
    + cbn. split; auto. right. eauto.
    + destruct (process_candles sym tf e (c0 :: cs) _) as [b|b].
      * match goal with |- context [commit_batch N w ?x] =>
          pose proof (commit_batch_cursor N w x) as H;
          destruct (commit_batch N w x) end; cbn [since] in H.
        -- contradiction.
        -- destruct H as [H _]. eauto.
        -- destruct H as [H _]. right. eauto.
      * cbn. auto.
Qed.

Lemma last_Forall (A : Type) (P : A -> Prop) (xs : list A) (x : A) :
  Forall P (x :: xs) -> P (last xs x).
Proof.
  intros H. inversion H as [|? ? Hx Hxs]; subst. clear H.
  induction Hxs as [|y ys Hy Hys IH]; [exact Hx|].
  cbn [last]. destruct ys; [exact Hy|exact IH].
Qed.

Lemma iteration_cursor_grows N w sym tf e r l :
  answers_from (since l) r ->
  match iteration N w sym tf e r l with
  | Break l' => since l' = since l
  | Continue l' => since l < since l'
  | Recover l' => since l < since l'
  end.
Proof.
  intros Ha. pose proof (iteration_cursor N w sym tf e r l) as H.
  destruct (iteration N w sym tf e r l).
  - tauto.
  - destruct H as (c0 & cs & -> & ->). cbn in Ha.
    apply last_Forall in Ha. lia.
  - destruct H as [->|(c0 & cs & -> & ->)]; [lia|]. cbn in Ha.
    apply last_Forall in Ha. lia.
Qed.

Lemma fetched_cons s r ext : fetched (EFetch s r :: ext) = s :: fetched ext.
Proof. reflexivity. Qed.

Lemma while_true_cursor N w sym tf e answers l :
  exists ext,
    trace (loop_locals (while_true N w sym tf e answers l)) = trace l ++ ext
    /\ (Forall honest_fetch ext ->
        StronglySorted Z.lt (fetched ext)
        /\ Forall (fun s => since l <= s) (fetched ext)).
Proof.
  revert l. induction answers as [|r rest IH]; intros l; cbn [while_true].
  - exists []. rewrite app_nil_r. split; auto. intros _. split; constructor.
  - destruct (iteration_evolves N w sym tf e r l) as (ext & [Ht _ _ _ _ _ _] & Hnf).
    pose proof (iteration_cursor_grows N w sym tf e r l) as Hc.
    destruct (iteration N w sym tf e r l) as [l'|l'|l']; cbn [locals_of] in Ht.
    + exists (EFetch (since l) r :: ext). split; auto. intros _.
      rewrite fetched_cons, Hnf. split; repeat constructor. lia.
    + destruct (IH l') as (ext2 & Ht2 & Hs).
      exists ((EFetch (since l) r :: ext) ++ ext2). split.
      { rewrite Ht2, Ht. now rewrite app_assoc. }
      intros Hh. apply Forall_app in Hh. destruct Hh as [Hh1 Hh2].
      inversion Hh1; subst. destruct (Hs Hh2) as [S1 S2].
      specialize (Hc H1). rewrite fetched_app, fetched_cons, Hnf.
      cbn [app]. split.
      * constructor; auto. eapply Forall_impl; [|exact S2]. cbn. intros; lia.
      * constructor; [lia|]. eapply Forall_impl; [|exact S2]. cbn. intros; lia.
    + destruct (IH l') as (ext2 & Ht2 & Hs).
      exists ((EFetch (since l) r :: ext) ++ ext2). split.
      { rewrite Ht2, Ht. now rewrite app_assoc. }
      intros Hh. apply Forall_app in Hh. destruct Hh as [Hh1 Hh2].
      inversion Hh1; subst. destruct (Hs Hh2) as [S1 S2].
      specialize (Hc H1). rewrite fetched_app, fetched_cons, Hnf.
      cbn [app]. split.
      * constructor; auto. eapply Forall_impl; [|exact S2]. cbn. intros; lia.
      * constructor; [lia|]. eapply Forall_impl; [|exact S2]. cbn. intros; lia.
Qed.

Lemma backfill_trace_inv N w db ex sym tf start e :
  (_get_db_symbol (session_maker db) ex sym = None
   /\ backfill N w db ex sym tf start e = Raises db [ERollback])
  \/ exists y l tail,
       _get_db_symbol (session_maker db) ex sym = Some y
       /\ loop_locals (while_true N w y tf e (responses w)
                         (initial_locals start (session_maker db))) = l
       /\ outcome_trace (backfill N w db ex sym tf start e) = trace l ++ tail
       /\ Forall (fun x => match x with
                           | ECommit Final _ _ | ECommit SessionExit _ _
                           | ERollback => True
                           | _ => False
                           end) tail.
Proof.
  unfold backfill.
  destruct (_get_db_symbol (session_maker db) ex sym) as [y|].
  2:{ left. split; reflexivity. }
  right. exists y.
  destruct (while_true N w y tf e (responses w)
              (initial_locals start (session_maker db))) as [l|l];
    cbn [loop_locals].
  2:{ exists l, []. rewrite app_nil_r. repeat split; auto. }
  exists l. destruct (can_commit w Final (session l)).
  - destruct (actual_range w (all_timestamps l)) as [a b].
    cbn [can_commit commit inactive negb andb].
    destruct (commit_succeeds w SessionExit); cbn [outcome_trace];
      rewrite <- app_assoc; eexists; repeat split; eauto;
        repeat constructor.
  - eexists; repeat split; eauto; repeat constructor.
Qed.

(** C3 (cursor monotonicity).  When the gateway answers a fetch with
    candles whose timestamps are at or after the requested [since], one
    turn of the loop that does not leave it moves the cursor strictly
    forward: after a page processed without error the cursor is the
    timestamp of the last candle of the whole page plus 1 ms, whatever
    part of the page the end bound cut off; on the recovery branch it is
    one day (86400000 ms) past the cursor the failing statement saw.  Over
    a whole run whose fetches are all answered so, the cursors handed to
    [fetch_ohlcv] form a strictly increasing sequence. *)
Theorem cursor_strictly_increasing :
  (forall N w sym tf e r l,
     answers_from (since l) r ->
     match iteration N w sym tf e r l with
     | Break _ => True
     | Continue l' =>
         since l < since l'
         /\ exists c0 cs, r = FetchReturns (c0 :: cs)
                          /\ since l' = item0 (last cs c0) + 1
     | Recover l' =>
         since l < since l'
         /\ (since l' = since l + 86400000
             \/ exists c0 cs, r = FetchReturns (c0 :: cs)
                  /\ since l' = item0 (last cs c0) + 1 + 86400000)
     end)
  /\ (forall w db ex sym tf start e,
        Forall honest_fetch
          (outcome_trace (continuous_backfill_ohlcv w db ex sym tf start e)) ->
        StronglySorted Z.lt
          (fetched
             (outcome_trace
                (continuous_backfill_ohlcv w db ex sym tf start e)))).
Proof.
  split.
  - intros N w sym tf e r l Ha.
    pose proof (iteration_cursor N w sym tf e r l) as H1.
    pose proof (iteration_cursor_grows N w sym tf e r l Ha) as H2.
    destruct (iteration N w sym tf e r l); auto.
  - intros w db ex sym tf start e. unfold continuous_backfill_ohlcv.
    destruct (backfill_trace_inv 10 w db ex sym tf start e)
      as [[_ ->]|(y & l & tail & _ & Hl & -> & Htail)].
    { intros _. cbn. constructor. }
    destruct (while_true_cursor 10 w y tf e (responses w)
                (initial_locals start (session_maker db))) as (ext & Ht & Hs).
    rewrite Hl in Ht. cbn [initial_locals trace app] in Ht. rewrite Ht.
    intros Hh. apply Forall_app in Hh. destruct Hh as [Hh _].
    rewrite fetched_app.
    assert (Hn : fetched tail = []).
    { clear -Htail. induction Htail as [|x tail Hx _ IH]; [reflexivity|].
      destruct x; try contradiction; cbn; auto. }
    rewrite Hn, app_nil_r. now apply Hs.
Qed.

(** *** What a turn of the loop keeps *)

Lemma replay_loop_effects e ext cp :
  Forall (loop_effect e) ext ->
  (exists more, fst (replay ext cp) = fst cp ++ more)
  /\ (Forall went_through ext ->
      fst (replay ext cp) ++ snd (replay ext cp)
      = (fst cp ++ snd cp) ++ added ext).
Proof.
  intros H. revert cp. induction H as [|x ext Hx _ IH]; intros [c p].
  - cbn. split; [exists []|intros _]; now rewrite app_nil_r.
  - unfold replay in *. cbn [fold_left].
    destruct (IH (replay_effect (c, p) x)) as ((more & Hm) & Hv).
    rewrite Hm. destruct Hx as (Hnr & _ & _). split.
    + destruct x; try (now contradiction Hnr); cbn [replay_effect fst];
        eauto.
      destruct ok; cbn [fst]; eauto.
      exists (p ++ more). now rewrite app_assoc.
    + intros Hw. inversion Hw as [|? ? Hwx Hwe]; subst.
      rewrite <- Hm, (Hv Hwe).
      destruct x; try (now contradiction Hnr); cbn [replay_effect fst snd
        added flat_map app]; try reflexivity.
      * now rewrite <- !app_assoc.
      * destruct ok; [|contradiction]. cbn [fst snd]. now rewrite app_nil_r.
Qed.

(** The rows a session sees come from the rows it saw and the rows added,
    also when a commit that raised has dropped some. *)
Lemma replay_incl tr cp :
  incl (fst (replay tr cp) ++ snd (replay tr cp))
       ((fst cp ++ snd cp) ++ added tr).
Proof.
  revert cp. induction tr as [|x tr IH]; intros [c p];
    cbn [replay fold_left].
  - cbn. rewrite app_nil_r. apply incl_refl.
  - eapply incl_tran; [apply IH|].
    change (x :: tr) with ([x] ++ tr). rewrite added_app.
    rewrite (app_assoc _ (added [x])). apply incl_app_app; [|apply incl_refl].
    destruct x; cbn [replay_effect fst snd added flat_map app];
      rewrite ?app_nil_r; try apply incl_refl.
    + rewrite app_assoc. apply incl_refl.
    + destruct ok; cbn [fst snd]; rewrite ?app_nil_r;
        [apply incl_refl|apply incl_appl, incl_refl].
    + apply incl_appl, incl_refl.
Qed.

Lemma evolves_rows [e l l' ext] :
  evolves e l l' ext ->
  (exists more, ohlcv (committed (session l'))
                = ohlcv (committed (session l)) ++ more)
  /\ (inactive (session l') = false ->
      visible_ohlcv (session l') = visible_ohlcv (session l) ++ added ext).
Proof.
  intros [_ Hf _ Hr Ha _ _].
  destruct (@replay_loop_effects e ext (session_rows (session l)) Hf)
    as [H1 H2].
  rewrite <- Hr in H1, H2. unfold session_rows in H1, H2. cbn [fst snd] in *.
  split; auto. intros Hi. apply H2. now apply Ha.
Qed.

Lemma evolves_incl [e l l' ext] :
  evolves e l l' ext ->
  incl (visible_ohlcv (session l'))
       (visible_ohlcv (session l) ++ added ext).
Proof.
  intros [_ _ _ Hr _ _ _].
  pose proof (replay_incl ext (session_rows (session l))) as H.
  rewrite <- Hr in H. exact H.
Qed.




(** *** The end bound and the exits of the loop *)

Lemma reached_spec e ts :
  reached e ts = true <-> exists b, e = Some b /\ b <> 0 /\ b <= ts.
Proof.
  unfold reached. destruct e as [b|].
  - rewrite andb_true_iff, negb_true_iff, Z.eqb_neq, Z.leb_le. split.
    + intros [H1 H2]. eauto.
    + intros (b' & Hb & H1 & H2). inversion Hb; subst. auto.
  - split; [discriminate|]. intros (b & Hb & _). discriminate.
Qed.

Lemma replay_rows tr cp r :
  In r (fst (replay tr cp)) \/ In r (snd (replay tr cp)) ->
  In r (fst cp) \/ In r (snd cp) \/ In r (added tr).
Proof.
  revert cp. induction tr as [|x tr IH]; intros [c p]; cbn [replay fold_left].
  - cbn. tauto.
  - intros H. apply IH in H.
    destruct x; cbn [replay_effect fst snd] in H; cbn [fst snd added flat_map];
      try tauto.
    + rewrite !in_app_iff in *. cbn in H. cbn. tauto.
    + destruct ok; cbn [fst snd] in H; rewrite ?in_app_iff in H;
        cbn in *; tauto.
    + cbn in H. tauto.
Qed.

Lemma added_in_range e tr r :
  Forall (effect_in_range e) tr -> In r (added tr) ->
  reached e (OHLCV.timestamp r) = false.
Proof.
  intros H. induction H as [|x tr Hx _ IH]; cbn; [tauto|].
  rewrite in_app_iff. intros [Hin|Hin]; auto.
  destruct x; cbn in Hin; try tauto. destruct Hin as [<-|[]].
  apply Hx. reflexivity.
Qed.

(** With a bound the truth test of line 227 accepts, that is any bound
    but the epoch itself, a run writes no candle at or after the bound. *)
Lemma bound_respected N w db ex sym tf start b :
  b <> 0 ->
  let o := backfill N w db ex sym tf start (Some b) in
  (forall r, In r (added (outcome_trace o)) -> OHLCV.timestamp r < b)
  /\ (forall sid t ts found,
        In (ELookup sid t ts found) (outcome_trace o) -> ts < b)
  /\ match o with
     | Returned _ _ _ db' _ | Raises db' _ =>
         forall r, In r (ohlcv db') ->
                   In r (ohlcv db) \/ OHLCV.timestamp r < b
     | Unfinished _ => True
     end.
Proof.
  intros Hb o.
  destruct (backfill_store N w db ex sym tf start (Some b)) as [Hf Hs].
  fold o in Hf, Hs.
  assert (Hlt : forall ts, reached (Some b) ts = false -> ts < b).
  { intros ts H. destruct (Z_lt_ge_dec ts b) as [|Hge]; auto.
    assert (reached (Some b) ts = true) by (apply reached_spec; exists b;
      repeat split; auto; lia). congruence. }
  assert (Ha : forall r, In r (added (outcome_trace o)) ->
                         OHLCV.timestamp r < b).
  { intros r Hr. apply Hlt. eapply added_in_range; eauto. }
  split; [exact Ha|]. split.
  { intros sid t ts found Hin. apply Hlt.
    rewrite Forall_forall in Hf. apply (Hf _ Hin). reflexivity. }
  destruct o as [n a c db' tr|db' tr|tr]; auto; cbn [outcome_trace] in *;
    destruct Hs as (_ & _ & Hr); intros r Hin;
      destruct (replay_rows tr (ohlcv db, []) r) as [H|[[]|H]];
      rewrite ?Hr; cbn; auto.
Qed.

(** The loop is left on an empty page, or on a page whose first candle is
    at or after a bound that passes the truth test; the page is then not
    looked at. *)
Lemma loop_exit_condition N w sym tf e r l :
  (exists l', iteration N w sym tf e r l = Break l')
  <-> (r = FetchReturns []
       \/ exists c0 cs, r = FetchReturns (c0 :: cs)
                        /\ reached e (item0 c0) = true).
Proof.
  split.
  - intros (l' & H). pose proof (iteration_cursor N w sym tf e r l) as Hc.
    rewrite H in Hc. tauto.
  - intros [->|(c0 & cs & -> & Hr)]; unfold iteration.
    + eauto.
    + rewrite Hr. eauto.
Qed.

Lemma loop_exit_untouched N w sym tf e r l l' :
  iteration N w sym tf e r l = Break l' ->
  l' = log (EFetch (since l) r) l.
Proof.
  unfold iteration, except_branch. destruct r as [|[|c0 cs]];
    try discriminate.
  - intros H; now inversion H.
  - destruct (reached e (item0 c0)); [intros H; now inversion H|].
    destruct (process_candles sym tf e (c0 :: cs) _) as [b|b];
      [|discriminate].
    match goal with |- context [commit_batch N w ?x] =>
      pose proof (commit_batch_cursor N w x) as H;
      destruct (commit_batch N w x) end; [contradiction|discriminate..].
Qed.

(** *** Runs that return *)

Lemma while_true_exits N w sym tf e answers l :
  In (FetchReturns []) answers ->
  exists l', while_true N w sym tf e answers l = LoopExit l'.
Proof.
  revert l. induction answers as [|r rest IH]; intros l Hin; [destruct Hin|].
  cbn [while_true]. destruct Hin as [->|Hin].
  - unfold iteration. eauto.
  - destruct (iteration N w sym tf e r l); eauto.
Qed.

(** The [for] loop neither breaks nor mends a session. *)
Lemma process_candles_inactive sym tf e candles b :
  inactive (b_session (batch_of (process_candles sym tf e candles b)))
  = inactive (b_session b).
Proof.
  functional induction (process_candles sym tf e candles b);
    simpl_batch; auto.
Qed.

Lemma respect_rate_limit_session w l :
  session (locals_of (respect_rate_limit w l)) = session l.
Proof.
  unfold respect_rate_limit.
  destruct (rateLimit w =? 0); [reflexivity|].
  destruct (rateLimit w <? 0); reflexivity.
Qed.

Lemma commit_batch_active N w l :
  (forall k, commit_succeeds w (Periodic k) = true) ->
  inactive (session l) = false ->
  inactive (session (locals_of (commit_batch N w l))) = false.
Proof.
  intros Hc Ha. unfold commit_batch.
  destruct (batch_count l mod N =? 0)%nat.
  - unfold can_commit. rewrite Ha, Hc. cbn [negb andb].
    now rewrite respect_rate_limit_session.
  - now rewrite respect_rate_limit_session.
Qed.

(** A session stays active through a turn unless a periodic commit of
    the turn raises. *)
Lemma iteration_active N w sym tf e r l :
  (forall k, commit_succeeds w (Periodic k) = true) ->
  inactive (session l) = false ->
  inactive (session (locals_of (iteration N w sym tf e r l))) = false.
Proof.
  intros Hc Ha. unfold iteration.
  destruct r as [|[|c0 cs]]; cbn [locals_of except_branch session log]; auto.
  destruct (reached e (item0 c0)); [exact Ha|].
  pose proof (process_candles_inactive sym tf e (c0 :: cs)
                (mkBatch (session l) 0 (all_timestamps l)
                   (trace l ++ [EFetch (since l) (FetchReturns (c0 :: cs))])))
    as Hp.
  cbn [log session all_timestamps trace].
  destruct (process_candles sym tf e (c0 :: cs) _) as [b|b]; simpl_batch.
  - apply commit_batch_active; [exact Hc|]. cbn. congruence.
  - cbn. congruence.
Qed.

Lemma while_true_active N w sym tf e answers :
  forall l,
    (forall k, commit_succeeds w (Periodic k) = true) ->
    inactive (session l) = false ->
    inactive (session (loop_locals (while_true N w sym tf e answers l)))
    = false.
Proof.
  induction answers as [|r rest IH]; intros l Hc Ha; cbn [while_true].
  - exact Ha.
  - pose proof (iteration_active N w sym tf e r l Hc Ha) as Hp.
    destruct (iteration N w sym tf e r l) as [l'|l'|l'];
      cbn [locals_of loop_locals] in *; auto.
Qed.

Lemma backfill_returns N w db ex sym tf start e :
  _get_db_symbol (session_maker db) ex sym <> None ->
  In (FetchReturns []) (responses w) ->
  (forall site, commit_succeeds w site = true) ->
  exists n a b db' tr,
    backfill N w db ex sym tf start e = Returned n a b db' tr.
Proof.
  intros Hy Hin Hc. unfold backfill.
  destruct (_get_db_symbol (session_maker db) ex sym) as [y|]; [|congruence].
  pose proof (while_true_active N w y tf e (responses w)
                (initial_locals start (session_maker db))
                (fun k => Hc (Periodic k)) eq_refl) as Ha.
  destruct (while_true_exits N w y tf e (responses w)
              (initial_locals start (session_maker db)) Hin) as (l & Hl).
  rewrite Hl in Ha |- *. cbn [loop_locals] in Ha.
  unfold can_commit. rewrite Ha, !Hc. cbn [negb andb commit inactive].
  destruct (actual_range w (all_timestamps l)) as [a b].
  eauto 10.
Qed.

Lemma backfill_finishes N w db ex sym tf start e :
  In (FetchReturns []) (responses w) ->
  forall tr, backfill N w db ex sym tf start e <> Unfinished tr.
Proof.
  intros Hin tr. unfold backfill.
  destruct (_get_db_symbol (session_maker db) ex sym) as [y|]; [|discriminate].
  destruct (while_true_exits N w y tf e (responses w)
              (initial_locals start (session_maker db)) Hin) as (l & ->).
  destruct (can_commit w Final (session l)); [|discriminate].
  destruct (actual_range w (all_timestamps l)) as [a b].
  destruct (can_commit w SessionExit (commit (session l))); discriminate.
Qed.

(** *** Commit errors *)

(** Once the session is inactive the [for] loop raises at its first
    lookup. *)
Lemma process_candles_stuck sym tf e c0 cs b :
  inactive (b_session b) = true ->
  reached e (item0 c0) = false ->
  process_candles sym tf e (c0 :: cs) b = ForRaised b.
Proof.
  intros Hi Hr. cbn [process_candles]. destruct c0 as [ts o h l c v|first];
    [|reflexivity].
  cbn [item0] in Hr. rewrite Hr.
  destruct (fromtimestamp_ok ts); [|reflexivity].
  destruct (TimeFrame_of_value tf); [|reflexivity].
  now rewrite Hi.
Qed.

(** A turn on an inactive session changes nothing but the cursor, the
    batch counter and the log. *)
Lemma iteration_inactive N w sym tf e r l :
  inactive (session l) = true ->
  match iteration N w sym tf e r l with
  | Continue _ => False
  | Break l' | Recover l' =>
      session l' = session l /\ total_records l' = total_records l
      /\ all_timestamps l' = all_timestamps l
      /\ added (trace l') = added (trace l)
  end.
Proof.
  intros Hi. unfold iteration.
  destruct r as [|[|c0 cs]]; cbn [except_branch session log total_records
    all_timestamps trace];
    try (rewrite !added_app; cbn; rewrite !app_nil_r; now auto).
  destruct (reached e (item0 c0)) eqn:Hr.
  - cbn. rewrite !added_app. cbn. rewrite !app_nil_r. auto.
  - rewrite process_candles_stuck by (simpl_batch; assumption).
    cbn. rewrite !added_app. cbn. rewrite !app_nil_r. auto.
Qed.

Lemma while_true_inactive N w sym tf e answers :
  forall l,
    inactive (session l) = true ->
    session (loop_locals (while_true N w sym tf e answers l)) = session l
    /\ total_records (loop_locals (while_true N w sym tf e answers l))
       = total_records l
    /\ all_timestamps (loop_locals (while_true N w sym tf e answers l))
       = all_timestamps l
    /\ added (trace (loop_locals (while_true N w sym tf e answers l)))
       = added (trace l).
Proof.
  induction answers as [|r rest IH]; intros l Hi; cbn [while_true].
  - cbn. auto.
  - pose proof (iteration_inactive N w sym tf e r l Hi) as Hp.
    destruct (iteration N w sym tf e r l) as [l'|l'|l'];
      cbn [loop_locals]; try contradiction; auto.
    destruct Hp as (H1 & H2 & H3 & H4).
    destruct (IH l') as (K1 & K2 & K3 & K4); [congruence|].
    repeat split; congruence.
Qed.

(** A run that returns saw no commit raise. *)
Lemma returned_went_through N w db ex sym tf start e n a b db' tr :
  backfill N w db ex sym tf start e = Returned n a b db' tr ->
  Forall went_through tr.
Proof.
  intros H. destruct (returned_inv _ _ _ _ _ _ _ _ _ _ _ _ _ H)
    as (y & l & Hy & Hl & _ & _ & _ & _ & _ & ->).
  pose proof (returned_active _ _ _ _ _ _ _ _ _ _ _ _ _ _ _ H Hy Hl) as Ha.
  destruct (while_true_evolves N w y tf e (responses w)
              (initial_locals start (session_maker db))) as (ext & Hev).
  rewrite Hl in Hev. cbn [loop_locals] in Hev.
  destruct (ev_active _ _ _ _ Hev Ha) as [_ Hw].
  rewrite (ev_trace _ _ _ _ Hev). cbn [initial_locals trace app].
  rewrite !Forall_app. repeat split; auto; repeat constructor.
Qed.

(** C5 (store error on commit), where the code departs from it.  The
    claim wants every error of a commit to abort the run and reach the
    caller, never to be absorbed by the per-page recovery.  An error of
    the commit after the loop (line 281) or of the commit made on leaving
    the session does so: the run raises, the open transaction is rolled
    back and the database holds what the commits before put there.  The
    periodic commit of line 267 sits inside the inner [try]: when it
    raises, the recovery branch of lines 274-278 catches the error, logs
    it, moves the cursor one day ahead and lets the loop go on, without a
    rollback.  The session is then inactive and the rows it had staged
    are lost; every later turn leaves the store alone and abandons its
    page; and only when the loop is left does the commit of line 281
    raise to the caller, so that no run in which a commit raised returns.
    In the run shown the store raises at the commit after the tenth
    page: the run fetches two more times, the ten staged rows are lost,
    and the caller gets the error of the commit after the loop. *)
Theorem periodic_commit_error_is_caught :
  (forall w db ex sym tf start e,
     commit_succeeds w Final = false \/ commit_succeeds w SessionExit = false ->
     match continuous_backfill_ohlcv w db ex sym tf start e with
     | Returned _ _ _ _ _ => False
     | Raises db' tr =>
         exchanges db' = exchanges db /\ symbols db' = symbols db
         /\ replay tr (ohlcv db, []) = (ohlcv db', [])
     | Unfinished _ => True
     end
     /\ (In (FetchReturns []) (responses w) ->
         exists db' tr,
           continuous_backfill_ohlcv w db ex sym tf start e = Raises db' tr))
  /\ (forall N w l,
     (batch_count l mod N = 0)%nat ->
     can_commit w (Periodic (batch_count l)) (session l) = false ->
     commit_batch N w l
     = Recover
         (mkLocals (since l + 86400000) (fail_commit (session l))
            (total_records l) (all_timestamps l) (batch_count l)
            (trace l
             ++ [ECommit (Periodic (batch_count l))
                   (pending_rows (session l)) false]
             ++ [ELogError (batch_count l)])))
  /\ (forall N w sym tf e r l,
        inactive (session l) = true ->
        match iteration N w sym tf e r l with
        | Continue _ => False
        | Break l' | Recover l' =>
            session l' = session l /\ total_records l' = total_records l
            /\ all_timestamps l' = all_timestamps l
            /\ added (trace l') = added (trace l)
        end)
  /\ (forall w db ex sym tf start e n a b db' tr,
        continuous_backfill_ohlcv w db ex sym tf start e
        = Returned n a b db' tr ->
        Forall went_through tr)
  /\ match continuous_backfill_ohlcv failing_store db_btc "binance"
             "BTC/USDT" "1h" 0 None with
     | Raises db' tr =>
         commits tr = [(Periodic 10, 10%nat, false); (Final, 0%nat, false)]
         /\ fetched tr
            = [0; 2; 3; 4; 5; 6; 7; 8; 9; 10; 86400011; 172800011]
         /\ List.length (added tr) = 10%nat
         /\ ohlcv db' = []
     | _ => False
     end.
Proof.
  split; [|split; [|split; [|split]]].
  - intros w db ex sym tf start e Hc.
    pose proof (backfill_store 10 w db ex sym tf start e) as [_ Hs].
    pose proof (backfill_finishes 10 w db ex sym tf start e) as Hfin.
    unfold continuous_backfill_ohlcv.
    destruct (backfill 10 w db ex sym tf start e) as [n a b db' tr|db' tr|tr]
      eqn:Ho.
    + apply returned_inv in Ho.
      destruct Ho as (_ & _ & _ & _ & H1 & H2 & _). destruct Hc; congruence.
    + split; [exact Hs|]. eauto.
    + split; [exact I|]. intros Hin. now destruct (Hfin Hin tr).
  - intros N w l Hm Hc. unfold commit_batch.
    rewrite Hm, Hc. cbn. unfold except_branch. cbn.
    now rewrite <- app_assoc.
  - intros. now apply iteration_inactive.
  - intros w db ex sym tf start e n a b db' tr H.
    exact (returned_went_through _ _ _ _ _ _ _ _ _ _ _ _ _ H).
  - vm_compute. repeat split.
Qed.

(** *** Symbol resolution *)

Lemma find_none_iff (A : Type) (f : A -> bool) (l : list A) :
  (forall x, In x l -> f x = false) -> find f l = None.
Proof.
  intros H. destruct (find f l) as [x|] eqn:Hf; [|reflexivity].
  apply find_some in Hf. destruct Hf as [Hin Hx]. rewrite (H x Hin) in Hx.
  discriminate.
Qed.

(** C9 (resolution error).  When the database holds no [Symbol] row for
    the requested pair under an exchange of the provider's name,
    [continuous_backfill_ohlcv] raises at once: [fetch_ohlcv] is never
    called, nothing is added, the session is rolled back and the database
    is left as it was. *)
Theorem unresolved_symbol_raises w db ex sym tf start e :
  (forall x y, In x (exchanges db) -> Exchange.name x = ex ->
               In y (symbols db) -> Symbol.exchange_id y = Exchange.id x ->
               Symbol.symbol y <> sym) ->
  continuous_backfill_ohlcv w db ex sym tf start e = Raises db [ERollback].
Proof.
  intros H. unfold continuous_backfill_ohlcv, backfill.
  assert (Hn : _get_db_symbol (session_maker db) ex sym = None).
  { unfold _get_db_symbol, _get_exchange_id, query_exchange, visible_exchanges.
    cbn. rewrite app_nil_r.
    destruct (find (fun x => String.eqb (Exchange.name x) ex) (exchanges db))
      as [x|] eqn:Hx; [|reflexivity].
    apply find_some in Hx. destruct Hx as [Hin Hname].
    apply String.eqb_eq in Hname. cbn.
    unfold query_symbol, visible_symbols. cbn. rewrite app_nil_r.
    apply find_none_iff. intros y Hy. unfold symbol_matches.
    apply andb_false_iff.
    destruct (Nat.eqb_spec (Symbol.exchange_id y) (Exchange.id x)) as [Heq|];
      [|now left].
    right. apply String.eqb_neq. eapply H; eauto. }
  rewrite Hn. reflexivity.
Qed.

(** *** Pages processed without error, and the commits they cause *)











(** *** Two runs in lockstep *)

Lemma new_OHLCV_convertible sym tf ts o h l c v :
  (new_OHLCV sym tf ts o h l c v <> None) <-> convertible o h l c v.
Proof.
  unfold convertible, numeric, new_OHLCV.
  destruct (to_Decimal o), (to_Decimal h), (to_Decimal l), (to_Decimal c),
    (to_Decimal v); split; intros H; try tauto; try congruence;
    repeat split; congruence.
Qed.

Lemma find_some_ex (A : Type) (f : A -> bool) (l : list A) (x : A) :
  In x l -> f x = true -> exists y, find f l = Some y.
Proof.
  intros Hin Hx. destruct (find f l) as [y|] eqn:Hf; [eauto|].
  rewrite (find_none f l Hf x Hin) in Hx. discriminate.
Qed.

Lemma process_candles_visible sym tf e candles b :
  exists rows,
    visible_ohlcv (b_session (batch_of (process_candles sym tf e candles b)))
    = visible_ohlcv (b_session b) ++ rows.
Proof.
  destruct (process_candles_summary sym tf e candles b)
    as (ext & _ & _ & Hs & _).
  rewrite Hs, fold_add_rows. unfold visible_ohlcv. cbn.
  exists (added ext). now rewrite app_assoc.
Qed.

Lemma process_candles_provenance sym tf e candles b r :
  In r (visible_ohlcv
          (b_session (batch_of (process_candles sym tf e candles b)))) ->
  In r (visible_ohlcv (b_session b)) \/ came_from candles r.
Proof.
  functional induction (process_candles sym tf e candles b);
    simpl_batch; auto.
  - intros H. destruct (IHf H) as [H'|(c & Hc & Hs)]; auto.
    right. exists c. split; [now right|auto].
  - intros H. destruct (IHf H) as [H'|(c & Hc & Hs)].
    + unfold visible_ohlcv, add_ohlcv in H'. cbn in H'.
      rewrite !in_app_iff in H'. cbn in H'.
      destruct H' as [H'|[H'|[<-|[]]]].
      * left. unfold visible_ohlcv. rewrite in_app_iff. auto.
      * left. unfold visible_ohlcv. rewrite in_app_iff. auto.
      * right. eexists. split; [left; reflexivity|]. split.
        -- cbn. eapply new_OHLCV_convertible. 
           match goal with H : new_OHLCV _ _ _ _ _ _ _ _ = Some _ |- _ =>
             rewrite H end. discriminate.
        -- match goal with H : new_OHLCV _ _ _ _ _ _ _ _ = Some _ |- _ =>
             destruct (new_OHLCV_timestamp _ _ _ _ _ _ _ _ _ H) as (-> & _) end.
           reflexivity.
    + right. exists c. split; [now right|auto].
Qed.

Lemma TimeFrame_eqb_refl t : TimeFrame_eqb t t = true.
Proof. unfold TimeFrame_eqb. destruct (TimeFrame_eq_dec t t); congruence. Qed.

Lemma new_OHLCV_matches sym tf ts o h l c v r :
  new_OHLCV sym tf ts o h l c v = Some r ->
  ohlcv_matches (Symbol.id sym) tf ts r = true.
Proof.
  intros H. destruct (new_OHLCV_timestamp _ _ _ _ _ _ _ _ _ H)
    as (H1 & H2 & H3 & _).
  unfold ohlcv_matches. rewrite H1, H2, H3.
  now rewrite Nat.eqb_refl, TimeFrame_eqb_refl, Z.eqb_refl.
Qed.

Lemma ohlcv_matches_timestamp sid tf ts r :
  ohlcv_matches sid tf ts r = true -> OHLCV.timestamp r = ts.
Proof.
  unfold ohlcv_matches. rewrite !andb_true_iff. intros [_ H].
  now apply Z.eqb_eq.
Qed.

Lemma pc_lockstep sym tf e G S2 candles b1 :
  forall b2,
    consistent G -> incl candles G ->
    b_session b2 = S2 -> b_timestamps b2 = b_timestamps b1 ->
    inactive (b_session b1) = false -> inactive S2 = false ->
    incl (visible_ohlcv
            (b_session (batch_of (process_candles sym tf e candles b1))))
         (visible_ohlcv S2) ->
    (forall r, In r (visible_ohlcv S2) ->
               In r (visible_ohlcv (b_session b1)) \/ came_from G r) ->
    same_kind (process_candles sym tf e candles b1)
              (process_candles sym tf e candles b2)
    /\ b_session (batch_of (process_candles sym tf e candles b2)) = S2
    /\ batch_records (batch_of (process_candles sym tf e candles b2))
       = batch_records b2
    /\ b_timestamps (batch_of (process_candles sym tf e candles b2))
       = b_timestamps (batch_of (process_candles sym tf e candles b1))
    /\ added (b_trace (batch_of (process_candles sym tf e candles b2)))
       = added (b_trace b2).
Proof.
  functional induction (process_candles sym tf e candles b1);
    intros b2 HG Hin Hs Hts Ha1 Ha2 Hincl Hprov; cbn [process_candles];
    repeat match goal with
           | H : reached _ _ = _ |- _ => rewrite H
           | H : fromtimestamp_ok _ = _ |- _ => rewrite H
           | H : TimeFrame_of_value _ = _ |- _ => rewrite H
           end;
    simpl_batch; try congruence; rewrite ?Hs, ?Ha2; try (cbn; now auto).
  - (* found in the first run *)
    match goal with H : query_ohlcv _ _ _ _ = Some _ |- _ =>
      apply find_some in H; destruct H as [Hx Hm] end.
    destruct (process_candles_visible sym tf e rest
                (mkBatch (b_session b) (batch_records b)
                   (b_timestamps b ++ [timestamp])
                   (b_trace b
                    ++ [ELookup (Symbol.id sym) tf0 timestamp true])))
      as (rows & Hrows).
    simpl_batch.
    assert (Hx2 : In _x (visible_ohlcv S2)).
    { apply Hincl. rewrite Hrows. apply in_app_iff. now left. }
    destruct (find_some_ex _ _ _ _ Hx2 Hm) as (y & Hy).
    unfold query_ohlcv. rewrite Hy.
    destruct (IHf (mkBatch S2 (batch_records b2)
                     (b_timestamps b2 ++ [timestamp])
                     (b_trace b2
                      ++ [ELookup (Symbol.id sym) tf0 timestamp true])))
      as (K1 & K2 & K3 & K4 & K5); simpl_batch; auto.
    + eapply incl_cons_inv; eauto.
    + congruence.
    + repeat split; auto. rewrite K5, added_app. cbn. now rewrite app_nil_r.
  - (* written by the first run *)
    match goal with H : new_OHLCV _ _ _ _ _ _ _ _ = Some _ |- _ =>
      pose proof (new_OHLCV_matches _ _ _ _ _ _ _ _ _ H) as Hm end.
    destruct (process_candles_visible sym tf e rest
                (mkBatch (add_ohlcv (b_session b) ohlcv_record)
                   (S (batch_records b))
                   (b_timestamps b ++ [timestamp])
                   ((b_trace b
                     ++ [ELookup (Symbol.id sym) tf0 timestamp false])
                    ++ [EAdd ohlcv_record])))
      as (rows & Hrows).
    simpl_batch.
    assert (Hx2 : In ohlcv_record (visible_ohlcv S2)).
    { apply Hincl. rewrite Hrows. apply in_app_iff. left.
      unfold visible_ohlcv, add_ohlcv. cbn. rewrite !in_app_iff. cbn. auto. }
    destruct (find_some_ex _ _ _ _ Hx2 Hm) as (y & Hy).
    unfold query_ohlcv. rewrite Hy.
    destruct (IHf (mkBatch S2 (batch_records b2)
                     (b_timestamps b2 ++ [timestamp])
                     (b_trace b2
                      ++ [ELookup (Symbol.id sym) tf0 timestamp true])))
      as (K1 & K2 & K3 & K4 & K5); simpl_batch; auto.
    + eapply incl_cons_inv; eauto.
    + congruence.
    + intros r Hr. destruct (Hprov r Hr) as [H'|H']; auto.
      left. unfold visible_ohlcv, add_ohlcv in *. cbn.
      rewrite !in_app_iff in *. tauto.
    + repeat split; auto. rewrite K5, added_app. cbn. now rewrite app_nil_r.
  - (* refused by the first run *)
    assert (Hq : query_ohlcv S2 (Symbol.id sym) tf0 timestamp = None).
    { destruct (query_ohlcv S2 (Symbol.id sym) tf0 timestamp) as [r|] eqn:Hq;
        [|reflexivity].
      apply find_some in Hq. destruct Hq as [Hr Hm].
      apply ohlcv_matches_timestamp in Hm as Hts'.
      destruct (Hprov r Hr) as [H'|(c' & Hc' & Hst & Hi)].
      - match goal with H : query_ohlcv (b_session b) _ _ _ = None |- _ =>
          pose proof (find_none _ _ H r H') as Hn end.
        cbn in Hn. congruence.
      - destruct c' as [ts' o' h' l' c' v'|]; [|contradiction].
        cbn in Hi, Hst. rewrite Hts' in Hi. subst ts'.
        assert (Hconv : convertible open_price high low close volume).
        { eapply (HG timestamp o' h' l' c' v'); eauto.
          apply Hin. now left. }
        apply (new_OHLCV_convertible sym tf0 timestamp) in Hconv.
        congruence. }
    rewrite Hq.
    match goal with H : new_OHLCV _ _ _ _ _ _ _ _ = None |- _ => rewrite H end.
    cbn. repeat split; auto. rewrite added_app. cbn. now rewrite app_nil_r.
Qed.

Lemma commit_idle s : idle s -> commit s = s.
Proof.
  unfold idle, commit, visible_exchanges, visible_symbols, visible_ohlcv.
  destruct s as [[ex sy oh] p i]. cbn. intros [-> ->]. cbn.
  now rewrite !app_nil_r.
Qed.

Lemma visible_commit s : visible_ohlcv (commit s) = visible_ohlcv s.
Proof. unfold commit, visible_ohlcv. cbn. now rewrite app_nil_r. Qed.

Lemma respect_rate_limit_visible w l :
  visible_ohlcv (session (locals_of (respect_rate_limit w l)))
  = visible_ohlcv (session l).
Proof.
  unfold respect_rate_limit.
  destruct (rateLimit w =? 0); [reflexivity|].
  destruct (rateLimit w <? 0); reflexivity.
Qed.

(** The steps after the [for] loop show the session no new row, and
    unless a commit raises they show it the rows it saw. *)
Lemma commit_batch_incl N w l :
  incl (visible_ohlcv (session (locals_of (commit_batch N w l))))
       (visible_ohlcv (session l)).
Proof.
  unfold commit_batch.
  destruct (batch_count l mod N =? 0)%nat;
    [destruct (can_commit w (Periodic (batch_count l)) (session l)) eqn:Hcan|].
  - rewrite respect_rate_limit_visible. cbn [session].
    rewrite visible_commit. apply incl_refl.
  - cbn. unfold visible_ohlcv. cbn. rewrite app_nil_r.
    apply incl_appl, incl_refl.
  - rewrite respect_rate_limit_visible. apply incl_refl.
Qed.

Lemma commit_batch_visible N w l :
  inactive (session (locals_of (commit_batch N w l))) = false ->
  visible_ohlcv (session (locals_of (commit_batch N w l)))
  = visible_ohlcv (session l).
Proof.
  unfold commit_batch.
  destruct (batch_count l mod N =? 0)%nat;
    [destruct (can_commit w (Periodic (batch_count l)) (session l)) eqn:Hcan|].
  - intros _. rewrite respect_rate_limit_visible. cbn [session].
    apply visible_commit.
  - cbn. discriminate.
  - intros _. apply respect_rate_limit_visible.
Qed.

Lemma respect_rate_limit_lockstep w x1 x2 :
  agree x1 x2 ->
  follows x2 (respect_rate_limit w x1) (respect_rate_limit w x2).
Proof.
  intros (H1 & H2 & H3). unfold respect_rate_limit, follows, agree.
  destruct (rateLimit w =? 0); [cbn; auto 10|].
  destruct (rateLimit w <? 0); cbn; rewrite ?added_app; cbn;
    rewrite ?app_nil_r; repeat split; auto; congruence.
Qed.

Lemma commit_batch_lockstep N w x1 x2 :
  agree x1 x2 -> idle (session x2) ->
  inactive (session (locals_of (commit_batch N w x1))) = false ->
  follows x2 (commit_batch N w x1) (commit_batch N w x2).
Proof.
  intros (H1 & H2 & H3) Hi. unfold commit_batch. rewrite H2.
  destruct (batch_count x2 mod N =? 0)%nat;
    [destruct (can_commit w (Periodic (batch_count x2)) (session x1))
       eqn:Hcan|].
  - intros _. apply can_commit_spec in Hcan. destruct Hcan as [_ Hcan].
    unfold can_commit. rewrite (proj2 Hi), Hcan. cbn [negb andb].
    rewrite (commit_idle _ Hi).
    match goal with |- follows _ (respect_rate_limit w ?a)
                                 (respect_rate_limit w ?b) =>
      destruct (respect_rate_limit_lockstep w a b) as (K1 & K2 & K3 & K4 & K5)
    end.
    { unfold agree. cbn. auto. }
    cbn [session total_records trace] in K3, K4, K5.
    unfold follows. repeat split; auto; try apply K2.
    rewrite K5, added_app. cbn. now rewrite app_nil_r.
  - cbn. discriminate.
  - intros _. apply respect_rate_limit_lockstep. unfold agree; auto.
Qed.

Lemma iteration_provenance N w sym tf e r l x :
  In x (visible_ohlcv (session (locals_of (iteration N w sym tf e r l)))) ->
  In x (visible_ohlcv (session l)) \/ came_from (candles_of r) x.
Proof.
  unfold iteration. destruct r as [|[|c0 cs]]; cbn [locals_of except_branch
    session log candles_of]; auto.
  destruct (reached e (item0 c0)); [cbn; auto|].
  pose proof (process_candles_provenance sym tf e (c0 :: cs)
                (mkBatch (session l) 0 (all_timestamps l)
                   (trace l ++ [EFetch (since l) (FetchReturns (c0 :: cs))]))
                x) as Hp.
  cbn [log session all_timestamps trace].
  destruct (process_candles sym tf e (c0 :: cs) _) as [b|b]; simpl_batch.
  - intros H. apply Hp. revert H. apply commit_batch_incl.
  - exact Hp.
Qed.

Lemma iteration_lockstep N w sym tf e G r l1 l2 :
  consistent G -> incl (candles_of r) G ->
  agree l1 l2 -> idle (session l2) ->
  inactive (session (locals_of (iteration N w sym tf e r l1))) = false ->
  incl (visible_ohlcv (session (locals_of (iteration N w sym tf e r l1))))
       (visible_ohlcv (session l2)) ->
  (forall x, In x (visible_ohlcv (session l2)) ->
             In x (visible_ohlcv (session l1)) \/ came_from G x) ->
  follows l2 (iteration N w sym tf e r l1) (iteration N w sym tf e r l2).
Proof.
  intros HG Hin (H1 & H2 & H3) Hi Hact Hincl Hprov.
  assert (Ha1 : inactive (session l1) = false).
  { destruct (iteration_evolves N w sym tf e r l1) as (ext & Hev & _).
    now destruct (ev_active _ _ _ _ Hev Hact). }
  revert Hact Hincl.
  unfold iteration. destruct r as [|[|c0 cs]].
  - intros _ _. unfold follows, agree. cbn. rewrite !added_app. cbn.
    rewrite !app_nil_r. repeat split; auto; congruence.
  - intros _ _. unfold follows, agree. cbn. rewrite !added_app. cbn.
    rewrite !app_nil_r. repeat split; auto; congruence.
  - destruct (reached e (item0 c0)).
    { intros _ _. unfold follows, agree. cbn. rewrite !added_app. cbn.
      rewrite !app_nil_r. repeat split; auto; congruence. }
    cbn [log session all_timestamps trace batch_count total_records since
         candles_of] in *.
    pose proof (pc_lockstep sym tf e G (session l2) (c0 :: cs)
                  (mkBatch (session l1) 0 (all_timestamps l1)
                     (trace l1
                      ++ [EFetch (since l1) (FetchReturns (c0 :: cs))]))
                  (mkBatch (session l2) 0 (all_timestamps l2)
                     (trace l2
                      ++ [EFetch (since l2) (FetchReturns (c0 :: cs))]))
                  HG Hin eq_refl (eq_sym H3) Ha1 (proj2 Hi)) as Hpc.
    simpl_batch.
    destruct (process_candles sym tf e (c0 :: cs)
                (mkBatch (session l1) 0 (all_timestamps l1) _)) as [b1|b1];
      destruct (process_candles sym tf e (c0 :: cs)
                  (mkBatch (session l2) 0 (all_timestamps l2) _)) as [b2|b2];
      simpl_batch; intros Hact Hincl.
    + rewrite commit_batch_visible in Hincl by exact Hact.
      cbn [session] in Hincl.
      destruct (Hpc Hincl Hprov) as (_ & K2 & K3 & K4 & K5).
      match goal with |- follows _ (commit_batch N w ?a) (commit_batch N w ?b) =>
        destruct (commit_batch_lockstep N w a b) as (L1 & L2 & L3 & L4 & L5)
      end.
      { unfold agree. cbn. repeat split; congruence. }
      { cbn. now rewrite K2. }
      { exact Hact. }
      cbn [session total_records trace] in L3, L4, L5.
      unfold follows. repeat split; auto; try apply L2.
      * congruence.
      * rewrite L4, K3. lia.
      * rewrite L5, K5, added_app. cbn. now rewrite app_nil_r.
    + rewrite commit_batch_visible in Hincl by exact Hact.
      cbn [session] in Hincl.
      destruct (Hpc Hincl Hprov) as ([] & _).
    + cbn [locals_of except_branch session] in Hincl.
      destruct (Hpc Hincl Hprov) as ([] & _).
    + cbn [locals_of except_branch session] in Hincl.
      destruct (Hpc Hincl Hprov) as (_ & K2 & K3 & K4 & K5).
      unfold follows, agree. cbn. rewrite !added_app, K5, added_app. cbn.
      rewrite !app_nil_r. repeat split; auto; congruence.
Qed.

Lemma while_true_visible N w sym tf e answers l :
  inactive (session (loop_locals (while_true N w sym tf e answers l)))
  = false ->
  inactive (session l) = false
  /\ exists rows,
       visible_ohlcv
         (session (loop_locals (while_true N w sym tf e answers l)))
       = visible_ohlcv (session l) ++ rows.
Proof.
  intros Ha.
  destruct (while_true_evolves N w sym tf e answers l) as (ext & Hev).
  destruct (evolves_rows Hev) as [_ H].
  destruct (ev_active _ _ _ _ Hev Ha) as [Hl _]. eauto.
Qed.

Lemma while_true_provenance N w sym tf e answers l x :
  In x (visible_ohlcv
          (session (loop_locals (while_true N w sym tf e answers l)))) ->
  In x (visible_ohlcv (session l)) \/ came_from (all_candles answers) x.
Proof.
  revert l. induction answers as [|r rest IH]; intros l; cbn [while_true].
  - auto.
  - pose proof (iteration_provenance N w sym tf e r l x) as Hp.
    assert (Hleft : came_from (candles_of r) x ->
                    came_from (all_candles (r :: rest)) x).
    { intros (c & Hc & Hs). exists c. split; auto.
      unfold all_candles. cbn. apply in_app_iff. now left. }
    assert (Hright : came_from (all_candles rest) x ->
                     came_from (all_candles (r :: rest)) x).
    { intros (c & Hc & Hs). exists c. split; auto.
      unfold all_candles. cbn. apply in_app_iff. now right. }
    destruct (iteration N w sym tf e r l) as [l'|l'|l']; cbn [locals_of] in Hp.
    + cbn [loop_locals]. intros H. destruct (Hp H); auto.
    + intros H. destruct (IH l' H) as [H'|H']; auto. destruct (Hp H'); auto.
    + intros H. destruct (IH l' H) as [H'|H']; auto. destruct (Hp H'); auto.
Qed.

Lemma while_true_lockstep N w sym tf e G answers :
  forall l1 l2 l1f,
    consistent G -> incl (all_candles answers) G ->
    agree l1 l2 -> idle (session l2) ->
    while_true N w sym tf e answers l1 = LoopExit l1f ->
    inactive (session l1f) = false ->
    incl (visible_ohlcv (session l1f)) (visible_ohlcv (session l2)) ->
    (forall x, In x (visible_ohlcv (session l2)) ->
               In x (visible_ohlcv (session l1)) \/ came_from G x) ->
    exists l2f,
      while_true N w sym tf e answers l2 = LoopExit l2f
      /\ agree l1f l2f
      /\ session l2f = session l2
      /\ total_records l2f = total_records l2
      /\ added (trace l2f) = added (trace l2).
Proof.
  induction answers as [|r rest IH];
    intros l1 l2 l1f HG Hin Hag Hi Hl Hact Hincl Hprov; cbn [while_true] in *.
  - discriminate.
  - assert (Hin1 : incl (candles_of r) G).
    { intros c Hc. apply Hin. unfold all_candles. cbn.
      apply in_app_iff. now left. }
    assert (Hin2 : incl (all_candles rest) G).
    { intros c Hc. apply Hin. unfold all_candles. cbn.
      apply in_app_iff. now right. }
    pose proof (iteration_lockstep N w sym tf e G r l1 l2 HG Hin1 Hag Hi)
      as Hstep.
    destruct (iteration_evolves N w sym tf e r l1) as (ext1 & Hev1 & _).
    destruct (evolves_rows Hev1) as [_ Hvis1].
    destruct (iteration N w sym tf e r l1) as [l1'|l1'|l1'] eqn:H1;
      cbn [locals_of] in *.
    + inversion Hl; subst l1'.
      destruct (Hstep Hact Hincl Hprov) as (K1 & K2 & K3 & K4 & K5).
      destruct (iteration N w sym tf e r l2) as [l2'|l2'|l2'];
        try contradiction. cbn [locals_of] in *. eauto 10.
    + pose proof (while_true_visible N w sym tf e rest l1') as Hrows.
      rewrite Hl in Hrows. cbn [loop_locals] in Hrows.
      destruct (Hrows Hact) as (Hact' & rows & Hr).
      assert (Hincl' : incl (visible_ohlcv (session l1'))
                            (visible_ohlcv (session l2))).
      { intros x Hx. apply Hincl. rewrite Hr. apply in_app_iff. now left. }
      destruct (Hstep Hact' Hincl' Hprov) as (K1 & K2 & K3 & K4 & K5).
      destruct (iteration N w sym tf e r l2) as [l2'|l2'|l2'];
        try contradiction. cbn [locals_of] in *.
      destruct (IH l1' l2' l1f HG Hin2 K2) as (l2f & M1 & M2 & M3 & M4 & M5);
        auto.
      * unfold idle. now rewrite K3.
      * now rewrite K3.
      * rewrite K3. intros x Hx. destruct (Hprov x Hx) as [H'|H']; auto.
        left. rewrite (Hvis1 Hact'). apply in_app_iff. now left.
      * exists l2f. repeat split; auto; try apply M2; congruence.
    + pose proof (while_true_visible N w sym tf e rest l1') as Hrows.
      rewrite Hl in Hrows. cbn [loop_locals] in Hrows.
      destruct (Hrows Hact) as (Hact' & rows & Hr).
      assert (Hincl' : incl (visible_ohlcv (session l1'))
                            (visible_ohlcv (session l2))).
      { intros x Hx. apply Hincl. rewrite Hr. apply in_app_iff. now left. }
      destruct (Hstep Hact' Hincl' Hprov) as (K1 & K2 & K3 & K4 & K5).
      destruct (iteration N w sym tf e r l2) as [l2'|l2'|l2'];
        try contradiction. cbn [locals_of] in *.
      destruct (IH l1' l2' l1f HG Hin2 K2) as (l2f & M1 & M2 & M3 & M4 & M5);
        auto.
      * unfold idle. now rewrite K3.
      * now rewrite K3.
      * rewrite K3. intros x Hx. destruct (Hprov x Hx) as [H'|H']; auto.
        left. rewrite (Hvis1 Hact'). apply in_app_iff. now left.
      * exists l2f. repeat split; auto; try apply M2; congruence.
Qed.

Lemma find_app_none (A : Type) (f : A -> bool) (l m : list A) :
  find f (l ++ m) = None -> find f l = None.
Proof.
  intros H. apply find_none_iff. intros x Hx.
  apply (find_none f (l ++ m) H). apply in_app_iff. now left.
Qed.

Lemma absent_earlier s s' rows r :
  visible_ohlcv s' = visible_ohlcv s ++ rows -> absent s' r -> absent s r.
Proof.
  unfold absent, query_ohlcv. intros ->. apply find_app_none.
Qed.

Lemma process_candles_fresh sym tf e candles b r :
  In r (visible_ohlcv
          (b_session (batch_of (process_candles sym tf e candles b)))) ->
  In r (visible_ohlcv (b_session b)) \/ absent (b_session b) r.
Proof.
  functional induction (process_candles sym tf e candles b);
    simpl_batch; auto.
  intros H. destruct (IHf H) as [H'|H'].
  - unfold visible_ohlcv, add_ohlcv in H'. cbn in H'.
    rewrite !in_app_iff in H'. cbn in H'.
    destruct H' as [H'|[H'|[<-|[]]]].
    + left. unfold visible_ohlcv. rewrite in_app_iff. auto.
    + left. unfold visible_ohlcv. rewrite in_app_iff. auto.
    + right. unfold absent.
      match goal with H : new_OHLCV _ _ _ _ _ _ _ _ = Some _ |- _ =>
        destruct (new_OHLCV_timestamp _ _ _ _ _ _ _ _ _ H)
          as (-> & -> & -> & _) end.
      assumption.
  - right. eapply absent_earlier; [|exact H'].
    unfold visible_ohlcv, add_ohlcv. cbn. now rewrite app_assoc.
Qed.

Lemma iteration_fresh N w sym tf e r l x :
  In x (visible_ohlcv (session (locals_of (iteration N w sym tf e r l)))) ->
  In x (visible_ohlcv (session l)) \/ absent (session l) x.
Proof.
  unfold iteration. destruct r as [|[|c0 cs]]; cbn [locals_of except_branch
    session log]; auto.
  destruct (reached e (item0 c0)); [cbn; auto|].
  pose proof (process_candles_fresh sym tf e (c0 :: cs)
                (mkBatch (session l) 0 (all_timestamps l)
                   (trace l ++ [EFetch (since l) (FetchReturns (c0 :: cs))]))
                x) as Hp.
  cbn [log session all_timestamps trace].
  destruct (process_candles sym tf e (c0 :: cs) _) as [b|b]; simpl_batch.
  - intros H. apply Hp. revert H. apply commit_batch_incl.
  - exact Hp.
Qed.

Lemma while_true_fresh N w sym tf e answers l x :
  In x (visible_ohlcv
          (session (loop_locals (while_true N w sym tf e answers l)))) ->
  In x (visible_ohlcv (session l)) \/ absent (session l) x.
Proof.
  revert l. induction answers as [|r rest IH]; intros l; cbn [while_true].
  - auto.
  - pose proof (iteration_fresh N w sym tf e r l x) as Hp.
    destruct (iteration_evolves N w sym tf e r l) as (ext & Hev & _).
    destruct (evolves_rows Hev) as [_ Hvis].
    destruct (iteration N w sym tf e r l) as [l'|l'|l'];
      cbn [locals_of loop_locals] in *; auto;
      intros H;
      (destruct (inactive (session l')) eqn:Hi;
       [apply Hp;
        destruct (while_true_inactive N w sym tf e rest l' Hi) as [Hs _];
        now rewrite Hs in H
       |destruct (IH l' H) as [H'|H']; auto;
        right; eapply absent_earlier; eauto]).
Qed.

(** Whatever the gateway serves, a run creates no row whose identity the
    database held before: every row of the database it leaves was there
    already or was absent by the identity lookup. *)
Lemma existing_rows_are_skipped N w db ex sym tf start e :
  match backfill N w db ex sym tf start e with
  | Returned _ _ _ db' _ | Raises db' _ =>
      forall r, In r (ohlcv db') ->
                In r (ohlcv db) \/ absent (session_maker db) r
  | Unfinished _ => True
  end.
Proof.
  unfold backfill.
  destruct (_get_db_symbol (session_maker db) ex sym) as [y|];
    [|cbn; now auto].
  pose proof (fun x => while_true_fresh N w y tf e (responses w)
                         (initial_locals start (session_maker db)) x) as Hf.
  destruct (while_true_evolves N w y tf e (responses w)
              (initial_locals start (session_maker db))) as (ext & Hev).
  destruct (evolves_rows Hev) as [(more & Hm) _].
  destruct (while_true N w y tf e (responses w)
              (initial_locals start (session_maker db))) as [l|l];
    cbn [loop_locals initial_locals session] in *; [|exact I].
  assert (Hinit : visible_ohlcv (session_maker db) = ohlcv db).
  { unfold visible_ohlcv. cbn. apply app_nil_r. }
  rewrite Hinit in Hf.
  destruct (can_commit w Final (session l)).
  - destruct (actual_range w (all_timestamps l)) as [a b].
    cbn [can_commit commit inactive negb andb].
    destruct (commit_succeeds w SessionExit); cbn; intros r Hr.
    + unfold visible_ohlcv at 1 in Hr. cbn in Hr. rewrite app_nil_r in Hr.
      now apply Hf.
    + now apply Hf.
  - cbn. intros r Hr. apply Hf. unfold visible_ohlcv.
    apply in_app_iff. now left.
Qed.

Lemma _get_db_symbol_tables db db' ex sym :
  exchanges db' = exchanges db -> symbols db' = symbols db ->
  _get_db_symbol (session_maker db') ex sym
  = _get_db_symbol (session_maker db) ex sym.
Proof.
  intros H1 H2.
  unfold _get_db_symbol, _get_exchange_id, query_exchange, query_symbol,
    visible_exchanges, visible_symbols, session_maker. cbn.
  now rewrite H1, H2.
Qed.

(** C1 (idempotence).  Whatever the gateway serves, a run writes no row
    whose identity the database held before: a candle that is stored
    already is found by the identity lookup and skipped.  And when a
    first run of [continuous_backfill_ohlcv] has returned and the backfill
    is run again for the same symbol, timeframe and range against the
    database the first run left, with the gateway answering as it did,
    the second run finds every candle, hands no row to [session.add],
    returns 0 records with the same observed range, and leaves the
    database as the first run left it.  For this the gateway is any
    gateway that never serves one timestamp both as a candle whose values
    convert to [Decimal] and as one whose values do not; a gateway that
    serves only well-formed candles is one. *)
Theorem backfill_idempotent :
  (forall w db ex sym tf start e,
     match continuous_backfill_ohlcv w db ex sym tf start e with
     | Returned _ _ _ db' _ | Raises db' _ =>
         forall r, In r (ohlcv db') ->
                   In r (ohlcv db) \/ absent (session_maker db) r
     | Unfinished _ => True
     end)
  /\ (forall w db ex sym tf start e n a b db1 tr,
        consistent (all_candles (responses w)) ->
        continuous_backfill_ohlcv w db ex sym tf start e
        = Returned n a b db1 tr ->
        exists tr2,
          continuous_backfill_ohlcv w db1 ex sym tf start e
          = Returned 0 a b db1 tr2
          /\ added tr2 = []).
Proof.
  split.
  { intros. apply existing_rows_are_skipped. }
  intros w db ex sym tf start e n a b db1 tr HG H.
  unfold continuous_backfill_ohlcv in *.
  pose proof (backfill_store 10 w db ex sym tf start e) as [_ Hs].
  rewrite H in Hs. destruct Hs as (He & Hy & _).
  pose proof H as H0. apply returned_inv in H.
  destruct H as (y & l & Hsym & Hl & Hf & Hx & -> & Hab & -> & ->).
  pose proof (returned_active _ _ _ _ _ _ _ _ _ _ _ _ _ _ _ H0 Hsym Hl)
    as Hact.
  clear H0.
  assert (Hrows : ohlcv (committed (commit (commit (session l))))
                  = visible_ohlcv (session l)).
  { cbn. unfold visible_ohlcv at 1. cbn. now rewrite app_nil_r. }
  remember (committed (commit (commit (session l)))) as db1 eqn:Hdb1.
  clear Hdb1.
  destruct (while_true_lockstep 10 w y tf e (all_candles (responses w))
              (responses w)
              (initial_locals start (session_maker db))
              (initial_locals start (session_maker db1)) l HG
              (incl_refl _))
    as (l2 & M1 & (_ & _ & M2) & M3 & M4 & M5).
  - unfold agree. cbn. auto.
  - split; reflexivity.
  - exact Hl.
  - exact Hact.
  - cbn [initial_locals session]. unfold visible_ohlcv at 2. cbn.
    rewrite Hrows, app_nil_r. apply incl_refl.
  - cbn [initial_locals session]. intros x Hin.
    unfold visible_ohlcv in Hin at 1. cbn in Hin.
    rewrite app_nil_r, Hrows in Hin.
    pose proof (while_true_provenance 10 w y tf e (responses w)
                  (initial_locals start (session_maker db)) x) as Hp.
    rewrite Hl in Hp. cbn [loop_locals initial_locals session] in Hp. auto.
  - unfold backfill.
    rewrite (_get_db_symbol_tables db db1 ex sym He Hy), Hsym, M1.
    cbn [initial_locals session total_records trace] in M3, M4, M5.
    rewrite M3, M4.
    unfold can_commit. cbn [session_maker commit inactive negb andb].
    rewrite Hf, Hx. rewrite <- M2, <- Hab.
    change (mkSession db1 empty_database false) with (session_maker db1).
    rewrite !(commit_idle (session_maker db1) (conj eq_refl eq_refl)).
    eexists. split; [reflexivity|].
    rewrite !added_app, M5. reflexivity.
Qed.

(** *** Markets *)

Lemma symbol_matches_spec eid s y :
  symbol_matches eid s y = true <->
  Symbol.exchange_id y = eid /\ Symbol.symbol y = s.
Proof.
  unfold symbol_matches.
  now rewrite andb_true_iff, Nat.eqb_eq, String.eqb_eq.
Qed.

Lemma get_or_create_symbol_short session eid s b q info :
  currency_names_too_long b q = false ->
  exists y new,
    get_or_create_symbol session eid s b q info
    = (Some y, mkSession (committed session)
                 (mkDatabase (exchanges (pending session))
                    (symbols (pending session) ++ new)
                    (ohlcv (pending session)))
                 (inactive session))
    /\ In y (visible_symbols session ++ new)
    /\ Symbol.exchange_id y = eid /\ Symbol.symbol y = s
    /\ (new = [] \/ new = [y] /\ Symbol.base_currency y = b
                    /\ Symbol.quote_currency y = q).
Proof.
  intros Hs. unfold get_or_create_symbol. rewrite Hs.
  destruct (query_symbol session eid s) as [y|] eqn:Hq.
  - apply find_some in Hq. destruct Hq as [Hin Hm].
    apply symbol_matches_spec in Hm. destruct Hm as [H1 H2].
    exists y, []. rewrite !app_nil_r. repeat split; auto.
    now destruct session as [c [? ? ?]].
  - destruct info as [m|]; eexists; eexists; (split; [reflexivity|]);
      cbn; rewrite in_app_iff; cbn; auto 10.
Qed.

Lemma store_markets_spec eid markets :
  forall session n,
  exists new,
    store_markets eid markets session n
    = ((n + List.length (filter countable markets))%nat,
       mkSession (committed session)
         (mkDatabase (exchanges (pending session))
            (symbols (pending session) ++ new)
            (ohlcv (pending session)))
         (inactive session))
    /\ (forall y, In y new ->
          exists m, In m markets /\ countable m = true
                    /\ Symbol.symbol y = Market.symbol m
                    /\ Symbol.base_currency y = Market.base m
                    /\ Symbol.quote_currency y = Market.quote m
                    /\ Symbol.exchange_id y = eid)
    /\ (forall m, In m markets -> countable m = true ->
          exists y, In y (visible_symbols session ++ new)
                    /\ Symbol.exchange_id y = eid
                    /\ Symbol.symbol y = Market.symbol m).
Proof.
  induction markets as [|m rest IH]; intros session n.
  - exists []. cbn. rewrite Nat.add_0_r, app_nil_r. split; [|split].
    + now destruct session as [c [? ? ?]].
    + intros y [].
    + intros m [].
  - cbn [store_markets filter]. unfold countable at 1.
    destruct (Market.active m) eqn:Ha; cbn [andb].
    2:{ destruct (IH session n) as (new & -> & H1 & H2). exists new.
        split; [reflexivity|]. split.
        - intros y Hy. destruct (H1 y Hy) as (m' & Hm' & K). exists m'.
          split; [now right|exact K].
        - intros m' [<-|Hm'] Hc; [|now apply H2].
          unfold countable in Hc. rewrite Ha in Hc. discriminate. }
    destruct (currency_names_too_long (Market.base m) (Market.quote m)) eqn:Hl;
      cbn [negb].
    { unfold get_or_create_symbol. rewrite Hl.
      destruct (IH session n) as (new & -> & H1 & H2). exists new.
      split; [reflexivity|]. split.
      - intros y Hy. destruct (H1 y Hy) as (m' & Hm' & K). exists m'.
        split; [now right|exact K].
      - intros m' [<-|Hm'] Hc; [|now apply H2].
        unfold countable in Hc. rewrite Ha, Hl in Hc. discriminate. }
    destruct (get_or_create_symbol_short session eid (Market.symbol m)
                (Market.base m) (Market.quote m) (Some m) Hl)
      as (y & new1 & -> & Hy & He & Hs & Hnew).
    match goal with |- context [store_markets eid rest ?s' ?n'] =>
      destruct (IH s' n') as (new & -> & H1 & H2) end.
    cbn [committed pending exchanges symbols ohlcv] in *.
    exists (new1 ++ new). split; [|split].
    + cbn [List.length]. rewrite <- app_assoc. f_equal. lia.
    + intros y' Hy'. apply in_app_iff in Hy'. destruct Hy' as [Hy'|Hy'].
      * destruct Hnew as [->|(-> & Hb & Hq)]; [destruct Hy'|].
        destruct Hy' as [<-|[]]. exists m. unfold countable.
        rewrite Ha, Hl. repeat split; auto. now left.
      * destruct (H1 y' Hy') as (m' & Hm' & K). exists m'.
        split; [now right|exact K].
    + intros m' [<-|Hm'] Hc.
      * exists y. rewrite app_assoc, in_app_iff. auto.
      * destruct (H2 m' Hm' Hc) as (y' & Hy' & K). exists y'.
        split; [|exact K]. unfold visible_symbols in *.
        cbn [committed pending symbols] in Hy'.
        rewrite <- !app_assoc in *. exact Hy'.
Qed.

(** C10 (market synchronisation), as the code has it.
    [get_or_create_symbol] returns [None] and leaves the session untouched
    when the base or the quote currency is longer than 10 characters.
    [fetch_and_store_markets] returns the number of markets that are
    active and have both names within 10 characters; each of these has a
    [Symbol] row afterwards, and every [Symbol] row that was not there
    before comes from such a market.  A market that is not active is
    skipped whatever its names. *)
Theorem markets_counted exchange_name markets db :
  (forall session eid s b q info,
     currency_names_too_long b q = true ->
     get_or_create_symbol session eid s b q info = (None, session))
  /\ fst (fetch_and_store_markets exchange_name markets db)
     = List.length (filter countable markets)
  /\ (forall m, In m markets -> countable m = true ->
        exists x y,
          In x (exchanges (snd (fetch_and_store_markets exchange_name
                                  markets db)))
          /\ Exchange.name x = exchange_name
          /\ In y (symbols (snd (fetch_and_store_markets exchange_name
                                   markets db)))
          /\ Symbol.exchange_id y = Exchange.id x
          /\ Symbol.symbol y = Market.symbol m)
  /\ (forall y,
        In y (symbols (snd (fetch_and_store_markets exchange_name
                              markets db))) ->
        In y (symbols db)
        \/ exists m, In m markets /\ countable m = true
                     /\ Symbol.symbol y = Market.symbol m
                     /\ Symbol.base_currency y = Market.base m
                     /\ Symbol.quote_currency y = Market.quote m).
Proof.
  split.
  { intros session eid s b q info H. unfold get_or_create_symbol.
    now rewrite H. }
  unfold fetch_and_store_markets.
  assert (Hx : exists x s0,
             get_or_create_exchange (session_maker db) exchange_name
               (_get_exchange_type exchange_name) = (x, s0)
             /\ In x (visible_exchanges s0)
             /\ Exchange.name x = exchange_name
             /\ symbols (pending s0) = []
             /\ committed s0 = db).
  { unfold get_or_create_exchange.
    destruct (query_exchange (session_maker db) exchange_name) as [x|] eqn:Hq.
    - apply find_some in Hq. destruct Hq as [Hin Hn].
      apply String.eqb_eq in Hn. eauto 10.
    - eexists. eexists. split; [reflexivity|].
      unfold visible_exchanges. cbn. rewrite in_app_iff. cbn. auto 10. }
  destruct Hx as (x & s0 & -> & Hin & Hname & Hp & Hc).
  destruct (store_markets_spec (Exchange.id x) markets s0 0)
    as (new & -> & H1 & H2).
  cbn [fst snd committed commit symbols exchanges].
  unfold visible_symbols, visible_exchanges in *.
  cbn [committed pending symbols exchanges].
  rewrite Hp, Hc in *. cbn [app] in *.
  split; [reflexivity|]. split.
  - intros m Hm Hcm. destruct (H2 m Hm Hcm) as (y & Hy & He & Hs).
    rewrite app_nil_r in Hy. exists x, y. repeat split; auto.
  - intros y Hy. apply in_app_iff in Hy. destruct Hy as [Hy|Hy]; auto.
    right. destruct (H1 y Hy) as (m & Hm & K1 & K2 & K3 & K4 & _). eauto 10.
Qed.











(* ------------------------------------------------------------------ *)
(** ** The worked runs *)

Lemma storable_consistent G : Forall storable G -> consistent G.
Proof.
  intros H ts o h l c v o' h' l' c' v' _ Hin _.
  rewrite Forall_forall in H. exact (H _ Hin).
Qed.

(** The scenario of the specification: a page with timestamps 0 and 1, a
    fetch that raises, a page with timestamps 2 and 3, an empty page. *)
Example concrete_scenario :
  exists tr, first_run = Returned 4 0 3 scenario_db tr
             /\ map OHLCV.timestamp (ohlcv scenario_db) = [0; 1; 2; 3]
             /\ fetched tr = [0; 2; 86400002; 4].
Proof. eexists. split; [vm_compute; reflexivity|]. split; reflexivity. Qed.

(** Ten pages with the interval of the source: one commit after the tenth
    page, then the commit after the loop and the one of the session
    context, both with nothing left to write. *)
Example ten_pages_one_periodic_commit :
  commits
    (outcome_trace
       (continuous_backfill_ohlcv steady_store db_btc "binance" "BTC/USDT"
          "1h" 0 None))
  = [(Periodic 10, 10%nat, true); (Final, 0%nat, true);
     (SessionExit, 0%nat, true)].
Proof. vm_compute. reflexivity. Qed.

Lemma backfill_idempotent_witness :
  consistent (all_candles (responses scenario))
  /\ exists tr2,
       continuous_backfill_ohlcv scenario scenario_db "binance" "BTC/USDT"
         "1h" 0 None = Returned 0 0 3 scenario_db tr2
       /\ added tr2 = [].
Proof.
  assert (H : consistent (all_candles (responses scenario))).
  { apply storable_consistent. concrete_forall. }
  split; [exact H|].
  apply (proj2 backfill_idempotent scenario db_btc "binance" "BTC/USDT" "1h"
           0 None 4%nat 0 3 scenario_db (outcome_trace first_run) H).
  vm_compute. reflexivity.
Defined.

(** C2 (bound respect), at the input where the code departs from it: with
    the end bound at the epoch ([end_date = '1970-01-01T00:00:00Z'], parsed
    to 0) the truth tests of lines 215 and 227 take the bound for absent,
    and the candle of 2020-01-01, which lies after the bound, is looked
    up, staged and stored. *)
Theorem epoch_bound_is_ignored :
  match continuous_backfill_ohlcv one_candle db_btc "binance" "BTC/USDT" "1h"
          new_year_2020 (Some 0) with
  | Returned n _ _ db' tr =>
      n = 1%nat
      /\ map OHLCV.timestamp (added tr) = [new_year_2020]
      /\ map OHLCV.timestamp (ohlcv db') = [new_year_2020]
      /\ 0 <= new_year_2020
  | _ => False
  end.
Proof. vm_compute. repeat split; discriminate. Qed.

Lemma cursor_strictly_increasing_witness :
  Forall honest_fetch
    (outcome_trace
       (continuous_backfill_ohlcv honest db_btc "binance" "BTC/USDT" "1h"
          0 None))
  /\ StronglySorted Z.lt
       (fetched
          (outcome_trace
             (continuous_backfill_ohlcv honest db_btc "binance" "BTC/USDT"
                "1h" 0 None))).
Proof.
  assert (H : Forall honest_fetch
                (outcome_trace
                   (continuous_backfill_ohlcv honest db_btc "binance"
                      "BTC/USDT" "1h" 0 None))).
  { vm_compute. repeat (constructor; try discriminate). }
  split; [exact H|].
  exact (proj2 cursor_strictly_increasing honest db_btc "binance" "BTC/USDT"
           "1h" 0 None H).
Defined.



Lemma periodic_commit_error_is_caught_witness :
  (10 mod 10 = 0)%nat
  /\ can_commit flaky_store (Periodic 10) (session staged_locals) = false
  /\ exists l',
       commit_batch 10 flaky_store
         (mkLocals (since staged_locals) (session staged_locals)
            (total_records staged_locals) (all_timestamps staged_locals)
            10 (trace staged_locals))
       = Recover l'
       /\ pending (session l') = empty_database
       /\ inactive (session l') = true.
Proof.
  destruct periodic_commit_error_is_caught as (_ & Hc & _).
  split; [reflexivity|]. split; [reflexivity|].
  eexists. split.
  - exact (Hc 10%nat flaky_store
             (mkLocals (since staged_locals) (session staged_locals)
                (total_records staged_locals)
                (all_timestamps staged_locals) 10 (trace staged_locals))
             eq_refl eq_refl).
  - split; reflexivity.
Defined.

(** The part of C5 the code keeps: a store that raises at the commit
    after the loop.  The caller gets the error, the transaction is rolled
    back, and the two rows staged are not stored. *)
Example final_commit_error_reaches_the_caller :
  match continuous_backfill_ohlcv broken_store db_btc "binance" "BTC/USDT"
          "1h" 0 None with
  | Raises db' tr =>
      commits tr = [(Final, 2%nat, false)]
      /\ List.length (added tr) = 2%nat
      /\ db' = db_btc
  | _ => False
  end.
Proof. vm_compute. repeat split. Qed.

Lemma range_accuracy_witness :
  observed (outcome_trace first_run) <> []
  /\ In 0 (observed (outcome_trace first_run))
  /\ In 3 (observed (outcome_trace first_run))
  /\ forall t, In t (observed (outcome_trace first_run)) -> 0 <= t <= 3.
Proof.
  assert (Hne : observed (outcome_trace first_run) <> [])
    by (vm_compute; discriminate).
  split; [exact Hne|].
  apply (range_accuracy scenario db_btc "binance" "BTC/USDT" "1h" 0 None
           4 0 3 scenario_db (outcome_trace first_run)).
  - vm_compute. reflexivity.
  - exact Hne.
Defined.

(** C7 (termination), at the input where the code departs from it: with
    the end bound at the epoch (parsed to 0) and a page whose first candle
    is of 2020-01-01, after the bound, the loop does not stop: the page is
    processed, its candle is observed, and a second fetch follows. *)
Theorem epoch_bound_does_not_stop_the_loop :
  match iteration 10 one_candle btc_usdt "1h" (Some 0)
          (FetchReturns [flat new_year_2020])
          (initial_locals new_year_2020 (session_maker db_btc)) with
  | Continue l' =>
      0 <= item0 (flat new_year_2020)
      /\ all_timestamps l' = [new_year_2020]
      /\ since l' = new_year_2020 + 1
  | _ => False
  end
  /\ fetched
       (outcome_trace
          (continuous_backfill_ohlcv one_candle db_btc "binance" "BTC/USDT"
             "1h" new_year_2020 (Some 0)))
     = [new_year_2020; new_year_2020 + 1].
Proof. vm_compute. repeat split; discriminate. Qed.



Lemma unresolved_symbol_raises_witness :
  continuous_backfill_ohlcv scenario db_btc "binance" "ETH/USDT" "1h" 0 None
  = Raises db_btc [ERollback].
Proof.
  apply (unresolved_symbol_raises scenario db_btc "binance" "ETH/USDT" "1h"
           0 None).
  intros x y [<-|[]] _ [<-|[]] _. discriminate.
Defined.

Lemma inactive_market_not_counted :
  Market.active eth_inactive = false
  /\ currency_names_too_long (Market.base eth_inactive)
       (Market.quote eth_inactive) = false
  /\ fetch_and_store_markets "binance" [eth_inactive] empty_database
     = (0%nat, mkDatabase [binance] [] []).
Proof. repeat split. Qed.

(** The length check of line 51 counts characters, not bytes: a base
    currency of four Chinese characters is short enough, and its market
    is stored and counted. *)
Example len_counts_characters :
  String.length (Market.base four_characters) = 12%nat
  /\ len (Market.base four_characters) = 4%nat
  /\ countable four_characters = true
  /\ fst (fetch_and_store_markets "binance" [four_characters]
            empty_database) = 1%nat.
Proof. repeat split. Qed.

Lemma markets_counted_witness :
  fst (fetch_and_store_markets "binance" three_markets empty_database)
  = 1%nat.
Proof.
  exact (proj1 (proj2 (markets_counted "binance" three_markets
                         empty_database))).
Defined.

(* ------------------------------------------------------------------ *)
(** ** Further properties of the ingestion path *)

(** *** Enumerations *)

Lemma TimeFrame_of_value_members t :
  TimeFrame_of_value (TimeFrame_value t) = Some t.
Proof. destruct t; reflexivity. Qed.

Lemma TimeFrame_of_value_sound s t :
  TimeFrame_of_value s = Some t -> TimeFrame_value t = s.
Proof.
  unfold TimeFrame_of_value. intros H. apply find_some in H.
  destruct H as [_ H]. now apply String.eqb_eq in H.
Qed.

(** X1.  Looking a member's value up in the TimeFrame enumeration gives
    that member back, a string is accepted by TimeFrame(...) exactly
    when it is the value of the member returned, and no two members
    share a value. *)
Theorem TimeFrame_round_trip :
  (forall t, TimeFrame_of_value (TimeFrame_value t) = Some t)
  /\ (forall s t, TimeFrame_of_value s = Some t <-> TimeFrame_value t = s)
  /\ (forall t t', TimeFrame_value t = TimeFrame_value t' -> t = t').
Proof.
  split; [exact TimeFrame_of_value_members|]. split.
  - intros s t. split; [apply TimeFrame_of_value_sound|].
    intros <-. apply TimeFrame_of_value_members.
  - intros t t' H.
    pose proof (TimeFrame_of_value_members t) as H1.
    rewrite H, TimeFrame_of_value_members in H1. congruence.
Qed.

(** X2.  _get_exchange_type maps the value of every ExchangeType member
    back to that member, and every name that is not the value of a
    member other than OTHER to ExchangeType.OTHER (the default of the
    dictionary lookup). *)
Theorem exchange_type_of_its_value :
  (forall t, _get_exchange_type (ExchangeType_value t) = t)
  /\ (forall name,
        (forall t, t <> OTHER -> ExchangeType_value t <> name) ->
        _get_exchange_type name = OTHER).
Proof.
  split; [intros t; destruct t; reflexivity|].
  intros name H. unfold _get_exchange_type.
  destruct (String.eqb_spec name "binance") as [->|_];
    [now contradiction (H BINANCE)|].
  destruct (String.eqb_spec name "coinbase") as [->|_];
    [now contradiction (H COINBASE)|].
  destruct (String.eqb_spec name "kraken") as [->|_];
    [now contradiction (H KRAKEN)|].
  destruct (String.eqb_spec name "kucoin") as [->|_];
    [now contradiction (H KUCOIN)|].
  destruct (String.eqb_spec name "bybit") as [->|_];
    [now contradiction (H BYBIT)|].
  reflexivity.
Qed.

(** *** Intervals *)

(** X3.  Among the values of the TimeFrame enumeration interval_mapping
    knows exactly [1m], [1h] and [1d] and answers None for the others;
    it also knows [1s], which TimeFrame does not accept; whatever it
    returns is one of the keyword names seconds, minutes, hours, days of
    subtract_interval_from_timestamp. *)
Theorem interval_mapping_of_timeframes :
  (forall t,
     interval_mapping (TimeFrame_value t) <> None
     <-> t = MINUTE_1 \/ t = HOUR_1 \/ t = DAY_1)
  /\ interval_mapping "1s" = Some "seconds"
  /\ TimeFrame_of_value "1s" = None
  /\ (forall s k,
        interval_mapping s = Some k ->
        In k ["seconds"; "minutes"; "hours"; "days"]).
Proof.
  split; [|split; [reflexivity|split; [reflexivity|]]].
  - intros t. split.
    + destruct t; cbn; intros H; auto; now contradiction H.
    + intros [-> | [-> | ->]]; discriminate.
  - intros s k. unfold interval_mapping.
    destruct (String.eqb s "1s"); [intros H; inversion H; cbn; auto|].
    destruct (String.eqb s "1m"); [intros H; inversion H; cbn; auto|].
    destruct (String.eqb s "1h"); [intros H; inversion H; cbn; auto|].
    destruct (String.eqb s "1d"); [intros H; inversion H; cbn; auto 6|].
    discriminate.
Qed.

(** X4.  Two subtractions by subtract_interval_from_timestamp equal one
    subtraction of the summed intervals, subtracting the negated
    interval undoes a subtraction, and a day counts as 24 hours, an hour
    as 60 minutes, a minute as 60 seconds. *)
Theorem subtract_interval_composes t s m h d s' m' h' d' :
  subtract_interval_from_timestamp
    (subtract_interval_from_timestamp t s m h d) s' m' h' d'
  = subtract_interval_from_timestamp t (s + s') (m + m') (h + h') (d + d')
  /\ subtract_interval_from_timestamp
       (subtract_interval_from_timestamp t s m h d) (- s) (- m) (- h) (- d)
     = t
  /\ subtract_interval_from_timestamp t 0 0 0 d
     = subtract_interval_from_timestamp t 0 0 (24 * d) 0
  /\ subtract_interval_from_timestamp t 0 0 h 0
     = subtract_interval_from_timestamp t 0 (60 * h) 0 0
  /\ subtract_interval_from_timestamp t 0 m 0 0
     = subtract_interval_from_timestamp t (60 * m) 0 0 0.
Proof. unfold subtract_interval_from_timestamp. repeat split; lia. Qed.

(** *** Exchanges and symbols: get or create *)

Lemma find_app_split (A : Type) (f : A -> bool) (l m : list A) :
  find f (l ++ m) = match find f l with Some y => Some y | None => find f m end.
Proof.
  induction l as [|a l IH]; cbn; [reflexivity|]. now destruct (f a).
Qed.

Lemma visible_exchanges_add s x :
  visible_exchanges (add_exchange s x) = visible_exchanges s ++ [x].
Proof. unfold visible_exchanges, add_exchange. cbn. apply app_assoc. Qed.

Lemma visible_symbols_add s y :
  visible_symbols (add_symbol s y) = visible_symbols s ++ [y].
Proof. unfold visible_symbols, add_symbol. cbn. apply app_assoc. Qed.

Lemma get_or_create_exchange_lookup session name exchange_type :
  query_exchange (snd (get_or_create_exchange session name exchange_type)) name
  = Some (fst (get_or_create_exchange session name exchange_type))
  /\ committed (snd (get_or_create_exchange session name exchange_type))
     = committed session
  /\ symbols (pending (snd (get_or_create_exchange session name
                              exchange_type)))
     = symbols (pending session).
Proof.
  unfold get_or_create_exchange.
  destruct (query_exchange session name) as [x|] eqn:Hq; cbn [fst snd].
  - auto.
  - repeat split. unfold query_exchange in *.
    rewrite visible_exchanges_add, find_app_split, Hq.
    cbn. now rewrite String.eqb_refl.
Qed.

(** X5.  After get_or_create_exchange the lookup by name finds the
    exchange returned, which carries the requested name; a second call
    with any type returns the same exchange and adds nothing; an
    existing exchange is returned with the session untouched (its stored
    type is kept); a missing one is appended with the requested type;
    symbols and candles are not touched. *)
Theorem get_or_create_exchange_finds_it session name exchange_type :
  query_exchange (snd (get_or_create_exchange session name exchange_type)) name
  = Some (fst (get_or_create_exchange session name exchange_type))
  /\ Exchange.name (fst (get_or_create_exchange session name exchange_type))
     = name
  /\ (forall other_type,
        get_or_create_exchange
          (snd (get_or_create_exchange session name exchange_type))
          name other_type
        = get_or_create_exchange session name exchange_type)
  /\ (forall x0,
        query_exchange session name = Some x0 ->
        get_or_create_exchange session name exchange_type = (x0, session))
  /\ (query_exchange session name = None ->
      visible_exchanges (snd (get_or_create_exchange session name
                                exchange_type))
      = visible_exchanges session
        ++ [fst (get_or_create_exchange session name exchange_type)]
      /\ Exchange.exchange_type
           (fst (get_or_create_exchange session name exchange_type))
         = exchange_type)
  /\ visible_symbols (snd (get_or_create_exchange session name exchange_type))
     = visible_symbols session
  /\ visible_ohlcv (snd (get_or_create_exchange session name exchange_type))
     = visible_ohlcv session.
Proof.
  unfold get_or_create_exchange.
  destruct (query_exchange session name) as [x|] eqn:Hq; cbn [fst snd].
  - pose proof (find_some _ _ Hq) as [_ Hn]. apply String.eqb_eq in Hn.
    repeat split; auto; try discriminate.
    + intros ty'. now rewrite Hq.
    + intros x0 H. congruence.
  - assert (Hq' : query_exchange
                    (add_exchange session
                       (Exchange.mk (new_uuid session) name exchange_type
                          "UTC")) name
                  = Some (Exchange.mk (new_uuid session) name exchange_type
                            "UTC")).
    { unfold query_exchange in *. rewrite visible_exchanges_add, find_app_split, Hq.
      cbn. now rewrite String.eqb_refl. }
    repeat split; auto; try discriminate.
    + intros ty'. now rewrite Hq'.
    + apply visible_exchanges_add.
Qed.

Lemma query_symbol_add session eid s y :
  query_symbol session eid s = None ->
  Symbol.exchange_id y = eid -> Symbol.symbol y = s ->
  query_symbol (add_symbol session y) eid s = Some y.
Proof.
  intros Hq He Hs. unfold query_symbol in *.
  rewrite visible_symbols_add, find_app_split, Hq. cbn.
  unfold symbol_matches. now rewrite He, Hs, Nat.eqb_refl, String.eqb_refl.
Qed.

(** X6.  When neither currency name is longer than 10 characters
    get_or_create_symbol returns a row for the requested exchange id and
    symbol, the lookup by (exchange_id, symbol) then finds that row, a
    second call returns it without adding anything, an existing row is
    returned with the session untouched, and a missing one is appended
    as an active symbol with the given base and quote. *)
Theorem get_or_create_symbol_finds_it session eid s b q info :
  currency_names_too_long b q = false ->
  exists y,
    fst (get_or_create_symbol session eid s b q info) = Some y
    /\ query_symbol (snd (get_or_create_symbol session eid s b q info)) eid s
       = Some y
    /\ Symbol.exchange_id y = eid /\ Symbol.symbol y = s
    /\ (forall b' q' info',
          currency_names_too_long b' q' = false ->
          get_or_create_symbol
            (snd (get_or_create_symbol session eid s b q info))
            eid s b' q' info'
          = get_or_create_symbol session eid s b q info)
    /\ (forall y0,
          query_symbol session eid s = Some y0 ->
          get_or_create_symbol session eid s b q info = (Some y0, session))
    /\ (query_symbol session eid s = None ->
        visible_symbols (snd (get_or_create_symbol session eid s b q info))
        = visible_symbols session ++ [y]
        /\ Symbol.base_currency y = b /\ Symbol.quote_currency y = q
        /\ Symbol.is_active y = true).
Proof.
  intros Hshort. unfold get_or_create_symbol. rewrite Hshort.
  destruct (query_symbol session eid s) as [y|] eqn:Hq; cbn [fst snd].
  - pose proof (find_some _ _ Hq) as [_ Hm].
    apply symbol_matches_spec in Hm. destruct Hm as [He Hs].
    exists y. repeat split; auto; try discriminate.
    + intros b' q' info' Hs'. now rewrite Hs', Hq.
    + intros y0 H. congruence.
  - match goal with |- context [add_symbol session ?y0] => set (y := y0) end.
    assert (He : Symbol.exchange_id y = eid) by (subst y; now destruct info).
    assert (Hs : Symbol.symbol y = s) by (subst y; now destruct info).
    pose proof (query_symbol_add session eid s y Hq He Hs) as Hq'.
    exists y. repeat split; auto; try discriminate;
      try (subst y; now destruct info).
    + intros b' q' info' Hs'. now rewrite Hs', Hq'.
    + apply visible_symbols_add.
Qed.

(** *** Market synchronisation, run again and counted *)

Lemma get_or_create_symbol_cases session eid s b q info :
  currency_names_too_long b q = false ->
  (exists y0, query_symbol session eid s = Some y0
              /\ get_or_create_symbol session eid s b q info
                 = (Some y0, session))
  \/ (query_symbol session eid s = None
      /\ exists y, get_or_create_symbol session eid s b q info
                   = (Some y, add_symbol session y)
                   /\ symbol_key y = (eid, s)
                   /\ Symbol.is_active y = true).
Proof.
  intros Hs. unfold get_or_create_symbol. rewrite Hs.
  destruct (query_symbol session eid s) as [y|]; [left; eauto|].
  right. split; [reflexivity|]. destruct info; eexists; repeat split.
Qed.

Lemma symbol_key_fresh session eid s y :
  query_symbol session eid s = None ->
  symbol_key y = (eid, s) ->
  ~ In (symbol_key y) (map symbol_key (visible_symbols session)).
Proof.
  intros Hq Hk Hin. apply in_map_iff in Hin.
  destruct Hin as (z & Hz & Hin).
  pose proof (find_none _ _ Hq z Hin) as Hm.
  rewrite Hk in Hz. unfold symbol_key in Hz. inversion Hz as [[He Hs]].
  unfold symbol_matches in Hm. rewrite He, Hs, Nat.eqb_refl, String.eqb_refl in Hm.
  discriminate.
Qed.

Lemma NoDup_snoc (A : Type) (l : list A) (a : A) :
  NoDup l -> ~ In a l -> NoDup (l ++ [a]).
Proof.
  intros Hl Ha. apply NoDup_app; auto.
  - constructor; [intros []|constructor].
  - intros x Hx [<-|[]]. contradiction.
Qed.

Lemma store_markets_delta eid markets :
  forall session n,
  exists new,
    visible_symbols (snd (store_markets eid markets session n))
    = visible_symbols session ++ new
    /\ (List.length new
        <= fst (store_markets eid markets session n) - n)%nat
    /\ Forall (fun y => Symbol.is_active y = true) new
    /\ visible_exchanges (snd (store_markets eid markets session n))
       = visible_exchanges session
    /\ visible_ohlcv (snd (store_markets eid markets session n))
       = visible_ohlcv session
    /\ (NoDup (map symbol_key (visible_symbols session)) ->
        NoDup (map symbol_key
                 (visible_symbols (snd (store_markets eid markets session n))))).
Proof.
  induction markets as [|m rest IH]; intros session n; cbn [store_markets].
  - exists []. cbn. rewrite app_nil_r. repeat split; auto. lia.
  - destruct (Market.active m); [|apply IH].
    destruct (currency_names_too_long (Market.base m) (Market.quote m)) eqn:Hl.
    { unfold get_or_create_symbol. rewrite Hl. apply IH. }
    destruct (get_or_create_symbol_cases session eid (Market.symbol m)
                (Market.base m) (Market.quote m) (Some m) Hl)
      as [(y0 & Hq & ->)|(Hq & y & -> & Hk & Ha)].
    + destruct (IH session (S n)) as (new & H1 & H2 & H3 & H4 & H5 & H6).
      exists new. repeat split; auto. lia.
    + destruct (IH (add_symbol session y) (S n))
        as (new & H1 & H2 & H3 & H4 & H5 & H6).
      exists (y :: new). split; [|split; [|split; [|split; [|split]]]]; auto.
      * rewrite H1, visible_symbols_add, <- app_assoc. reflexivity.
      * cbn [List.length].
        pose proof (store_markets_spec eid rest (add_symbol session y)
                      (S n)) as (new' & Hsp & _).
        rewrite Hsp in *. cbn [fst] in *. lia.
      * intros Hnd. apply H6. rewrite visible_symbols_add, map_app.
        apply NoDup_snoc; auto. cbn. eapply symbol_key_fresh; eauto.
Qed.

Lemma store_markets_all_present eid markets :
  forall session n,
    (forall m, In m markets -> countable m = true ->
               query_symbol session eid (Market.symbol m) <> None) ->
    store_markets eid markets session n
    = ((n + List.length (filter countable markets))%nat, session).
Proof.
  induction markets as [|m rest IH]; intros session n H;
    cbn [store_markets filter].
  - cbn. now rewrite Nat.add_0_r.
  - assert (Hrest : forall m', In m' rest -> countable m' = true ->
                      query_symbol session eid (Market.symbol m') <> None)
      by (intros; apply H; [now right|assumption]).
    unfold countable at 1.
    destruct (Market.active m) eqn:Ha; cbn [andb]; [|now apply IH].
    destruct (currency_names_too_long (Market.base m) (Market.quote m)) eqn:Hl;
      cbn [negb].
    { unfold get_or_create_symbol. rewrite Hl. now apply IH. }
    destruct (get_or_create_symbol_cases session eid (Market.symbol m)
                (Market.base m) (Market.quote m) (Some m) Hl)
      as [(y0 & Hq & ->)|(Hq & _)].
    + rewrite (IH session (S n) Hrest). cbn [List.length]. f_equal. lia.
    + exfalso. apply (H m (or_introl eq_refl)); [|exact Hq].
      unfold countable. now rewrite Ha, Hl.
Qed.

(** X7.  Running fetch_and_store_markets a second time on the same
    market list returns the same count and leaves the database exactly
    as the first run left it. *)
Theorem markets_sync_idempotent exchange_name markets db :
  fetch_and_store_markets exchange_name markets
    (snd (fetch_and_store_markets exchange_name markets db))
  = fetch_and_store_markets exchange_name markets db.
Proof.
  unfold fetch_and_store_markets.
  set (ty := _get_exchange_type exchange_name).
  pose proof (get_or_create_exchange_lookup (session_maker db) exchange_name ty)
    as Hx.
  destruct (get_or_create_exchange (session_maker db) exchange_name ty)
    as [x s0] eqn:Hg.
  destruct Hx as (Hq0 & Hc0 & Hsy0).
  destruct (store_markets_spec (Exchange.id x) markets s0 0)
    as (new & Hsm & _ & Hpresent).
  rewrite Hsm. cbn [fst snd].
  set (s1 := mkSession (committed s0)
               (mkDatabase (exchanges (pending s0))
                  (symbols (pending s0) ++ new) (ohlcv (pending s0)))
               (inactive s0)).
  set (db1 := committed (commit s1)).
  assert (Hq1 : query_exchange (session_maker db1) exchange_name = Some x).
  { unfold query_exchange in *. unfold visible_exchanges in *. cbn.
    now rewrite app_nil_r. }
  unfold get_or_create_exchange at 1. rewrite Hq1.
  rewrite (store_markets_all_present (Exchange.id x) markets
             (session_maker db1) 0).
  - cbn [fst snd]. now rewrite (commit_idle (session_maker db1) (conj eq_refl eq_refl)).
  - intros m Hm Hcm. destruct (Hpresent m Hm Hcm) as (y & Hy & He & Hs).
    unfold query_symbol. intros Hnone.
    assert (Hin : In y (visible_symbols (session_maker db1))).
    { unfold visible_symbols in *. cbn. rewrite app_nil_r.
      unfold visible_symbols, s1. cbn. rewrite app_assoc. exact Hy. }
    pose proof (find_none _ _ Hnone y Hin) as Hf.
    unfold symbol_matches in Hf.
    rewrite He, Hs, Nat.eqb_refl, String.eqb_refl in Hf. discriminate.
Qed.

Lemma get_or_create_exchange_finds_the_rest session name exchange_type :
  visible_symbols (snd (get_or_create_exchange session name exchange_type))
  = visible_symbols session
  /\ visible_ohlcv (snd (get_or_create_exchange session name exchange_type))
     = visible_ohlcv session.
Proof.
  unfold get_or_create_exchange.
  destruct (query_exchange session name); split; reflexivity.
Qed.

Lemma sync_shape exchange_name markets db :
  exists x s0 new,
    get_or_create_exchange (session_maker db) exchange_name
      (_get_exchange_type exchange_name) = (x, s0)
    /\ exchanges (snd (fetch_and_store_markets exchange_name markets db))
       = visible_exchanges s0
    /\ symbols (snd (fetch_and_store_markets exchange_name markets db))
       = symbols db ++ new
    /\ ohlcv (snd (fetch_and_store_markets exchange_name markets db))
       = ohlcv db
    /\ (List.length new
        <= fst (fetch_and_store_markets exchange_name markets db))%nat
    /\ Forall (fun y => Symbol.is_active y = true) new
    /\ (NoDup (map symbol_key (symbols db)) ->
        NoDup (map symbol_key
                 (symbols (snd (fetch_and_store_markets exchange_name markets
                                  db))))).
Proof.
  unfold fetch_and_store_markets.
  pose proof (get_or_create_exchange_finds_the_rest (session_maker db)
                exchange_name (_get_exchange_type exchange_name)) as [Hs Ho].
  destruct (get_or_create_exchange (session_maker db) exchange_name
              (_get_exchange_type exchange_name)) as [x s0].
  cbn [fst snd] in Hs, Ho.
  destruct (store_markets_delta (Exchange.id x) markets s0 0)
    as (new & H1 & H2 & H3 & H4 & H5 & H6).
  destruct (store_markets (Exchange.id x) markets s0 0) as [n s1].
  cbn [fst snd] in *.
  assert (Hsyms : visible_symbols s0 = symbols db).
  { rewrite Hs. unfold visible_symbols. cbn. apply app_nil_r. }
  assert (Hrows : visible_ohlcv s0 = ohlcv db).
  { rewrite Ho. unfold visible_ohlcv. cbn. apply app_nil_r. }
  exists x, s0, new. cbn [commit committed exchanges symbols ohlcv].
  rewrite H1, H4, H5, Hsyms, Hrows. repeat split; auto.
  - lia.
  - intros Hnd. rewrite <- Hsyms, <- H1. apply H6. now rewrite Hsyms.
Qed.

Lemma name_fresh session name :
  query_exchange session name = None ->
  ~ In name (map Exchange.name (visible_exchanges session)).
Proof.
  intros Hq Hin. apply in_map_iff in Hin. destruct Hin as (z & Hz & Hin).
  pose proof (find_none _ _ Hq z Hin) as Hm. cbn in Hm.
  rewrite Hz, String.eqb_refl in Hm. discriminate.
Qed.

(** X8.  fetch_and_store_markets keeps the uniqueness constraints: if
    exchange names and (exchange_id, symbol) pairs are unique in the
    database before the call they are unique after it, whatever the
    market list holds (duplicates included). *)
Theorem markets_sync_keeps_keys_unique exchange_name markets db :
  NoDup (map Exchange.name (exchanges db)) ->
  NoDup (map symbol_key (symbols db)) ->
  NoDup (map Exchange.name
           (exchanges (snd (fetch_and_store_markets exchange_name markets
                              db))))
  /\ NoDup (map symbol_key
              (symbols (snd (fetch_and_store_markets exchange_name markets
                               db)))).
Proof.
  intros Hex Hsy.
  destruct (sync_shape exchange_name markets db)
    as (x & s0 & new & Hg & He & _ & _ & _ & _ & Hnd).
  split; [|now apply Hnd].
  rewrite He. unfold get_or_create_exchange in Hg.
  assert (Hinit : visible_exchanges (session_maker db) = exchanges db).
  { unfold visible_exchanges. cbn. apply app_nil_r. }
  destruct (query_exchange (session_maker db) exchange_name) as [x0|] eqn:Hq;
    inversion Hg; subst.
  - now rewrite Hinit.
  - rewrite visible_exchanges_add, map_app. apply NoDup_snoc.
    + now rewrite Hinit.
    + cbn. now apply name_fresh.
Qed.

Lemma filter_active_app l new :
  Forall (fun y => Symbol.is_active y = true) new ->
  List.length (filter Symbol.is_active (l ++ new))
  = (List.length (filter Symbol.is_active l) + List.length new)%nat.
Proof.
  intros H. rewrite filter_app, length_app. f_equal.
  induction H as [|y new Hy _ IH]; cbn; [reflexivity|].
  rewrite Hy. cbn. now rewrite IH.
Qed.

(** X9.  Across a fetch_and_store_markets call the numbers of
    get_market_summary change as follows: total and active symbols grow
    by the same number of created rows, which is at most the count the
    call returns; the candle count and the latest candle timestamp stay;
    the exchange count stays or grows by one. *)
Theorem summary_after_markets_sync exchange_name markets db :
  exists created,
    (created <= fst (fetch_and_store_markets exchange_name markets db))%nat
    /\ summary_total_symbols
         (get_market_summary
            (snd (fetch_and_store_markets exchange_name markets db)))
       = (summary_total_symbols (get_market_summary db) + created)%nat
    /\ summary_active_symbols
         (get_market_summary
            (snd (fetch_and_store_markets exchange_name markets db)))
       = (summary_active_symbols (get_market_summary db) + created)%nat
    /\ summary_ohlcv_records
         (get_market_summary
            (snd (fetch_and_store_markets exchange_name markets db)))
       = summary_ohlcv_records (get_market_summary db)
    /\ summary_latest_data
         (get_market_summary
            (snd (fetch_and_store_markets exchange_name markets db)))
       = summary_latest_data (get_market_summary db)
    /\ (summary_exchanges
          (get_market_summary
             (snd (fetch_and_store_markets exchange_name markets db)))
        = summary_exchanges (get_market_summary db)
        \/ summary_exchanges
             (get_market_summary
                (snd (fetch_and_store_markets exchange_name markets db)))
           = S (summary_exchanges (get_market_summary db))).
Proof.
  destruct (sync_shape exchange_name markets db)
    as (x & s0 & new & Hg & He & Hs & Ho & Hlen & Hact & _).
  exists (List.length new). unfold get_market_summary.
  cbn [summary_exchanges summary_total_symbols summary_active_symbols
       summary_ohlcv_records summary_latest_data].
  rewrite He, Hs, Ho, length_app, filter_active_app by exact Hact.
  repeat split; auto.
  unfold get_or_create_exchange in Hg.
  assert (Hinit : visible_exchanges (session_maker db) = exchanges db).
  { unfold visible_exchanges. cbn. apply app_nil_r. }
  destruct (query_exchange (session_maker db) exchange_name) as [x0|];
    inversion Hg; subst.
  - left. now rewrite Hinit.
  - right. rewrite visible_exchanges_add, length_app, Hinit. cbn. lia.
Qed.

(* ------------------------------------------------------------------ *)
(** ** One page: [fetch_and_store_ohlcv] *)

Lemma visible_ohlcv_add s r :
  visible_ohlcv (add_ohlcv s r) = visible_ohlcv s ++ [r].
Proof. unfold visible_ohlcv, add_ohlcv. cbn. now rewrite app_assoc. Qed.

Lemma database_eta db :
  mkDatabase (exchanges db) (symbols db) (ohlcv db) = db.
Proof. now destruct db. Qed.

Lemma commit_session_maker db :
  committed (commit (session_maker db)) = db.
Proof.
  unfold commit, session_maker, visible_exchanges, visible_symbols,
    visible_ohlcv. cbn. rewrite !app_nil_r. apply database_eta.
Qed.

Lemma identity_fresh s sym tf ts o h l c v r :
  query_ohlcv s (Symbol.id sym) tf ts = None ->
  new_OHLCV sym tf ts o h l c v = Some r ->
  ~ In (row_identity r) (map row_identity (visible_ohlcv s)).
Proof.
  intros Hq Hr Hin. apply in_map_iff in Hin. destruct Hin as (r' & He & Hin).
  pose proof (find_none _ _ Hq r' Hin) as Hm. cbn in Hm.
  destruct (new_OHLCV_timestamp _ _ _ _ _ _ _ _ _ Hr) as (H1 & H2 & H3 & _).
  unfold row_identity in He. injection He as E1 E2 E3.
  unfold ohlcv_matches in Hm.
  rewrite E1, E2, E3, H1, H2, H3 in Hm.
  now rewrite Nat.eqb_refl, TimeFrame_eqb_refl, Z.eqb_refl in Hm.
Qed.

Lemma served_as_more sym tf c page r :
  served_as sym tf page r -> served_as sym tf (c :: page) r.
Proof.
  intros (t & ts & o & h & l & cl & v & H1 & H2 & H3).
  exists t, ts, o, h, l, cl, v. repeat split; auto. now right.
Qed.

(** What a [for] loop that ran to its end did to the session. *)
Lemma store_candles_spec sym tf page :
  forall s n s' n',
    store_candles sym tf page s n = Some (s', n') ->
    exists new,
      committed s' = committed s
      /\ exchanges (pending s') = exchanges (pending s)
      /\ symbols (pending s') = symbols (pending s)
      /\ ohlcv (pending s') = ohlcv (pending s) ++ new
      /\ n' = (n + List.length new)%nat
      /\ Forall (served_as sym tf page) new
      /\ (NoDup (map row_identity (visible_ohlcv s)) ->
          NoDup (map row_identity (visible_ohlcv s'))).
Proof.
  induction page as [|c rest IH]; intros s n s' n' H;
    cbn [store_candles] in H.
  - inversion H; subst. exists []. rewrite app_nil_r.
    repeat split; auto.
  - destruct c as [ts o h l cl v|first]; [|discriminate].
    destruct (TimeFrame_of_value tf) as [t|] eqn:Ht; [|discriminate].
    destruct (fromtimestamp_ok ts) eqn:Hok; [|discriminate].
    destruct (query_ohlcv s (Symbol.id sym) t ts) as [found|] eqn:Hq.
    + destruct (IH _ _ _ _ H) as (new & H1 & H2 & H3 & H4 & H5 & H6 & H7).
      exists new. repeat split; auto.
      eapply Forall_impl; [|exact H6]. intros r. apply served_as_more.
    + destruct (new_OHLCV sym t ts o h l cl v) as [r|] eqn:Hr;
        [|discriminate].
      destruct (IH _ _ _ _ H) as (new & H1 & H2 & H3 & H4 & H5 & H6 & H7).
      exists (r :: new). cbn in H1, H2, H3, H4. rewrite <- app_assoc in H4.
      repeat split; auto.
      * cbn. lia.
      * constructor.
        -- exists t, ts, o, h, l, cl, v. repeat split; auto. now left.
        -- eapply Forall_impl; [|exact H6]. intros r'. apply served_as_more.
      * intros Hnd. apply H7. rewrite visible_ohlcv_add, map_app.
        apply NoDup_snoc; [exact Hnd|]. cbn.
        eapply identity_fresh; eauto.
Qed.

Lemma query_ohlcv_grows s s' rows sid tf ts :
  visible_ohlcv s' = visible_ohlcv s ++ rows ->
  query_ohlcv s sid tf ts <> None -> query_ohlcv s' sid tf ts <> None.
Proof.
  unfold query_ohlcv. intros -> H Hn. apply H. eapply find_app_none; eauto.
Qed.

Lemma store_candles_visible sym tf page :
  forall s n s' n',
    store_candles sym tf page s n = Some (s', n') ->
    exists new, visible_ohlcv s' = visible_ohlcv s ++ new.
Proof.
  intros s n s' n' H.
  destruct (store_candles_spec _ _ _ _ _ _ _ H)
    as (new & H1 & _ & _ & H4 & _).
  exists new. unfold visible_ohlcv. now rewrite H1, H4, app_assoc.
Qed.

(** After a loop that ran to its end every candle of the page is found by
    the existence check. *)
Lemma store_candles_known sym tf page :
  forall s n s' n',
    store_candles sym tf page s n = Some (s', n') ->
    forall s2 more,
      visible_ohlcv s2 = visible_ohlcv s' ++ more ->
      forall k, store_candles sym tf page s2 k = Some (s2, k).
Proof.
  induction page as [|c rest IH]; intros s n s' n' H s2 more Hvis k;
    cbn [store_candles] in H |- *; [reflexivity|].
  destruct c as [ts o h l cl v|first]; [|discriminate].
  destruct (TimeFrame_of_value tf) as [t|] eqn:Ht; [|discriminate].
  destruct (fromtimestamp_ok ts) eqn:Hok; [|discriminate].
  assert (Hfound : query_ohlcv s2 (Symbol.id sym) t ts <> None).
  { destruct (query_ohlcv s (Symbol.id sym) t ts) as [found|] eqn:Hq.
    - destruct (store_candles_visible _ _ _ _ _ _ _ H) as (new & Hn).
      apply (query_ohlcv_grows s s2 (new ++ more)).
      + now rewrite Hvis, Hn, app_assoc.
      + congruence.
    - destruct (new_OHLCV sym t ts o h l cl v) as [r|] eqn:Hr;
        [|discriminate].
      destruct (store_candles_visible _ _ _ _ _ _ _ H) as (new & Hn).
      rewrite visible_ohlcv_add in Hn.
      unfold query_ohlcv. rewrite Hvis, Hn.
      intros Hnone.
      pose proof (find_none _ _ Hnone r) as Hm.
      rewrite (new_OHLCV_matches _ _ _ _ _ _ _ _ _ Hr) in Hm.
      discriminate Hm. rewrite !in_app_iff. left. left. right. now left. }
  destruct (query_ohlcv s2 (Symbol.id sym) t ts) as [found2|];
    [|congruence].
  destruct (query_ohlcv s (Symbol.id sym) t ts) as [found|].
  - eapply IH; eauto.
  - destruct (new_OHLCV sym t ts o h l cl v) as [r|]; [|discriminate].
    eapply IH; eauto.
Qed.

Lemma visible_session_maker db :
  visible_exchanges (session_maker db) = exchanges db
  /\ visible_symbols (session_maker db) = symbols db
  /\ visible_ohlcv (session_maker db) = ohlcv db.
Proof.
  unfold visible_exchanges, visible_symbols, visible_ohlcv. cbn.
  now rewrite !app_nil_r.
Qed.

Lemma last_cons_default (A : Type) (xs : list A) :
  forall x d, last (x :: xs) d = last xs x.
Proof.
  induction xs as [|c cs IH]; intros x d; [reflexivity|].
  change (last (x :: c :: cs) d) with (last (c :: cs) d).
  now rewrite (IH c d), (IH c x).
Qed.

(** The shape of a call that stored a page. *)
Lemma page_stored_inv answer ok db ex sym tf n ts db' :
  fetch_and_store_ohlcv answer ok db ex sym tf = PageStored n ts db' ->
  exists y c0 cs stored,
    _get_db_symbol (session_maker db) ex sym = Some y
    /\ answer = FetchReturns (c0 :: cs)
    /\ ok = true
    /\ store_candles y tf (c0 :: cs) (session_maker db) 0 = Some (stored, n)
    /\ ts = item0 (last cs c0) + 1
    /\ db' = committed (commit stored).
Proof.
  unfold fetch_and_store_ohlcv. intros H.
  destruct (_get_db_symbol (session_maker db) ex sym) as [y|];
    [|discriminate].
  destruct answer as [|[|c0 cs]]; try discriminate.
  - destruct ok; discriminate.
  - destruct (store_candles y tf (c0 :: cs) (session_maker db) 0)
      as [[stored k]|] eqn:Hs; [|discriminate].
    destruct ok; [|discriminate]. inversion H; subst.
    exists y, c0, cs, stored. repeat split; auto.
Qed.

Lemma page_stored_rows y tf page db stored n :
  store_candles y tf page (session_maker db) 0 = Some (stored, n) ->
  exists new,
    committed (commit stored)
    = mkDatabase (exchanges db) (symbols db) (ohlcv db ++ new)
    /\ List.length new = n
    /\ Forall (served_as y tf page) new
    /\ (NoDup (map row_identity (ohlcv db)) ->
        NoDup (map row_identity (ohlcv db ++ new))).
Proof.
  intros Hs.
  destruct (store_candles_spec _ _ _ _ _ _ _ Hs)
    as (new & H1 & H2 & H3 & H4 & H5 & H6 & H7).
  exists new. cbn in H1, H2, H3, H4, H5.
  destruct (visible_session_maker db) as (_ & _ & Hv).
  assert (Hvis : visible_ohlcv stored = ohlcv db ++ new).
  { unfold visible_ohlcv. now rewrite H1, H4. }
  repeat split; auto.
  - unfold commit. cbn [committed]. unfold visible_exchanges, visible_symbols.
    rewrite Hvis, H1, H2, H3. cbn. now rewrite !app_nil_r.
  - intros Hnd. rewrite <- Hvis. apply H7. now rewrite Hv.
Qed.

Lemma page_without_new_records_shape answer ok db ex sym tf :
  match fetch_and_store_ohlcv answer ok db ex sym tf with
  | PageRaises db' => db' = db
  | PageEmpty db' => db' = db
  | PageStored 0 _ db' => db' = db
  | PageStored (S _) _ _ => True
  end.
Proof.
  destruct (fetch_and_store_ohlcv answer ok db ex sym tf)
    as [db'|n ts db'|db'] eqn:H.
  - unfold fetch_and_store_ohlcv in H.
    destruct (_get_db_symbol (session_maker db) ex sym) as [y|];
      [|discriminate].
    destruct answer as [|[|c0 cs]]; try discriminate.
    + destruct ok; inversion H. apply commit_session_maker.
    + destruct (store_candles y tf (c0 :: cs) (session_maker db) 0)
        as [[stored k]|]; [destruct ok|]; discriminate.
  - destruct n as [|n]; [|exact I].
    destruct (page_stored_inv _ _ _ _ _ _ _ _ _ H)
      as (y & c0 & cs & stored & _ & _ & _ & Hs & _ & ->).
    destruct (page_stored_rows _ _ _ _ _ _ Hs) as (new & Hdb & Hlen & _).
    rewrite Hdb. destruct new; [|discriminate].
    rewrite app_nil_r. apply database_eta.
  - unfold fetch_and_store_ohlcv in H.
    destruct (_get_db_symbol (session_maker db) ex sym) as [y|];
      [|now inversion H].
    destruct answer as [|[|c0 cs]].
    + now inversion H.
    + destruct ok; now inversion H.
    + destruct (store_candles y tf (c0 :: cs) (session_maker db) 0)
        as [[stored k]|] eqn:Hs; [|now inversion H].
      destruct ok; inversion H.
      destruct (store_candles_spec _ _ _ _ _ _ _ Hs) as (new & Hc & _).
      cbn [rollback committed]. exact Hc.
Qed.

(** X10.  When fetch_and_store_ohlcv returns (records_processed,
    new_timestamp) for a non-empty page, the symbol resolved,
    new_timestamp is the first item of the page's last candle plus 1,
    exchanges and symbols are unchanged, and the candle table is the old
    one followed by exactly records_processed new rows, each built from
    a candle of the page with the resolved symbol's ids and the
    requested timeframe. *)
Theorem page_accounting answer ok db ex sym tf n ts db' :
  fetch_and_store_ohlcv answer ok db ex sym tf = PageStored n ts db' ->
  exists y page new,
    _get_db_symbol (session_maker db) ex sym = Some y
    /\ answer = FetchReturns page
    /\ (forall d, ts = item0 (last page d) + 1)
    /\ exchanges db' = exchanges db
    /\ symbols db' = symbols db
    /\ ohlcv db' = ohlcv db ++ new
    /\ List.length new = n
    /\ Forall (served_as y tf page) new.
Proof.
  intros H.
  destruct (page_stored_inv _ _ _ _ _ _ _ _ _ H)
    as (y & c0 & cs & stored & Hy & -> & _ & Hs & -> & ->).
  destruct (page_stored_rows _ _ _ _ _ _ Hs) as (new & Hdb & Hlen & Hsv & _).
  exists y, (c0 :: cs), new. rewrite Hdb. repeat split; auto.
  intros d. now rewrite last_cons_default.
Qed.

(** X11.  fetch_and_store_ohlcv never stores a second row with the
    (symbol_id, timeframe, timestamp) of another row: if these triples
    are unique before the call they are unique after it, however the
    call ends and even when the page repeats a timestamp. *)
Theorem page_keeps_identities_unique answer ok db ex sym tf :
  NoDup (map row_identity (ohlcv db)) ->
  NoDup (map row_identity
           (ohlcv (page_database
                     (fetch_and_store_ohlcv answer ok db ex sym tf)))).
Proof.
  intros Hnd.
  pose proof (page_without_new_records_shape answer ok db ex sym tf) as Hsh.
  destruct (fetch_and_store_ohlcv answer ok db ex sym tf)
    as [db'|n ts db'|db'] eqn:H; cbn [page_database].
  - now rewrite Hsh.
  - destruct (page_stored_inv _ _ _ _ _ _ _ _ _ H)
      as (y & c0 & cs & stored & _ & _ & _ & Hs & _ & ->).
    destruct (page_stored_rows _ _ _ _ _ _ Hs) as (new & Hdb & _ & _ & Hn).
    rewrite Hdb. cbn. now apply Hn.
  - now rewrite Hsh.
Qed.

(** X12.  A call of fetch_and_store_ohlcv that raises (unknown symbol,
    gateway error, a candle that cannot be unpacked or converted,
    unknown timeframe, failed commit), that gets an empty page, or that
    returns 0 records leaves the database exactly as it was: a page is
    stored whole or not at all. *)
Theorem page_without_new_records_changes_nothing answer ok db ex sym tf :
  match fetch_and_store_ohlcv answer ok db ex sym tf with
  | PageRaises db' => db' = db
  | PageEmpty db' => db' = db
  | PageStored 0 _ db' => db' = db
  | PageStored (S _) _ _ => True
  end.
Proof. apply page_without_new_records_shape. Qed.

(** A page that was stored is known to every later database. *)
Lemma page_known answer ok db ex sym tf n ts db' :
  fetch_and_store_ohlcv answer ok db ex sym tf = PageStored n ts db' ->
  forall db2 more,
    exchanges db2 = exchanges db' -> symbols db2 = symbols db' ->
    ohlcv db2 = ohlcv db' ++ more ->
    fetch_and_store_ohlcv answer true db2 ex sym tf = PageStored 0 ts db2.
Proof.
  intros H db2 more He Hy Ho.
  destruct (page_stored_inv _ _ _ _ _ _ _ _ _ H)
    as (y & c0 & cs & stored & Hsym & -> & _ & Hs & -> & ->).
  destruct (page_stored_rows _ _ _ _ _ _ Hs) as (new & Hdb & _).
  rewrite Hdb in He, Hy, Ho. cbn in He, Hy, Ho.
  unfold fetch_and_store_ohlcv.
  rewrite (_get_db_symbol_tables db db2 ex sym He Hy), Hsym.
  assert (Hvis : visible_ohlcv (session_maker db2)
                 = visible_ohlcv stored ++ more).
  { destruct (visible_session_maker db2) as (_ & _ & ->).
    destruct (store_candles_visible _ _ _ _ _ _ _ Hs) as (new' & Hn).
    destruct (store_candles_spec _ _ _ _ _ _ _ Hs)
      as (new2 & H1 & _ & _ & H4 & _).
    rewrite Ho. f_equal. unfold visible_ohlcv. rewrite H1, H4. cbn.
    f_equal.
    assert (E : ohlcv (committed (commit stored)) = ohlcv db ++ new)
      by now rewrite Hdb.
    unfold commit, visible_ohlcv in E. cbn in E. rewrite H1, H4 in E.
    cbn in E. now apply app_inv_head in E. }
  rewrite (store_candles_known _ _ _ _ _ _ _ Hs _ _ Hvis 0%nat).
  now rewrite commit_session_maker.
Qed.

(** X13.  After fetch_and_store_ohlcv stored a page, calling it again on
    the database it left with the same page stores nothing: it returns 0
    records with the same new_timestamp and the database is unchanged. *)
Theorem page_idempotent answer ok db ex sym tf n ts db' :
  fetch_and_store_ohlcv answer ok db ex sym tf = PageStored n ts db' ->
  fetch_and_store_ohlcv answer true db' ex sym tf = PageStored 0 ts db'.
Proof.
  intros H. apply (page_known _ _ _ _ _ _ _ _ _ H db' []); auto.
  now rewrite app_nil_r.
Qed.

(* ------------------------------------------------------------------ *)
(** ** main.py: the manager's backfill loop *)

(** X14.  CryptoDataManager.backfill_ohlcv_data stops at the first page
    that brings no new record: run on the database that a
    fetch_and_store_ohlcv call left after storing a page, and served
    that same page first, it makes one call, keeps the total it started
    with and leaves the database unchanged, whatever pages the gateway
    would serve afterwards. *)
Theorem manager_stops_on_known_page answer ok db ex sym tf n ts db' :
  fetch_and_store_ohlcv answer ok db ex sym tf = PageStored n ts db' ->
  forall rest since total cursors,
    backfill_ohlcv_data ((answer, true) :: rest) db' ex sym tf since total
      cursors
    = LoopDone total db' (cursors ++ [since]).
Proof.
  intros H rest since total cursors. cbn [backfill_ohlcv_data].
  rewrite (page_known _ _ _ _ _ _ _ _ _ H db' []); auto.
  now rewrite app_nil_r.
Qed.

Lemma manager_spec ex sym tf turns :
  forall db since total cursors,
    exists new more,
      exchanges (loop_database
                   (backfill_ohlcv_data turns db ex sym tf since total
                      cursors)) = exchanges db
      /\ symbols (loop_database
                    (backfill_ohlcv_data turns db ex sym tf since total
                       cursors)) = symbols db
      /\ ohlcv (loop_database
                  (backfill_ohlcv_data turns db ex sym tf since total
                     cursors)) = ohlcv db ++ new
      /\ loop_total (backfill_ohlcv_data turns db ex sym tf since total
                       cursors) = (total + List.length new)%nat
      /\ loop_cursors (backfill_ohlcv_data turns db ex sym tf since total
                         cursors) = cursors ++ more
      /\ (List.length more <= List.length turns)%nat.
Proof.
  induction turns as [|[answer ok] rest IH]; intros db since total cursors;
    cbn [backfill_ohlcv_data].
  - exists [], []. cbn. rewrite !app_nil_r. repeat split; auto.
  - pose proof (page_without_new_records_shape answer ok db ex sym tf) as Hsh.
    destruct (fetch_and_store_ohlcv answer ok db ex sym tf)
      as [db'|n ts db'|db'] eqn:H.
    + subst db'. exists [], [since]. cbn. rewrite app_nil_r.
      repeat split; auto. lia.
    + destruct n as [|n].
      * subst db'. exists [], [since]. cbn. rewrite app_nil_r.
        repeat split; auto. lia.
      * destruct (page_stored_inv _ _ _ _ _ _ _ _ _ H)
          as (y & c0 & cs & stored & _ & _ & _ & Hs & _ & Hdb').
        destruct (page_stored_rows _ _ _ _ _ _ Hs)
          as (new & Hdb & Hlen & _).
        rewrite Hdb in Hdb'. subst db'.
        destruct (IH (mkDatabase (exchanges db) (symbols db)
                        (ohlcv db ++ new)) ts (total + S n)%nat
                    (cursors ++ [since]))
          as (new' & more & H1 & H2 & H3 & H4 & H5 & H6).
        exists (new ++ new'), (since :: more).
        rewrite H1, H2, H3, H4, H5. cbn [exchanges symbols ohlcv].
        rewrite <- !app_assoc, length_app, Hlen. cbn.
        repeat split; auto; lia.
    + subst db'. exists [], [since]. cbn. rewrite app_nil_r.
      repeat split; auto. lia.
Qed.

(** X15.  For every sequence of gateway answers and commit results the
    total that backfill_ohlcv_data prints equals the number of rows it
    appended to the candle table; exchanges and symbols are unchanged,
    no existing candle row is altered or removed, and it calls
    fetch_and_store_ohlcv at most once per answer. *)
Theorem manager_total_is_rows_stored turns db ex sym tf since :
  exists new,
    ohlcv (loop_database (backfill_ohlcv_data turns db ex sym tf since 0 []))
    = ohlcv db ++ new
    /\ loop_total (backfill_ohlcv_data turns db ex sym tf since 0 [])
       = List.length new
    /\ exchanges (loop_database
                    (backfill_ohlcv_data turns db ex sym tf since 0 []))
       = exchanges db
    /\ symbols (loop_database
                  (backfill_ohlcv_data turns db ex sym tf since 0 []))
       = symbols db
    /\ (List.length (loop_cursors
                       (backfill_ohlcv_data turns db ex sym tf since 0 []))
        <= List.length turns)%nat.
Proof.
  destruct (manager_spec ex sym tf turns db since 0%nat [])
    as (new & more & H1 & H2 & H3 & H4 & H5 & H6).
  exists new. rewrite H1, H2, H3, H4, H5. cbn. repeat split; auto.
Qed.

(** X16.  When a call of fetch_and_store_ohlcv fails because the gateway
    raises, the commit of the session fails or the symbol is unknown,
    backfill_ohlcv_data swallows the exception and ends its loop at
    once: the total and the database are as they were before that call
    and no further page is requested. *)
Theorem manager_stops_on_error answer ok rest db ex sym tf since total
    cursors :
  answer = FetchRaises \/ ok = false
  \/ _get_db_symbol (session_maker db) ex sym = None ->
  backfill_ohlcv_data ((answer, ok) :: rest) db ex sym tf since total cursors
  = LoopDone total db (cursors ++ [since]).
Proof.
  intros Hc. cbn [backfill_ohlcv_data].
  pose proof (page_without_new_records_shape answer ok db ex sym tf) as Hsh.
  destruct (fetch_and_store_ohlcv answer ok db ex sym tf)
    as [db'|n ts db'|db'] eqn:H.
  - now subst.
  - exfalso.
    destruct (page_stored_inv _ _ _ _ _ _ _ _ _ H)
      as (y & c0 & cs & stored & Hy & Ha & Hok & _).
    destruct Hc as [Hc|[Hc|Hc]]; congruence.
  - now subst.
Qed.

(* ------------------------------------------------------------------ *)
(** ** The continuous backfill: what reaches the database *)

Lemma served_as_incl sym tf G G' r :
  incl G G' -> served_as sym tf G r -> served_as sym tf G' r.
Proof.
  intros Hi (t & ts & o & h & l & c & v & H1 & H2 & H3).
  exists t, ts, o, h, l, c, v. repeat split; auto.
Qed.

Lemma process_candles_served sym tf e candles b G :
  incl candles G ->
  Forall (served_as sym tf G) (added (b_trace b)) ->
  Forall (served_as sym tf G)
    (added (b_trace (batch_of (process_candles sym tf e candles b)))).
Proof.
  functional induction (process_candles sym tf e candles b);
    simpl_batch; intros Hi Hb; auto.
  all: try (apply IHf; [eapply incl_cons_inv; eauto|]).
  all: rewrite ?added_app; cbn; rewrite ?app_nil_r; auto.
  apply Forall_app. split; [exact Hb|]. constructor; [|constructor].
  match goal with H : TimeFrame_of_value _ = Some ?t |- _ =>
    exists t, timestamp, open_price, high, low, close, volume end.
  repeat split; auto. apply Hi. now left.
Qed.

Lemma process_candles_unique sym tf e candles b :
  NoDup (map row_identity (visible_ohlcv (b_session b))) ->
  NoDup (map row_identity
           (visible_ohlcv
              (b_session (batch_of (process_candles sym tf e candles b))))).
Proof.
  functional induction (process_candles sym tf e candles b);
    simpl_batch; intros Hnd; auto.
  apply IHf. rewrite visible_ohlcv_add, map_app.
  apply NoDup_snoc; [exact Hnd|]. cbn.
  eapply identity_fresh; eauto.
Qed.

(** What the steps after the [for] loop leave alone. *)
Lemma respect_rate_limit_keeps w l :
  added (trace (locals_of (respect_rate_limit w l))) = added (trace l)
  /\ total_records (locals_of (respect_rate_limit w l)) = total_records l.
Proof.
  unfold respect_rate_limit.
  destruct (rateLimit w =? 0); [split; reflexivity|].
  destruct (rateLimit w <? 0); cbn; rewrite added_app; cbn;
    now rewrite app_nil_r.
Qed.

Lemma commit_batch_keeps N w l :
  added (trace (locals_of (commit_batch N w l))) = added (trace l)
  /\ total_records (locals_of (commit_batch N w l)) = total_records l.
Proof.
  unfold commit_batch.
  destruct (batch_count l mod N =? 0)%nat;
    [destruct (can_commit w (Periodic (batch_count l)) (session l)) eqn:Hcan|].
  - match goal with |- context [respect_rate_limit w ?x] =>
      destruct (respect_rate_limit_keeps w x) as [-> ->] end.
    cbn. rewrite added_app. cbn. now rewrite app_nil_r.
  - cbn. rewrite !added_app. cbn. now rewrite !app_nil_r.
  - apply respect_rate_limit_keeps.
Qed.

Lemma iteration_served N w sym tf e r l G :
  incl (candles_of r) G ->
  Forall (served_as sym tf G) (added (trace l)) ->
  Forall (served_as sym tf G)
    (added (trace (locals_of (iteration N w sym tf e r l)))).
Proof.
  intros Hi Hl. unfold iteration.
  assert (Hlog : Forall (served_as sym tf G)
                   (added (trace l ++ [EFetch (since l) r]))).
  { rewrite added_app. cbn. now rewrite app_nil_r. }
  destruct r as [|[|c0 cs]]; cbn [locals_of except_branch trace log].
  - rewrite added_app. cbn. now rewrite app_nil_r.
  - exact Hlog.
  - destruct (reached e (item0 c0)); [exact Hlog|].
    pose proof (process_candles_served sym tf e (c0 :: cs)
                  (mkBatch (session l) 0 (all_timestamps l)
                     (trace l ++ [EFetch (since l) (FetchReturns (c0 :: cs))]))
                  G Hi Hlog) as Hp.
    cbn [log session all_timestamps trace].
    destruct (process_candles sym tf e (c0 :: cs) _) as [b|b]; simpl_batch.
    + match goal with |- context [commit_batch N w ?x] =>
        destruct (commit_batch_keeps N w x) as [-> _] end.
      exact Hp.
    + cbn. rewrite added_app. cbn. now rewrite app_nil_r.
Qed.

Lemma while_true_served N w sym tf e answers G :
  forall l,
    incl (all_candles answers) G ->
    Forall (served_as sym tf G) (added (trace l)) ->
    Forall (served_as sym tf G)
      (added (trace (loop_locals (while_true N w sym tf e answers l)))).
Proof.
  induction answers as [|r rest IH]; intros l Hi Hl; cbn [while_true].
  - exact Hl.
  - unfold all_candles in Hi. cbn [flat_map] in Hi.
    apply incl_app_inv in Hi. destruct Hi as [Hr Hrest].
    pose proof (iteration_served N w sym tf e r l G Hr Hl) as Hp.
    destruct (iteration N w sym tf e r l) as [l'|l'|l'];
      cbn [locals_of loop_locals] in *; auto.
Qed.

Lemma commit_batch_prefix N w l :
  exists rest,
    visible_ohlcv (session l)
    = visible_ohlcv (session (locals_of (commit_batch N w l))) ++ rest.
Proof.
  unfold commit_batch.
  destruct (batch_count l mod N =? 0)%nat;
    [destruct (can_commit w (Periodic (batch_count l)) (session l)) eqn:Hcan|].
  - rewrite respect_rate_limit_visible. cbn [session].
    rewrite visible_commit. exists []. now rewrite app_nil_r.
  - cbn. unfold visible_ohlcv. cbn. rewrite app_nil_r. eauto.
  - rewrite respect_rate_limit_visible. exists []. now rewrite app_nil_r.
Qed.

Lemma iteration_unique N w sym tf e r l :
  NoDup (map row_identity (visible_ohlcv (session l))) ->
  NoDup (map row_identity
           (visible_ohlcv (session (locals_of (iteration N w sym tf e r l))))).
Proof.
  intros Hl. unfold iteration.
  destruct r as [|[|c0 cs]]; cbn [locals_of except_branch session log]; auto.
  destruct (reached e (item0 c0)); [exact Hl|].
  pose proof (process_candles_unique sym tf e (c0 :: cs)
                (mkBatch (session l) 0 (all_timestamps l)
                   (trace l ++ [EFetch (since l) (FetchReturns (c0 :: cs))]))
                Hl) as Hp.
  cbn [log session all_timestamps trace].
  destruct (process_candles sym tf e (c0 :: cs) _) as [b|b]; simpl_batch.
  - match goal with |- context [commit_batch N w ?x] =>
      destruct (commit_batch_prefix N w x) as (rest & Hrest) end.
    cbn [session] in Hrest. rewrite Hrest, map_app in Hp.
    exact (NoDup_app_remove_r _ _ Hp).
  - exact Hp.
Qed.

Lemma while_true_unique N w sym tf e answers :
  forall l,
    NoDup (map row_identity (visible_ohlcv (session l))) ->
    NoDup (map row_identity
             (visible_ohlcv
                (session (loop_locals (while_true N w sym tf e answers l))))).
Proof.
  induction answers as [|r rest IH]; intros l Hl; cbn [while_true].
  - exact Hl.
  - pose proof (iteration_unique N w sym tf e r l Hl) as Hp.
    destruct (iteration N w sym tf e r l) as [l'|l'|l'];
      cbn [locals_of loop_locals] in *; auto.
Qed.

(** The count kept by the loop against the rows it handed to the
    session. *)
Lemma iteration_counts N w sym tf e r l :
  (total_records l <= List.length (added (trace l)))%nat ->
  (total_records (locals_of (iteration N w sym tf e r l))
   <= List.length (added (trace (locals_of (iteration N w sym tf e r l)))))%nat
  /\ ((total_records l = List.length (added (trace l))) ->
      ~ recovered (trace (locals_of (iteration N w sym tf e r l))) ->
      total_records (locals_of (iteration N w sym tf e r l))
      = List.length
          (added (trace (locals_of (iteration N w sym tf e r l))))).
Proof.
  intros Hle. unfold iteration.
  destruct r as [|[|c0 cs]]; cbn [locals_of except_branch trace log
    total_records].
  - rewrite !added_app. cbn. rewrite !app_nil_r. split; [exact Hle|].
    intros _ Hn. exfalso. apply Hn. exists (batch_count l).
    rewrite !in_app_iff. right. now left.
  - rewrite !added_app. cbn. rewrite !app_nil_r. auto.
  - destruct (reached e (item0 c0)).
    + cbn. rewrite !added_app. cbn. rewrite !app_nil_r. auto.
    + destruct (process_candles_summary sym tf e (c0 :: cs)
                  (mkBatch (session l) 0 (all_timestamps l)
                     (trace l
                      ++ [EFetch (since l) (FetchReturns (c0 :: cs))])))
        as (ext & Ht & _ & _ & _ & Hn).
      cbn [log session all_timestamps trace total_records batch_count].
      destruct (process_candles sym tf e (c0 :: cs) _) as [b|b];
        simpl_batch.
      * match goal with |- context [commit_batch N w ?x] =>
          destruct (commit_batch_keeps N w x) as [-> ->] end.
        cbn [trace total_records]. rewrite Ht, Hn, !added_app. cbn.
        rewrite app_nil_r, length_app. split; [lia|]. intros -> _. lia.
      * cbn. rewrite Ht, !added_app. cbn. rewrite !app_nil_r, length_app.
        split; [lia|]. intros _ Hr. exfalso. apply Hr.
        exists (S (batch_count l)). rewrite !in_app_iff. right. now left.
Qed.

Lemma recovered_earlier e l l' ext :
  evolves e l l' ext -> ~ recovered (trace l') -> ~ recovered (trace l).
Proof.
  intros Hev Hn [k Hk]. apply Hn. exists k. rewrite (ev_trace _ _ _ _ Hev).
  apply in_app_iff. now left.
Qed.

Lemma while_true_counts N w sym tf e answers :
  forall l,
    (total_records l <= List.length (added (trace l)))%nat ->
    (total_records (loop_locals (while_true N w sym tf e answers l))
     <= List.length
          (added (trace (loop_locals (while_true N w sym tf e answers l)))))%nat
    /\ ((total_records l = List.length (added (trace l))) ->
        ~ recovered (trace (loop_locals (while_true N w sym tf e answers l)))
        -> total_records (loop_locals (while_true N w sym tf e answers l))
           = List.length
               (added
                  (trace (loop_locals (while_true N w sym tf e answers l))))).
Proof.
  induction answers as [|r rest IH]; intros l Hl; cbn [while_true].
  - cbn. auto.
  - destruct (iteration_counts N w sym tf e r l Hl) as [H1 H2].
    destruct (iteration_evolves N w sym tf e r l) as (ext & Hev & _).
    destruct (iteration N w sym tf e r l) as [l'|l'|l'];
      cbn [locals_of loop_locals] in *; auto;
      destruct (IH l' H1) as [K1 K2]; (split; [exact K1|]);
      intros Heq Hn; apply K2; auto; apply H2; auto;
      destruct (while_true_evolves N w sym tf e rest l') as (ext' & Hev');
      eapply recovered_earlier; eauto.
Qed.

Lemma committed_commit s : ohlcv (committed (commit s)) = visible_ohlcv s.
Proof. reflexivity. Qed.

(** A run whose symbol resolved, read through the locals its loop ended
    with. *)
Lemma replay_nothing_added tr :
  forall cp, added tr = [] -> snd cp = [] -> replay tr cp = cp.
Proof.
  induction tr as [|x tr IH]; intros [c p] Ha Hp; [reflexivity|].
  cbn [snd] in Hp. subst p.
  change (x :: tr) with ([x] ++ tr) in Ha. rewrite added_app in Ha.
  apply app_eq_nil in Ha. destruct Ha as [Hx Ha].
  unfold replay in *. cbn [fold_left].
  destruct x as [| | |site rows [|]| | |]; try discriminate Hx;
    cbn [replay_effect fst snd]; rewrite ?app_nil_r; now apply IH.
Qed.

Lemma backfill_view N w db ex sym tf start e y :
  _get_db_symbol (session_maker db) ex sym = Some y ->
  exists l,
    l = loop_locals (while_true N w y tf e (responses w)
                       (initial_locals start (session_maker db)))
    /\ incl (visible_ohlcv (session l)) (ohlcv db ++ added (trace l))
    /\ match backfill N w db ex sym tf start e with
       | Returned n _ _ db' tr =>
           n = total_records l
           /\ ohlcv db' = visible_ohlcv (session l)
           /\ added tr = added (trace l)
           /\ (recovered tr -> recovered (trace l))
           /\ visible_ohlcv (session l) = ohlcv db ++ added (trace l)
       | Raises db' tr =>
           (exists more rest,
              ohlcv db' = ohlcv db ++ more
              /\ visible_ohlcv (session l) = ohlcv db' ++ rest)
           /\ added tr = added (trace l)
       | Unfinished tr => tr = trace l
       end.
Proof.
  intros Hy. eexists. split; [reflexivity|].
  destruct (while_true_evolves N w y tf e (responses w)
              (initial_locals start (session_maker db))) as (ext & Hev).
  destruct (evolves_rows Hev) as [(more & Hmore) Hvis].
  pose proof (evolves_incl Hev) as Hincl.
  pose proof (ev_trace _ _ _ _ Hev) as Htr.
  cbn [initial_locals session trace] in Hvis, Htr, Hmore, Hincl.
  cbn [session_maker committed] in Hmore. cbn [app] in Htr.
  destruct (visible_session_maker db) as (_ & _ & Hinit).
  rewrite Hinit in Hvis, Hincl.
  rewrite <- Htr in Hvis, Hincl.
  split; [exact Hincl|].
  unfold backfill. rewrite Hy.
  destruct (while_true N w y tf e (responses w)
              (initial_locals start (session_maker db))) as [l|l];
    cbn [loop_locals] in *; [|reflexivity].
  destruct (can_commit w Final (session l)) eqn:Hcf.
  - apply can_commit_spec in Hcf. destruct Hcf as [Ha _].
    destruct (actual_range w (all_timestamps l)) as [a b].
    destruct (can_commit w SessionExit (commit (session l))).
    + repeat split; auto.
      * rewrite committed_commit. apply visible_commit.
      * rewrite !added_app. cbn. now rewrite !app_nil_r.
      * intros [k Hk]. exists k. rewrite !in_app_iff in Hk. cbn in Hk.
        destruct Hk as [[Hk|[Hk|[]]]|[Hk|[]]]; auto; discriminate.
    + split.
      * exists (added (trace l)), []. cbn [rollback fail_commit committed].
        rewrite committed_commit, app_nil_r. auto.
      * rewrite !added_app. cbn. now rewrite !app_nil_r.
  - split.
    + exists more, (ohlcv (pending (session l))).
      cbn [rollback fail_commit committed].
      split; [exact Hmore|reflexivity].
    + rewrite !added_app. cbn. now rewrite !app_nil_r.
Qed.

Lemma backfill_unresolved N w db ex sym tf start e :
  _get_db_symbol (session_maker db) ex sym = None ->
  backfill N w db ex sym tf start e = Raises db [ERollback].
Proof. intros H. unfold backfill. now rewrite H. Qed.

Lemma database_ext a b :
  exchanges a = exchanges b -> symbols a = symbols b -> ohlcv a = ohlcv b ->
  a = b.
Proof. destruct a, b. cbn. now intros -> -> ->. Qed.

(** X17.  continuous_backfill_ohlcv keeps (symbol_id, timeframe,
    timestamp) unique in the candle table: if the triples are unique
    before the run they are unique in the database the run leaves,
    whether it returns or raises and whatever the gateway serves
    (overlapping pages and repeated timestamps included). *)
Theorem backfill_keeps_identities_unique w db ex sym tf start e :
  NoDup (map row_identity (ohlcv db)) ->
  match continuous_backfill_ohlcv w db ex sym tf start e with
  | Returned _ _ _ db' _ | Raises db' _ => NoDup (map row_identity (ohlcv db'))
  | Unfinished _ => True
  end.
Proof.
  intros Hnd. unfold continuous_backfill_ohlcv.
  destruct (_get_db_symbol (session_maker db) ex sym) as [y|] eqn:Hy.
  - destruct (backfill_view 10 w db ex sym tf start e y Hy)
      as (l & Hl & _ & Hm).
    assert (Hu : NoDup (map row_identity (visible_ohlcv (session l)))).
    { rewrite Hl. apply while_true_unique. cbn [initial_locals session].
      destruct (visible_session_maker db) as (_ & _ & ->). exact Hnd. }
    destruct (backfill 10 w db ex sym tf start e) as [n a b db' tr|db' tr|tr];
      [| |exact I].
    + destruct Hm as (_ & -> & _). exact Hu.
    + destruct Hm as ((more & rest & _ & Hr) & _). rewrite Hr, map_app in Hu.
      eapply NoDup_app_remove_r. exact Hu.
  - now rewrite (backfill_unresolved 10 w db ex sym tf start e Hy).
Qed.

(** X18.  When continuous_backfill_ohlcv returns, exchanges and symbols
    are unchanged and the candle table is the old one followed by the
    rows handed to session.add, in order; the returned total_records is
    at most the number of those rows, and equals it when the recovery
    branch never ran. *)
Theorem backfill_counts_rows w db ex sym tf start e n a b db' tr :
  continuous_backfill_ohlcv w db ex sym tf start e = Returned n a b db' tr ->
  exchanges db' = exchanges db
  /\ symbols db' = symbols db
  /\ ohlcv db' = ohlcv db ++ added tr
  /\ (n <= List.length (added tr))%nat
  /\ (~ recovered tr -> n = List.length (added tr)).
Proof.
  unfold continuous_backfill_ohlcv. intros H.
  destruct (backfill_store 10 w db ex sym tf start e) as [_ Hs].
  destruct (_get_db_symbol (session_maker db) ex sym) as [y|] eqn:Hy;
    [|rewrite (backfill_unresolved 10 w db ex sym tf start e Hy) in H;
      discriminate].
  destruct (backfill_view 10 w db ex sym tf start e y Hy)
    as (l & Hl & Hvis & Hm).
  destruct (while_true_counts 10 w y tf e (responses w)
              (initial_locals start (session_maker db))) as [K1 K2];
    [cbn; lia|].
  rewrite <- Hl in K1, K2.
  rewrite H in Hs, Hm. destruct Hs as (He & Hsy & _).
  destruct Hm as (-> & Ho & Ha & Hrec & Hall).
  rewrite Ha, Ho. repeat split; auto.
  intros Hn. apply K2; [reflexivity|]. intros Hr. apply Hn.
  destruct Hr as [k Hk]. exists k.
  destruct (returned_inv _ _ _ _ _ _ _ _ _ _ _ _ _ H)
    as (y' & l' & Hy' & Hw & _ & _ & _ & _ & _ & ->).
  rewrite Hy in Hy'. inversion Hy'; subst y'.
  rewrite Hw in Hl. cbn in Hl. subst l'.
  rewrite !in_app_iff. left. now left.
Qed.

(** X19.  Every row continuous_backfill_ohlcv hands to session.add is
    built from a candle the gateway served in this run, with the
    resolved symbol's id and exchange id and the requested timeframe; so
    every row of the database it leaves was there before or is such a
    row. *)
Theorem backfill_rows_come_from_gateway w db ex sym tf start e y :
  _get_db_symbol (session_maker db) ex sym = Some y ->
  Forall (served_as y tf (all_candles (responses w)))
    (added (outcome_trace (continuous_backfill_ohlcv w db ex sym tf start e)))
  /\ match continuous_backfill_ohlcv w db ex sym tf start e with
     | Returned _ _ _ db' _ | Raises db' _ =>
         forall r, In r (ohlcv db') ->
                   In r (ohlcv db)
                   \/ served_as y tf (all_candles (responses w)) r
     | Unfinished _ => True
     end.
Proof.
  intros Hy. unfold continuous_backfill_ohlcv.
  destruct (backfill_view 10 w db ex sym tf start e y Hy)
    as (l & Hl & Hvis & Hm).
  assert (Hs : Forall (served_as y tf (all_candles (responses w)))
                 (added (trace l))).
  { rewrite Hl. apply while_true_served; [apply incl_refl|]. constructor. }
  assert (Hrows : forall r, In r (visible_ohlcv (session l)) ->
            In r (ohlcv db)
            \/ served_as y tf (all_candles (responses w)) r).
  { intros r Hr. apply Hvis in Hr. rewrite in_app_iff in Hr.
    destruct Hr as [Hr|Hr]; auto.
    right. rewrite Forall_forall in Hs. now apply Hs. }
  destruct (backfill 10 w db ex sym tf start e) as [n a b db' tr|db' tr|tr];
    cbn [outcome_trace].
  - destruct Hm as (_ & Ho & -> & _). split; [exact Hs|].
    intros r Hr. apply Hrows. now rewrite <- Ho.
  - destruct Hm as ((more & rest & _ & Hr) & ->). split; [exact Hs|].
    intros r Hin. apply Hrows. rewrite Hr, in_app_iff. now left.
  - subst tr. split; [exact Hs|exact I].
Qed.

(** X20.  With a timeframe string the TimeFrame enumeration does not
    accept, continuous_backfill_ohlcv never adds a row: the ValueError
    of TimeFrame(timeframe) is absorbed by the per-page recovery, and a
    run that returns reports 0 records and leaves the database exactly
    as it was. *)
Theorem unknown_timeframe_stores_nothing w db ex sym tf start e :
  TimeFrame_of_value tf = None ->
  match continuous_backfill_ohlcv w db ex sym tf start e with
  | Returned n _ _ db' tr => n = 0%nat /\ db' = db /\ added tr = []
  | Raises db' tr => db' = db /\ added tr = []
  | Unfinished tr => added tr = []
  end.
Proof.
  intros Htf. unfold continuous_backfill_ohlcv.
  destruct (backfill_store 10 w db ex sym tf start e) as [_ Hs].
  destruct (_get_db_symbol (session_maker db) ex sym) as [y|] eqn:Hy;
    [|rewrite (backfill_unresolved 10 w db ex sym tf start e Hy); auto].
  destruct (backfill_view 10 w db ex sym tf start e y Hy)
    as (l & Hl & Hvis & Hm).
  assert (Hnone : added (trace l) = []).
  { assert (Hf : Forall (served_as y tf (all_candles (responses w)))
                   (added (trace l))).
    { rewrite Hl. apply while_true_served; [apply incl_refl|]. constructor. }
    destruct (added (trace l)) as [|r rows]; [reflexivity|].
    inversion Hf as [|? ? (t & ts & o & h & lo & c & v & Ht & _) _].
    congruence. }
  destruct (while_true_counts 10 w y tf e (responses w)
              (initial_locals start (session_maker db))) as [K1 _];
    [cbn; lia|].
  rewrite <- Hl, Hnone in K1.
  destruct (backfill 10 w db ex sym tf start e) as [n a b db' tr|db' tr|tr].
  - destruct Hs as (He & Hsy & Hrep). destruct Hm as (-> & _ & Ha & _).
    rewrite Hnone in Ha.
    rewrite (replay_nothing_added tr (ohlcv db, []) Ha eq_refl) in Hrep.
    injection Hrep as Hrep. repeat split; auto.
    + cbn in K1. lia.
    + apply database_ext; auto.
  - destruct Hs as (He & Hsy & Hrep). destruct Hm as (_ & Ha).
    rewrite Hnone in Ha.
    rewrite (replay_nothing_added tr (ohlcv db, []) Ha eq_refl) in Hrep.
    injection Hrep as Hrep. split; auto. apply database_ext; auto.
  - now subst tr.
Qed.

(** X21.  With a timeframe string the TimeFrame enumeration does not
    accept, fetch_and_store_ohlcv raises on every non-empty page and
    leaves the database unchanged (unlike the continuous backfill, which
    absorbs the error). *)
Theorem page_unknown_timeframe_raises c cs ok db ex sym tf :
  TimeFrame_of_value tf = None ->
  fetch_and_store_ohlcv (FetchReturns (c :: cs)) ok db ex sym tf
  = PageRaises db.
Proof.
  intros Htf. unfold fetch_and_store_ohlcv.
  destruct (_get_db_symbol (session_maker db) ex sym) as [y|];
    [|reflexivity].
  assert (Hs : store_candles y tf (c :: cs) (session_maker db) 0 = None).
  { cbn [store_candles]. destruct c; [|reflexivity]. now rewrite Htf. }
  now rewrite Hs.
Qed.

(** X22.  For every end bound other than 0, continuous_backfill_ohlcv
    looks up and writes only candles with a timestamp strictly below the
    bound, and every row of the database it leaves was there before or
    lies strictly below the bound. *)
Theorem nonzero_bound_is_respected w db ex sym tf start b :
  b <> 0 ->
  (forall r,
     In r (added (outcome_trace
                    (continuous_backfill_ohlcv w db ex sym tf start (Some b))))
     -> OHLCV.timestamp r < b)
  /\ (forall sid t ts found,
        In (ELookup sid t ts found)
           (outcome_trace
              (continuous_backfill_ohlcv w db ex sym tf start (Some b))) ->
        ts < b)
  /\ match continuous_backfill_ohlcv w db ex sym tf start (Some b) with
     | Returned _ _ _ db' _ | Raises db' _ =>
         forall r, In r (ohlcv db') ->
                   In r (ohlcv db) \/ OHLCV.timestamp r < b
     | Unfinished _ => True
     end.
Proof.
  intros Hb. exact (bound_respected 10 w db ex sym tf start b Hb).
Qed.

(** The loop asks the gateway once per turn. *)
Lemma while_true_fetches N w sym tf e answers :
  forall l,
    (List.length
       (fetched (trace (loop_locals (while_true N w sym tf e answers l))))
     <= List.length (fetched (trace l)) + List.length answers)%nat.
Proof.
  induction answers as [|r rest IH]; intros l; cbn [while_true].
  - cbn. lia.
  - destruct (iteration_evolves N w sym tf e r l) as (ext & Hev & Hf).
    pose proof (ev_trace _ _ _ _ Hev) as Htr.
    assert (Hone : List.length
                     (fetched (trace (locals_of (iteration N w sym tf e r l))))
                   = S (List.length (fetched (trace l)))).
    { rewrite Htr, fetched_app, fetched_cons, Hf, length_app. cbn. lia. }
    destruct (iteration N w sym tf e r l) as [l'|l'|l'];
      cbn [locals_of loop_locals List.length] in *; try lia;
      specialize (IH l'); lia.
Qed.

(** The answers after an empty page are never asked for. *)
Lemma while_true_cut N w sym tf e pre rest :
  forall l,
    while_true N w sym tf e (pre ++ FetchReturns [] :: rest) l
    = while_true N w sym tf e (pre ++ [FetchReturns []]) l.
Proof.
  induction pre as [|r pre IH]; intros l; cbn [app while_true].
  - reflexivity.
  - destruct (iteration N w sym tf e r l); auto.
Qed.

(** X23.  continuous_backfill_ohlcv asks the gateway once per turn and
    never after an empty page: if the k+1st answer is an empty page the
    run makes at most k+1 fetch_ohlcv calls and ends (returns or
    raises). *)
Theorem backfill_stops_at_empty_page w db ex sym tf start e pre rest :
  responses w = pre ++ FetchReturns [] :: rest ->
  (List.length
     (fetched (outcome_trace
                 (continuous_backfill_ohlcv w db ex sym tf start e)))
   <= S (List.length pre))%nat
  /\ forall tr,
       continuous_backfill_ohlcv w db ex sym tf start e <> Unfinished tr.
Proof.
  intros Hr. unfold continuous_backfill_ohlcv. split.
  - destruct (backfill_trace_inv 10 w db ex sym tf start e)
      as [[_ ->]|(y & l & tail & Hy & Hl & -> & Htail)].
    + cbn. lia.
    + rewrite fetched_app.
      assert (Ht : fetched tail = []).
      { clear -Htail. induction Htail as [|x tail Hx _ IH]; [reflexivity|].
        destruct x; try contradiction; cbn; auto. }
      rewrite Ht, app_nil_r, <- Hl, Hr, while_true_cut.
      etransitivity; [apply while_true_fetches|].
      cbn. rewrite length_app. cbn. lia.
  - apply backfill_finishes. rewrite Hr, in_app_iff. right. now left.
Qed.

(* ------------------------------------------------------------------ *)
(** ** The two ingestion paths on one page *)

Lemma store_candles_process sym tf page :
  forall s n s' n' b,
    store_candles sym tf page s n = Some (s', n') ->
    b_session b = s ->
    inactive s = false ->
    exists b',
      process_candles sym tf None page b = ForDone b'
      /\ b_session b' = s'
      /\ (batch_records b' + n = batch_records b + n')%nat.
Proof.
  induction page as [|c rest IH]; intros s n s' n' b H Hb Ha;
    cbn [store_candles process_candles] in *.
  - inversion H; subst. exists b. repeat split; auto.
  - destruct c as [ts o h l cl v|first]; [|discriminate].
    cbn [reached]. rewrite Hb, Ha.
    destruct (TimeFrame_of_value tf) as [t|]; [|discriminate].
    destruct (fromtimestamp_ok ts); [|discriminate].
    destruct (query_ohlcv s (Symbol.id sym) t ts) as [found|].
    + match goal with |- context [process_candles _ _ _ rest ?x] =>
        destruct (IH _ _ _ _ x H eq_refl Ha) as (b' & H1 & H2 & H3) end.
      exists b'. repeat split; auto.
    + destruct (new_OHLCV sym t ts o h l cl v) as [r|]; [|discriminate].
      match goal with |- context [process_candles _ _ _ rest ?x] =>
        destruct (IH _ _ _ _ x H eq_refl Ha) as (b' & H1 & H2 & H3) end.
      exists b'. repeat split; auto. cbn in H3. lia.
Qed.

Lemma commit_batch_continues N w l :
  (forall site, commit_succeeds w site = true) ->
  0 <= rateLimit w ->
  inactive (session l) = false ->
  exists l',
    commit_batch N w l = Continue l'
    /\ visible_ohlcv (session l') = visible_ohlcv (session l)
    /\ total_records l' = total_records l.
Proof.
  intros Hc Hr Ha. unfold commit_batch, respect_rate_limit, can_commit.
  rewrite Hc, Ha. cbn [negb andb].
  assert (Hlt : (rateLimit w <? 0) = false) by (apply Z.ltb_ge; exact Hr).
  rewrite Hlt.
  destruct (batch_count l mod N =? 0)%nat; destruct (rateLimit w =? 0);
    eexists; (split; [reflexivity|]); cbn [session total_records log];
    rewrite ?visible_commit; auto.
Qed.

(** X24.  The two ingestion paths agree on one page: if
    fetch_and_store_ohlcv stores a page with n new records and leaves
    database db', then continuous_backfill_ohlcv without end bound,
    served that page and then an empty one, with every commit succeeding
    and a non-negative rate limit, returns n records and leaves the same
    database db'. *)
Theorem one_page_both_ways w db ex sym tf start page n ts db' :
  fetch_and_store_ohlcv (FetchReturns page) true db ex sym tf
  = PageStored n ts db' ->
  responses w = [FetchReturns page; FetchReturns []] ->
  (forall site, commit_succeeds w site = true) ->
  0 <= rateLimit w ->
  exists a b tr,
    continuous_backfill_ohlcv w db ex sym tf start None
    = Returned n a b db' tr.
Proof.
  intros H Hr Hc Hrate.
  destruct (page_stored_inv _ _ _ _ _ _ _ _ _ H)
    as (y & c0 & cs & stored & Hy & Hp & _ & Hs & _ & ->).
  inversion Hp; subst page. clear Hp.
  destruct (page_stored_rows _ _ _ _ _ _ Hs) as (new & Hdb & _).
  destruct (store_candles_spec _ _ _ _ _ _ _ Hs)
    as (new' & K1 & _ & _ & K4 & _).
  unfold continuous_backfill_ohlcv.
  destruct (backfill_store 10 w db ex sym tf start None) as [_ Hst].
  destruct (backfill_view 10 w db ex sym tf start None y Hy)
    as (l & Hl & Hvis & Hm).
  assert (Hloop : exists l',
            while_true 10 w y tf None (responses w)
              (initial_locals start (session_maker db)) = LoopExit l'
            /\ visible_ohlcv (session l') = visible_ohlcv stored
            /\ total_records l' = n).
  { rewrite Hr. cbn [while_true]. unfold iteration at 1.
    cbn [reached log session all_timestamps trace total_records
         batch_count since initial_locals].
    match goal with |- context [process_candles y tf None (c0 :: cs) ?x] =>
      destruct (store_candles_process y tf (c0 :: cs) _ _ _ _ x Hs
                  eq_refl eq_refl) as (b' & P1 & P2 & P3);
      pose proof (process_candles_inactive y tf None (c0 :: cs) x) as P4
    end.
    rewrite P1 in P4 |- *. simpl_batch.
    match goal with |- context [commit_batch 10 w ?x] =>
      destruct (commit_batch_continues 10 w x Hc Hrate P4)
        as (l1 & C1 & C2 & C3) end.
    rewrite C1. cbn [session total_records] in C2, C3.
    unfold iteration. eexists. split; [reflexivity|].
    cbn [session log total_records].
    rewrite C2, C3, P2. cbn in P3. split; [reflexivity|lia]. }
  destruct Hloop as (l' & Hw & V & T).
  rewrite Hw in Hl. cbn [loop_locals] in Hl. subst l'.
  destruct (backfill_returns 10 w db ex sym tf start None)
    as (n0 & a & b & db0 & tr & Hb); auto.
  { congruence. }
  { rewrite Hr. right. now left. }
  rewrite Hb in Hst, Hm. exists a, b, tr. rewrite Hb.
  destruct Hst as (He & Hsy & _). destruct Hm as (-> & Ho & _).
  rewrite T. f_equal. apply database_ext.
  - rewrite He, Hdb. reflexivity.
  - rewrite Hsy, Hdb. reflexivity.
  - rewrite Ho, V. reflexivity.
Qed.

(* ------------------------------------------------------------------ *)
(** ** From the market synchronisation to the backfill *)

Lemma synced_market_lookup exchange_name markets db m :
  In m markets -> countable m = true ->
  exists y,
    _get_db_symbol
      (session_maker (snd (fetch_and_store_markets exchange_name markets db)))
      exchange_name (Market.symbol m) = Some y
    /\ Symbol.symbol y = Market.symbol m.
Proof.
  intros Hm Hcm. unfold fetch_and_store_markets.
  set (ty := _get_exchange_type exchange_name).
  pose proof (get_or_create_exchange_lookup (session_maker db) exchange_name ty)
    as Hx.
  destruct (get_or_create_exchange (session_maker db) exchange_name ty)
    as [x s0] eqn:Hg.
  destruct Hx as (Hq0 & Hc0 & Hsy0).
  destruct (store_markets_spec (Exchange.id x) markets s0 0)
    as (new & Hsm & _ & Hpresent).
  rewrite Hsm. cbn [fst snd].
  set (s1 := mkSession (committed s0)
               (mkDatabase (exchanges (pending s0))
                  (symbols (pending s0) ++ new) (ohlcv (pending s0)))
               (inactive s0)).
  set (db1 := committed (commit s1)).
  assert (Hq1 : query_exchange (session_maker db1) exchange_name = Some x).
  { unfold query_exchange in *. unfold visible_exchanges in *. cbn.
    now rewrite app_nil_r. }
  destruct (Hpresent m Hm Hcm) as (y & Hy & He & Hs).
  assert (Hin : In y (visible_symbols (session_maker db1))).
  { unfold visible_symbols in *. cbn. rewrite app_nil_r.
    unfold visible_symbols, s1. cbn. rewrite app_assoc. exact Hy. }
  unfold _get_db_symbol, _get_exchange_id. rewrite Hq1. cbn [option_map].
  destruct (find_some_ex _ (symbol_matches (Exchange.id x) (Market.symbol m))
              _ y Hin) as (y' & Hy').
  { unfold symbol_matches. now rewrite He, Hs, Nat.eqb_refl, String.eqb_refl. }
  exists y'. split; [exact Hy'|].
  apply find_some in Hy'. destruct Hy' as [_ Hmatch].
  apply symbol_matches_spec in Hmatch. now destruct Hmatch.
Qed.

(** X25.  After fetch_and_store_markets every active market of the list
    whose currency names are short enough resolves through
    _get_db_symbol under the provider's exchange name, so a continuous
    backfill of it does not fail on symbol resolution: it returns
    whenever the gateway serves an empty page at some point and the
    store lets every commit through. *)
Theorem synced_market_can_be_backfilled exchange_name markets db m :
  In m markets -> countable m = true ->
  (exists y,
     _get_db_symbol
       (session_maker
          (snd (fetch_and_store_markets exchange_name markets db)))
       exchange_name (Market.symbol m) = Some y
     /\ Symbol.symbol y = Market.symbol m)
  /\ forall w tf start e,
       In (FetchReturns []) (responses w) ->
       (forall site, commit_succeeds w site = true) ->
       exists n a b db' tr,
         continuous_backfill_ohlcv w
           (snd (fetch_and_store_markets exchange_name markets db))
           exchange_name (Market.symbol m) tf start e
         = Returned n a b db' tr.
Proof.
  intros Hm Hcm.
  destruct (synced_market_lookup exchange_name markets db m Hm Hcm)
    as (y & Hy & Hs).
  split; [eauto|].
  intros w tf start e Hempty Hc. unfold continuous_backfill_ohlcv.
  apply backfill_returns; auto. congruence.
Qed.

(* ------------------------------------------------------------------ *)
(** ** The properties above on the worked runs *)

Lemma TimeFrame_round_trip_witness : TimeFrame_value HOUR_1 = "1h".
Proof.
  exact (proj1 (proj1 (proj2 TimeFrame_round_trip) "1h" HOUR_1) eq_refl).
Defined.

Lemma exchange_type_of_its_value_witness : _get_exchange_type "okx" = OTHER.
Proof.
  apply (proj2 exchange_type_of_its_value "okx").
  intros t _. destruct t; discriminate.
Defined.

Lemma interval_mapping_of_timeframes_witness :
  In "hours" ["seconds"; "minutes"; "hours"; "days"].
Proof.
  exact (proj2 (proj2 (proj2 interval_mapping_of_timeframes)) "1h" "hours"
           eq_refl).
Defined.

Lemma get_or_create_exchange_finds_it_witness :
  visible_exchanges
    (snd (get_or_create_exchange (session_maker empty_database) "binance"
            BINANCE))
  = [Exchange.mk 1%nat "binance" BINANCE "UTC"].
Proof.
  destruct (get_or_create_exchange_finds_it (session_maker empty_database)
              "binance" BINANCE) as (_ & _ & _ & _ & H & _).
  destruct (H eq_refl) as [Hv _]. exact Hv.
Defined.

Lemma get_or_create_symbol_finds_it_witness :
  exists y,
    fst (get_or_create_symbol (session_maker db_btc) 1%nat "ETH/USDT" "ETH"
           "USDT" None) = Some y
    /\ Symbol.symbol y = "ETH/USDT".
Proof.
  destruct (get_or_create_symbol_finds_it (session_maker db_btc) 1%nat
              "ETH/USDT" "ETH" "USDT" None eq_refl)
    as (y & H1 & _ & _ & H4 & _).
  exists y. split; assumption.
Defined.

Lemma markets_sync_keeps_keys_unique_witness :
  NoDup (map Exchange.name
           (exchanges (snd (fetch_and_store_markets "binance" three_markets
                              db_btc))))
  /\ NoDup (map symbol_key
              (symbols (snd (fetch_and_store_markets "binance" three_markets
                               db_btc)))).
Proof.
  apply markets_sync_keeps_keys_unique.
  - cbn. constructor; [intros []|constructor].
  - cbn. constructor; [intros []|constructor].
Defined.

Lemma page_accounting_witness :
  exists new,
    ohlcv page_db = ohlcv db_btc ++ new /\ List.length new = 2%nat.
Proof.
  destruct (page_accounting (FetchReturns two_candles) true db_btc "binance"
              "BTC/USDT" "1h" 2%nat 2 page_db)
    as (y & page & new & _ & _ & _ & _ & _ & Ho & Hl & _).
  { vm_compute. reflexivity. }
  exists new. split; assumption.
Defined.

Lemma page_keeps_identities_unique_witness :
  NoDup (map row_identity (ohlcv (page_database page_run))).
Proof.
  apply page_keeps_identities_unique. cbn. constructor.
Defined.

Lemma page_idempotent_witness :
  fetch_and_store_ohlcv (FetchReturns two_candles) true page_db "binance"
    "BTC/USDT" "1h"
  = PageStored 0 2 page_db.
Proof.
  apply (page_idempotent (FetchReturns two_candles) true db_btc "binance"
           "BTC/USDT" "1h" 2%nat 2 page_db).
  vm_compute. reflexivity.
Defined.

Lemma manager_stops_on_known_page_witness :
  backfill_ohlcv_data
    [(FetchReturns two_candles, true); (FetchReturns [flat 2], true)]
    page_db "binance" "BTC/USDT" "1h" 0 0 []
  = LoopDone 0 page_db [0].
Proof.
  apply (manager_stops_on_known_page (FetchReturns two_candles) true db_btc
           "binance" "BTC/USDT" "1h" 2%nat 2 page_db).
  vm_compute. reflexivity.
Defined.

Lemma manager_stops_on_error_witness :
  backfill_ohlcv_data
    [(FetchRaises, true); (FetchReturns two_candles, true)]
    db_btc "binance" "BTC/USDT" "1h" 0 0 []
  = LoopDone 0 db_btc [0].
Proof.
  apply (manager_stops_on_error FetchRaises true
           [(FetchReturns two_candles, true)] db_btc "binance" "BTC/USDT"
           "1h" 0 0%nat []).
  left. reflexivity.
Defined.

Lemma backfill_keeps_identities_unique_witness :
  match continuous_backfill_ohlcv scenario db_btc "binance" "BTC/USDT" "1h" 0
          None with
  | Returned _ _ _ db' _ | Raises db' _ => NoDup (map row_identity (ohlcv db'))
  | Unfinished _ => True
  end.
Proof.
  assert (Hnd : NoDup (map row_identity (ohlcv db_btc))) by constructor.
  pose proof (backfill_keeps_identities_unique scenario db_btc "binance"
                "BTC/USDT" "1h" 0 None Hnd) as H.
  exact H.
Defined.

Lemma backfill_counts_rows_witness :
  ohlcv scenario_db = ohlcv db_btc ++ added (outcome_trace first_run)
  /\ (4 <= List.length (added (outcome_trace first_run)))%nat.
Proof.
  destruct (backfill_counts_rows scenario db_btc "binance" "BTC/USDT" "1h" 0
              None 4%nat 0 3 scenario_db (outcome_trace first_run))
    as (_ & _ & Ho & Hle & _).
  { vm_compute. reflexivity. }
  split; assumption.
Defined.

Lemma backfill_rows_come_from_gateway_witness :
  Forall (served_as btc_usdt "1h" (all_candles (responses scenario)))
    (added (outcome_trace
              (continuous_backfill_ohlcv scenario db_btc "binance" "BTC/USDT"
                 "1h" 0 None))).
Proof.
  assert (Hy : _get_db_symbol (session_maker db_btc) "binance" "BTC/USDT"
               = Some btc_usdt) by (vm_compute; reflexivity).
  pose proof (backfill_rows_come_from_gateway scenario db_btc "binance"
                "BTC/USDT" "1h" 0 None btc_usdt Hy) as H.
  destruct H as [H _]. exact H.
Defined.

Lemma unknown_timeframe_stores_nothing_witness :
  match continuous_backfill_ohlcv honest db_btc "binance" "BTC/USDT" "1s" 0
          None with
  | Returned n _ _ db' tr => n = 0%nat /\ db' = db_btc /\ added tr = []
  | Raises db' tr => db' = db_btc /\ added tr = []
  | Unfinished tr => added tr = []
  end.
Proof.
  assert (Htf : TimeFrame_of_value "1s" = None) by reflexivity.
  pose proof (unknown_timeframe_stores_nothing honest db_btc "binance"
                "BTC/USDT" "1s" 0 None Htf) as H.
  exact H.
Defined.

Lemma page_unknown_timeframe_raises_witness :
  fetch_and_store_ohlcv (FetchReturns two_candles) true db_btc "binance"
    "BTC/USDT" "1s"
  = PageRaises db_btc.
Proof.
  exact (page_unknown_timeframe_raises (flat 0) [flat 1] true db_btc
           "binance" "BTC/USDT" "1s" eq_refl).
Defined.

Lemma nonzero_bound_is_respected_witness :
  Forall (fun r => OHLCV.timestamp r < 2)
    (added (outcome_trace
              (continuous_backfill_ohlcv honest db_btc "binance" "BTC/USDT"
                 "1h" 0 (Some 2)))).
Proof.
  assert (Hb : 2 <> 0) by discriminate.
  pose proof (nonzero_bound_is_respected honest db_btc "binance" "BTC/USDT"
                "1h" 0 2 Hb) as H.
  destruct H as [H _]. apply Forall_forall. exact H.
Defined.

Lemma backfill_stops_at_empty_page_witness :
  (List.length
     (fetched (outcome_trace
                 (continuous_backfill_ohlcv chatty db_btc "binance"
                    "BTC/USDT" "1h" 0 None)))
   <= 2)%nat.
Proof.
  assert (Hr : responses chatty
               = [FetchReturns two_candles]
                 ++ FetchReturns [] :: [FetchReturns [flat 5]])
    by reflexivity.
  pose proof (backfill_stops_at_empty_page chatty db_btc "binance"
                "BTC/USDT" "1h" 0 None [FetchReturns two_candles]
                [FetchReturns [flat 5]] Hr) as H.
  destruct H as [H _]. exact H.
Defined.

Lemma one_page_both_ways_witness :
  exists a b tr,
    continuous_backfill_ohlcv one_page db_btc "binance" "BTC/USDT" "1h" 0 None
    = Returned 2 a b page_db tr.
Proof.
  apply (one_page_both_ways one_page db_btc "binance" "BTC/USDT" "1h" 0
           two_candles 2%nat 2 page_db).
  - vm_compute. reflexivity.
  - reflexivity.
  - intros site. reflexivity.
  - cbn. discriminate.
Defined.

Lemma synced_market_can_be_backfilled_witness :
  exists y,
    _get_db_symbol
      (session_maker
         (snd (fetch_and_store_markets "binance" three_markets
                 empty_database)))
      "binance" "BTC/USDT" = Some y
    /\ Symbol.symbol y = "BTC/USDT".
Proof.
  assert (Hin : In btc_market three_markets) by (left; reflexivity).
  assert (Hc : countable btc_market = true) by reflexivity.
  pose proof (synced_market_can_be_backfilled "binance" three_markets
                empty_database btc_market Hin Hc) as H.
  destruct H as [H _]. exact H.
Defined.
